(* ===== verification/_CoqProject ===== *)
-Q . S2P
Prelude.v
Zlib.v
BitBuf.v
Window.v
Interfaces.v
Trees.v
Codes.v
Blocks.v
Session.v
Stored.v
Invariant.v
Progress.v
Scenarios.v
Checked.v
