(* ===== verification/Prelude.v ===== *)
(** * A verification development of zlib's block decoder (src/infblock.c)

    The program.  [src/infblock.c] is the block layer of zlib's inflate
    (the 1995 version, before 1.0): a resumable state machine
    [inflate_blocks] that reads DEFLATE block headers, copies stored
    blocks, decodes the code-length header of dynamic blocks, drives the
    Huffman codes decoder over the body of each compressed block, and
    flushes the sliding window to the caller's output buffer.  Around it
    are [inflate_blocks_new] and [inflate_blocks_free] (the lifecycle).
    It relies on the macros of [infutil.h] (bit buffer and window access),
    on [inflate_flush] of [infutil.c], on the table builder of
    [inftrees.c] and on the codes decoder of [infcodes.c]; those files are
    not under src/ and are modelled from the specification.

    The library, in dependency order:
    - [Prelude] (this file): the state-and-exit monad [M] in which the
      C macros are written (a [LEAVE] is [Exit]), its Hoare-style
      [triple] with its rules ([triple_bind], [triple_get],
      [triple_conseq], ...), shared Z and list lemmas, the hint database
      [inflate] and the tactic [mstep].
    - [Zlib]: the data shared with the rest of zlib: the status codes of
      [zlib.h], the [z_stream] (input cursor, output buffer, message, and
      an allocator: its live objects and the requests it still grants),
      the mode-independent part of [struct inflate_blocks_state]
      ([indep]: bit buffer, window pointers, check value) and the context
      [ctx] a call works on; [heap_frame] says a step touches only the
      message and the allocator.
    - [BitBuf]: NEEDBYTE, NEXTBYTE, NEEDBITS, DUMPBITS of [infutil.h] on
      a buffer of [ulong_bits] bits with its wrap-around.  The buffer and
      the remaining input are abstracted as one bit sequence
      ([stream_bits], least significant bit first): NEEDBITS keeps the
      sequence and leaves exactly when it is too short
      ([NEEDBITS_cases]), [b & inflate_mask[j]] is the value of its first
      [j] bits ([peek_value]), DUMPBITS drops them ([DUMPBITS_spec]), and
      the idiom [NEEDBITS(t+i) DUMPBITS(t) v = b & mask[i] DUMPBITS(i)]
      reads the field after [t] bits ([NEEDBITS_skip_field]).
    - [Window]: WAVAIL, WRAP, OUTBYTE, NEEDOUT, FLUSH and [inflate_flush];
      the circular window is abstracted as a FIFO of pending bytes
      ([pending]): OUTBYTE appends to it, [inflate_flush] delivers a
      prefix of it and folds the check function over exactly those bytes
      ([inflate_flush_correct]); NEEDOUT leaves only with no room
      ([NEEDOUT_spec]); the caller's buffer, bytes handed over plus room
      left ([room]), is conserved ([NEEDOUT_room]).
    - [Interfaces]: the table builder ([TreeBuilder]: bits, dynamic,
      fixed, free) and the codes decoder ([CodesDecoder]: new, run, free)
      as type classes, with their laws ([HeapLaws]: they change only the
      message and the allocator; [MetaTables]: the meta table of 3-bit
      lengths has entries within its width and the 19 symbols).  The
      block decoder and its theorems are stated against these classes.
    - [Trees]: an instance of [TreeBuilder] from the specification:
      canonical Huffman codes of RFC 1951 with zlib's error messages; a
      table is one object of the allocator ([canonical_trees]); its
      search is proved equal to the reference one ([hfind_ref_eq]).  A
      second builder, [checked_trees], rejects incomplete code-length
      codes as later zlib does, and meets [MetaTables]
      ([checked_meta]).  zlib's multi-level table layout is not
      modelled.
    - [Codes]: an instance of [CodesDecoder] from the specification, a
      resumable decoder written with the macros of [infutil.h], over
      either builder ([bitwise_codes], [checked_codes]); the allocator
      laws hold for it ([bitwise_heap], [checked_heap]).
    - [Blocks]: [inflate_blocks] itself, one definition per case of its
      [switch (s->mode)] ([case_TYPE], [case_LENS], [case_STORED],
      [case_TABLE], [case_BTREE], [case_DTREE], [case_CODES],
      [case_DRY], [case_DONE], [case_INF_ERROR]), composed as the C
      composes them (fall-through is a direct call, [break] returns to
      [blocks_loop]), the outer [while (1)] on fuel.  The loops inside
      the cases are [stored_copy], [btree_read], [btree_zero] and
      [dtree_loop].  Theorems: the behaviour of TYPE, LENS, the STORED
      copy, TABLE and the BTREE read on every branch, errors included
      ([case_TYPE_spec], [case_LENS_spec] on a 32-bit [unsigned long],
      where the test is NLEN = LEN xor 0xffff, [stored_copy_spec],
      [case_TABLE_spec], [btree_read_spec]); the refinement of the DTREE
      loop by a reference decoder of the code lengths on the bit stream
      ([dtree_ref], [dtree_loop_spec]) and the sufficiency of its fuel
      ([dtree_loop_total]); the repeat loop as a splice
      ([fill_lens_app]); the placement of the code length code lengths
      through the permutation [border] ([btree_placement]); the end of
      a block in CODES, with the byte given back after the last one
      ([case_CODES_end]); the stored-length test at 32 and 64 bits; the
      absorbing states INF_ERROR and DONE.
    - [Session]: [inflate_blocks_new] and [inflate_blocks_free], and two
      defects they share with the cases: the first header of a session
      is read OR-ed with the [s->bitb] the allocator left, for every
      such value and first byte ([uninitialized_bitb_read]); after a
      data error in the code-length loop, which allocates and frees
      nothing ([dtree_loop_heap]), the free in INF_ERROR releases only
      the window and the state ([dtree_error_leaks]).
    - [Stored]: a final stored block end to end on a 32-bit [unsigned
      long]: for every payload of 1 to 65535 bytes, one call hands the
      caller exactly the payload and returns [Z_STREAM_END]
      ([stored_block_decodes]), composed from the cases' specs, the FIFO
      view of the window and the conservation of [room].
    - [Invariant]: the type invariant of the block decoder's state
      ([blocks_typed]: [k] and [b] within the width, the window offsets
      within the window, and per mode the member of [sub] it uses within
      its C ranges: a nonzero 16-bit [left], a byte-aligned [k] in LENS,
      a header word within its guards, [blens] of [dtree_total] entries,
      the index within it, 3-bit lengths in BTREE, a meta table whose
      entries are within its width in DTREE).  Every case keeps it
      ([case_TYPE_keeps] ... [case_CODES_keeps], [blocks_step_keeps]),
      given the laws [MetaTables] and [CodesTyped] (the codes decoder
      keeps the context typed); so does every call
      ([inflate_blocks_preserves_typed]) and every state a session
      reaches ([reachable], [reachable_typed]).  The law [CodesTyped] of
      the decoder of [Codes] is proved with the Hoare triples of this
      file, one macro at a time ([codes_step_triple]).
    - [Progress]: the termination of [while (1)].  The potential of a
      state is the bits still to read ([ibits]: [k] plus 8 per input
      byte) plus a rank of its mode.  With the triples of this file
      under the precondition [KI N] ([k >= 0], at most [N] bits to
      read), each case is shown to go on only to a mode of lower rank
      without adding bits, or, in [case TYPE], having dropped its three
      header bits ([case_TYPE_progress] ... [case_CODES_progress]);
      DRY, DONE and INF_ERROR always leave; so each turn that goes on
      lowers the potential ([blocks_step_decreases]) and [potential + 1]
      turns are enough ([inflate_blocks_terminates], and for every
      state of a session, [reachable_call_terminates]).  This needs a
      new law of the codes decoder, [CodesProgress] (it adds no bit to
      read), proved of the decoder of [Codes] ([run_codes_KI],
      [codes_phase_progress]),
      and [MetaTables] (DUMPBITS in [case DTREE] drops at most the bits
      NEEDBITS asked for).
    - [Scenarios]: the block decoder with [Trees], [Codes] and a 32-bit
      [unsigned long]: the witnesses of the theorems at concrete states,
      each hypothesis discharged by computation.
    - [Checked]: the decoder over [checked_trees] and [checked_codes],
      where all the laws hold: the witnesses of [Invariant] and
      [Progress].

    Representation choices.  Integers are [Z] at the C width: [uLong b]
    is the bit buffer, and the width of [unsigned long] is a parameter
    [ulong_bits] of the block decoder, since the stored-length test
    depends on it.  Pointers into the window and into the input are
    [nat] offsets.  The locals of [inflate_blocks] ([b k p n q m]) are
    the session fields themselves: every exit of the C function goes
    through [LEAVE] or [UPDATE], which commit them, so the copy is not
    observable; [m] is recomputed as WAVAIL where the C reads it.  The
    member of the union [s->sub] a mode uses is carried by the mode.

    Fuel.  NEEDBITS(j) runs [j] turns, enough since each adds 8 bits
    ([needbits_loop_spec]); the STORED copy and the BTREE read run
    exactly the number of bytes or lengths left; the DTREE loop runs the
    number of lengths missing, enough since every turn adds at least one
    ([dtree_loop_total]).  The outer loop [inflate_blocks] takes fuel
    from the caller; more than [potential st] turns are enough from a
    typed state ([inflate_blocks_terminates]): [8 n + k + 4] for [n]
    input bytes, since the rank is at most 4; a final stored block
    needs four ([stored_block_decodes]).  The codes decoder of [Codes]
    is given [codes_fuel], four turns per bit of input, byte of room
    and byte of window plus eight.
    The typed invariant needs [unsigned long] of at least 32 bits (LENS
    asks for 32 bits at once), and the codes decoder at least 22 (15 bits
    of a code plus 7 of read-ahead).

    Findings (see PROJECT.json): after a stored-block length the code
    resets [k] but not [b] ([case_LENS_spec]), so stale length bits are
    OR-ed into the next header as the bits of [s->bitb] are, which
    [inflate_blocks_new] never sets ([uninitialized_bitb_read]); an
    empty final stored block goes to TYPE instead of DRY; the length
    complement test fails for every stored block when [unsigned long]
    is 64 bits wide ([stored_lengths_bad_64]); the lengths and the
    code-length table leak after a data error in the header of a
    dynamic block ([dtree_error_leaks]); the test [t < 19] never holds;
    [case DTREE] trusts that the meta table entry's symbol is a code
    length symbol (0..18) and never checks it.

    Not modelled: the internals of zlib's table builder and codes
    decoder (only their contracts, with instances from the
    specification), [inflate_fast], the container format and the
    checksum function itself (a parameter). *)

From Stdlib Require Import ZArith Lia List.
From stdpp Require Import base list.

Declare Scope inflate_scope.
Delimit Scope inflate_scope with inf.

(** ** The state-and-exit monad *)

(** A computation of the C code either goes on with a value and a new
    state, or leaves [inflate_blocks] (the [LEAVE] macro) with the
    state at that point. *)
Inductive res (S A : Type) : Type :=
  | Cont (a : A) (s : S)
  | Exit (s : S).
Arguments Cont {S A} a s.
Arguments Exit {S A} s.

Definition M (S A : Type) : Type := S -> res S A.

Definition mret {S A} (a : A) : M S A := fun s => Cont a s.

Definition mbind {S A B} (m : M S A) (k : A -> M S B) : M S B :=
  fun s => match m s with Cont a s' => k a s' | Exit s' => Exit s' end.

Definition leave {S A} : M S A := fun s => Exit s.

Definition mget {S} : M S S := fun s => Cont s s.

Definition mmodify {S} (f : S -> S) : M S unit := fun s => Cont tt (f s).

Notation "x <- m ;; k" := (mbind m (fun x => k))
  (at level 100, m at next level, right associativity) : inflate_scope.
Notation "m ;; k" := (mbind m (fun _ => k))
  (at level 100, right associativity) : inflate_scope.

Open Scope inflate_scope.

(** The state a computation ends in, whichever way it ends. *)
Definition res_state {S A} (r : res S A) : S :=
  match r with Cont _ s => s | Exit s => s end.

Lemma mbind_ret_l {S A B} (a : A) (k : A -> M S B) s :
  mbind (mret a) k s = k a s.
Proof. reflexivity. Qed.

Lemma mbind_assoc {S A B C} (m : M S A) (k : A -> M S B) (h : B -> M S C) s :
  mbind (mbind m k) h s = mbind m (fun a => mbind (k a) h) s.
Proof. unfold mbind. destruct (m s); reflexivity. Qed.

Lemma mbind_cont {S A B} (m : M S A) (k : A -> M S B) s a s' :
  m s = Cont a s' -> mbind m k s = k a s'.
Proof. unfold mbind. intros ->. reflexivity. Qed.

Lemma mbind_exit {S A B} (m : M S A) (k : A -> M S B) s s' :
  m s = Exit s' -> mbind m k s = Exit s'.
Proof. unfold mbind. intros ->. reflexivity. Qed.

(** ** A Hoare logic for [M]

    [triple P m Q E]: from a state satisfying [P], [m] either goes on
    with a result and state satisfying [Q], or leaves in a state
    satisfying [E].  Invariant preservation of the C cases is proved
    with these rules, one macro at a time. *)
Definition triple {S A} (P : S -> Prop) (m : M S A)
    (Q : A -> S -> Prop) (E : S -> Prop) : Prop :=
  forall s, P s ->
  match m s with Cont a s' => Q a s' | Exit s' => E s' end.

Section Triple.
Context {S : Type}.
Implicit Types P E : S -> Prop.

Lemma triple_ret {A} P (a : A) E : triple P (mret a) (fun x s => x = a /\ P s) E.
Proof. intros s Hs. simpl. auto. Qed.

Lemma triple_leave {A} P : triple (A := A) P leave (fun _ _ => False) P.
Proof. intros s Hs. exact Hs. Qed.

Lemma triple_bind {A B} P (m : M S A) Q (k : A -> M S B) R E :
  triple P m Q E -> (forall a, triple (Q a) (k a) R E) ->
  triple P (mbind m k) R E.
Proof.
  intros Hm Hk s Hs. unfold mbind. specialize (Hm s Hs).
  destruct (m s) as [a s'|s']; [apply Hk|]; exact Hm.
Qed.

Lemma triple_conseq {A} P P' (m : M S A) (Q Q' : A -> S -> Prop) E E' :
  triple P' m Q' E' ->
  (forall s, P s -> P' s) ->
  (forall a s, Q' a s -> Q a s) ->
  (forall s, E' s -> E s) ->
  triple P m Q E.
Proof.
  intros Hm HP HQ HE s Hs. specialize (Hm s (HP s Hs)).
  destruct (m s); auto.
Qed.

Lemma triple_get P E : triple P mget (fun _ s => P s) E.
Proof. intros s Hs. exact Hs. Qed.

Lemma triple_modify P (f : S -> S) E :
  triple P (mmodify f) (fun _ s => exists s0, P s0 /\ s = f s0) E.
Proof. intros s Hs. simpl. eauto. Qed.

Lemma triple_if {A} P (b : bool) (m1 m2 : M S A) Q E :
  (b = true -> triple P m1 Q E) -> (b = false -> triple P m2 Q E) ->
  triple P (if b then m1 else m2) Q E.
Proof. destruct b; auto. Qed.
End Triple.

(** ** Shared arithmetic lemmas *)

Open Scope Z_scope.

Lemma Z_pow2_pos (n : Z) : 0 <= n -> 0 < 2 ^ n.
Proof. intros. apply Z.pow_pos_nonneg; lia. Qed.

Lemma Z_land_ones_mod (x n : Z) : 0 <= n -> Z.land x (Z.ones n) = x mod 2 ^ n.
Proof. apply Z.land_ones. Qed.

(** No bit of [b < 2^n] is set at or above [n]. *)
Lemma Z_testbit_above (b n i : Z) : 0 <= n -> 0 <= b < 2 ^ n -> n <= i -> Z.testbit b i = false.
Proof.
  intros Hn Hb Hi. rewrite <- (Z.mod_small b (2 ^ n)) by lia.
  apply Z.mod_pow2_bits_high. lia.
Qed.

(** Bits below [k] and a multiple of [2^k] do not overlap. *)
Lemma Z_land_low_high (b x k : Z) :
  0 <= k -> 0 <= b < 2 ^ k -> Z.land b (x * 2 ^ k) = 0.
Proof.
  intros Hk Hb. rewrite <- (Z.mod_small b (2 ^ k)) by lia.
  apply Z.bits_inj_0. intros i. rewrite Z.land_spec.
  destruct (Z.ltb_spec i 0); [now rewrite Z.testbit_neg_r|].
  destruct (Z.ltb_spec i k).
  - rewrite Z.mul_pow2_bits_low by lia. apply andb_false_r.
  - rewrite Z.mod_pow2_bits_high by lia. reflexivity.
Qed.

(** The accumulator of NEEDBITS: a byte OR-ed in above [k] valid bits. *)
Lemma Z_lor_shiftl_add (b x k : Z) :
  0 <= k -> 0 <= b < 2 ^ k ->
  Z.lor b (Z.shiftl x k) = b + x * 2 ^ k.
Proof.
  intros Hk Hb. rewrite Z.shiftl_mul_pow2 by lia.
  pose proof (Z_land_low_high b x k Hk Hb) as H0.
  rewrite <- Z.lxor_lor by exact H0.
  symmetry. apply Z.add_nocarry_lxor, H0.
Qed.

Lemma Z_acc_bound (b x k : Z) :
  0 <= k -> 0 <= b < 2 ^ k -> 0 <= x < 2 ^ 8 ->
  0 <= b + x * 2 ^ k < 2 ^ (k + 8).
Proof.
  intros Hk Hb Hx. rewrite Z.pow_add_r by lia.
  assert (0 < 2 ^ k) by (apply Z.pow_pos_nonneg; lia).
  assert (x * 2 ^ k <= (2 ^ 8 - 1) * 2 ^ k) by (apply Z.mul_le_mono_nonneg_r; lia).
  change (2 ^ 8) with 256 in *. nia.
Qed.

Lemma Z_shiftr_bound (b k j : Z) :
  0 <= j <= k -> 0 <= b < 2 ^ k -> 0 <= Z.shiftr b j < 2 ^ (k - j).
Proof.
  intros Hj Hb. rewrite Z.shiftr_div_pow2 by lia.
  assert (0 < 2 ^ j) by (apply Z_pow2_pos; lia).
  assert (2 ^ k = 2 ^ (k - j) * 2 ^ j) as E
    by (rewrite <- Z.pow_add_r by lia; f_equal; lia).
  split; [apply Z.div_pos; lia|].
  apply Z.div_lt_upper_bound; lia.
Qed.

Lemma Z_sub_mod_self (x n : Z) : (x - x mod n) mod n = 0.
Proof.
  destruct (Z.eq_dec n 0) as [->|Hn]; [rewrite !Z.mod_0_r; lia|].
  rewrite Zminus_mod, Z.mod_mod, Z.sub_diag by exact Hn. apply Z.mod_0_l, Hn.
Qed.

Lemma Z_0_to_3 (x : Z) : 0 <= x < 4 -> x = 0 \/ x = 1 \/ x = 2 \/ x = 3.
Proof. lia. Qed.

Lemma Z_mod_pow2_bound (x n : Z) : 0 <= n -> 0 <= x mod 2 ^ n < 2 ^ n.
Proof. intros. apply Z.mod_pos_bound, Z_pow2_pos; lia. Qed.

Close Scope Z_scope.

(** ** Shared list lemmas *)

Lemma length_insert_nat {A} (l : list A) (i : nat) (x : A) :
  length (<[i := x]> l) = length l.
Proof. apply length_insert. Qed.

Lemma take_S_lookup {A} (l : list A) (i : nat) (x : A) :
  l !! i = Some x -> take (S i) l = take i l ++ [x].
Proof.
  revert i. induction l as [|y l IH]; intros [|i] H; simpl in *; try discriminate.
  - injection H as ->. reflexivity.
  - rewrite (IH i H). reflexivity.
Qed.

(** ** Automation *)

(** The element before the end of a non-empty list is its last one. *)
Lemma nth_last {A} (l : list A) (d : A) :
  l <> [] -> nth (length l - 1) l d = List.last l d.
Proof.
  intros Hl. pose proof (app_removelast_last d Hl) as E.
  remember (removelast l) as r. remember (List.last l d) as x.
  rewrite E, length_app. simpl. rewrite Nat.add_sub, nth_middle. reflexivity.
Qed.

Create HintDb inflate discriminated.
Create Rewrite HintDb inflate_rw.
#[export] Hint Resolve Z_pow2_pos Z_mod_pow2_bound : inflate.
#[export] Hint Rewrite @length_insert_nat : inflate_rw.

(** Run a monadic program whose state is concrete enough to compute. *)
Ltac mstep :=
  repeat (unfold mbind, mret, leave, mget, mmodify in *; simpl in *).
