(* ===== verification/Zlib.v ===== *)
(** * Data shared with the rest of zlib

    The status codes of [zlib.h], the fields of [z_stream] the block
    decoder uses, the allocator behind [ZALLOC]/[ZFREE], the
    mode-independent part of [struct inflate_blocks_state] and the
    context ([s], [z], [r]) that [inflate_blocks] and the macros of
    [infutil.h] work on.  None of these declarations is under src/: they
    are modelled from the specification, with the names of the C. *)

From Stdlib Require Import ZArith Lia List String.
From stdpp Require Import base list.
From S2P Require Import Prelude.

(** ** Status codes ([zlib.h]) *)

Inductive status :=
  | Z_OK | Z_STREAM_END | Z_STREAM_ERROR | Z_DATA_ERROR
  | Z_MEM_ERROR | Z_BUF_ERROR.

#[export] Instance status_eq_dec : EqDecision status.
Proof. solve_decision. Defined.

Definition status_eqb (a b : status) : bool := bool_decide (a = b).

(** ** The allocator

    [ZALLOC] and [ZFREE] go through the allocator of the [z_stream].  It
    is modelled by the objects it has handed out and not taken back
    ([zlive]) and by the number of further requests it will grant
    ([zroom]); a request beyond that returns [Z_NULL].  The objects are
    those [infblock.c] allocates itself (session, window, code lengths)
    and those of the table builder and the codes decoder it drives. *)
Inductive zobj := ObjBlocksState | ObjWindow | ObjBlens | ObjHuft | ObjCodes.

#[export] Instance zobj_eq_dec : EqDecision zobj.
Proof. solve_decision. Defined.

(** ** The stream ([z_stream]) *)

(** The input is the whole byte sequence the caller presents, [next_in]
    the offset of [z->next_in] in it; [next_out] is what has been stored
    at the caller's output so far. *)
Record z_stream := mk_z_stream {
  zin : list Z;
  next_in : nat;
  avail_in : nat;
  total_in : nat;
  next_out : list Z;
  avail_out : nat;
  total_out : nat;
  msg : option string;
  zlive : list zobj;
  zroom : nat }.

(** [n--, *p++] *)
Definition z_take_byte (z : z_stream) : z_stream :=
  mk_z_stream (zin z) (S (next_in z)) (pred (avail_in z)) (S (total_in z))
    (next_out z) (avail_out z) (total_out z) (msg z) (zlive z) (zroom z).

(** [n++, p--] *)
Definition z_return_byte (z : z_stream) : z_stream :=
  mk_z_stream (zin z) (pred (next_in z)) (S (avail_in z)) (pred (total_in z))
    (next_out z) (avail_out z) (total_out z) (msg z) (zlive z) (zroom z).

(** The input cursor set to given values. *)
Definition z_set_in (z : z_stream) (ni ai ti : nat) : z_stream :=
  mk_z_stream (zin z) ni ai ti
    (next_out z) (avail_out z) (total_out z) (msg z) (zlive z) (zroom z).

(** The output cursor set to given values. *)
Definition z_set_out (z : z_stream) (no : list Z) (ao to : nat) : z_stream :=
  mk_z_stream (zin z) (next_in z) (avail_in z) (total_in z)
    no ao to (msg z) (zlive z) (zroom z).

Definition z_set_msg (z : z_stream) (m : string) : z_stream :=
  mk_z_stream (zin z) (next_in z) (avail_in z) (total_in z)
    (next_out z) (avail_out z) (total_out z) (Some m) (zlive z) (zroom z).

(** [z->avail_out -= n; z->total_out += n; zmemcpy(p, q, n); p += n],
    [bs] being the [n] bytes at [q]. *)
Definition z_emit (z : z_stream) (n : nat) (bs : list Z) : z_stream :=
  mk_z_stream (zin z) (next_in z) (avail_in z) (total_in z)
    (next_out z ++ bs) (avail_out z - n) (total_out z + n)
    (msg z) (zlive z) (zroom z).

Definition z_set_heap (z : z_stream) (live : list zobj) (room : nat) : z_stream :=
  mk_z_stream (zin z) (next_in z) (avail_in z) (total_in z)
    (next_out z) (avail_out z) (total_out z) (msg z) live room.

(** [ZALLOC(z, ...)]: [None] is [Z_NULL]. *)
Definition zalloc (o : zobj) (z : z_stream) : option z_stream :=
  match zroom z with
  | O => None
  | S room => Some (z_set_heap z (o :: zlive z) room)
  end.

Fixpoint list_remove_one (o : zobj) (l : list zobj) : list zobj :=
  match l with
  | [] => []
  | x :: l' => if decide (x = o) then l' else x :: list_remove_one o l'
  end.

(** [ZFREE(z, p)] *)
Definition zfree (o : zobj) (z : z_stream) : z_stream :=
  z_set_heap z (list_remove_one o (zlive z)) (S (zroom z)).

(** [heap_frame z z']: [z'] is [z] with at most the message and the
    allocator changed, as after [ZALLOC], [ZFREE] or [z->msg = ...]. *)
Definition heap_frame (z z' : z_stream) : Prop :=
  z' = mk_z_stream (zin z) (next_in z) (avail_in z) (total_in z)
         (next_out z) (avail_out z) (total_out z) (msg z') (zlive z') (zroom z').

Lemma heap_frame_refl (z : z_stream) : heap_frame z z.
Proof. destruct z. reflexivity. Qed.

Lemma heap_frame_trans (z1 z2 z3 : z_stream) :
  heap_frame z1 z2 -> heap_frame z2 z3 -> heap_frame z1 z3.
Proof. intros H1 H2. rewrite H2, H1. reflexivity. Qed.

Lemma heap_frame_zalloc (o : zobj) (z z' : z_stream) :
  zalloc o z = Some z' -> heap_frame z z'.
Proof. unfold zalloc. destruct (zroom z); intros H; inversion H. reflexivity. Qed.

Lemma heap_frame_zfree (o : zobj) (z : z_stream) : heap_frame z (zfree o z).
Proof. reflexivity. Qed.

Lemma heap_frame_msg (z : z_stream) (m : string) : heap_frame z (z_set_msg z m).
Proof. reflexivity. Qed.

#[export] Hint Resolve heap_frame_refl heap_frame_zfree heap_frame_msg : inflate.

(** ** The mode-independent state ([infutil.h])

    [bitk], [bitb]: the bit buffer; [window] with its end [wend] (the
    offset of [s->end], the window size), [read] and [write] the
    offsets of [s->read] and [s->write]; [checkfn] and [check]: the
    check function, called as [checkfn(prev, buf, len)] and given here
    the [len] bytes at [buf]. *)
Definition check_func := Z -> list Z -> Z.

Record indep := mk_indep {
  bitk : Z;
  bitb : Z;
  window : list Z;
  wend : nat;
  read : nat;
  write : nat;
  checkfn : option check_func;
  check : Z }.

Definition set_bits (s : indep) (b k : Z) : indep :=
  mk_indep k b (window s) (wend s) (read s) (write s) (checkfn s) (check s).

Definition set_window (s : indep) (w : list Z) (q : nat) : indep :=
  mk_indep (bitk s) (bitb s) w (wend s) (read s) q (checkfn s) (check s).

Definition set_write (s : indep) (q : nat) : indep :=
  mk_indep (bitk s) (bitb s) (window s) (wend s) (read s) q (checkfn s) (check s).

Definition set_read (s : indep) (q : nat) : indep :=
  mk_indep (bitk s) (bitb s) (window s) (wend s) q (write s) (checkfn s) (check s).

Definition set_check (s : indep) (c : Z) : indep :=
  mk_indep (bitk s) (bitb s) (window s) (wend s) (read s) (write s) (checkfn s) c.

(** ** The context of a call: the session, the stream and the status
    [r] that [inflate_blocks] threads through its macros. *)
Record ctx := mk_ctx { cs : indep; cz : z_stream; cr : status }.

Definition upd_s (f : indep -> indep) : M ctx unit :=
  mmodify (fun c => mk_ctx (f (cs c)) (cz c) (cr c)).

Definition upd_z (f : z_stream -> z_stream) : M ctx unit :=
  mmodify (fun c => mk_ctx (cs c) (f (cz c)) (cr c)).

Definition set_r (r : status) : M ctx unit :=
  mmodify (fun c => mk_ctx (cs c) (cz c) r).
