(* ===== verification/BitBuf.v ===== *)
(** * The bit buffer: NEEDBYTE, NEXTBYTE, NEEDBITS, DUMPBITS ([infutil.h])

    The bit buffer [b] (an [unsigned long] of [ulong_bits] bits) holds
    [k] pending bits, least significant first; NEEDBITS(j) appends input
    bytes at position [k] until [k >= j], DUMPBITS(j) shifts [j] bits
    out.  The abstraction [stream_bits] reads the pending bits followed
    by the bits of the unread input bytes as one sequence, and the
    theorems show that NEEDBITS keeps that sequence (it only moves bits
    from the input into the buffer), that the low [j] bits of [b] are
    then its first [j] bits, and that DUMPBITS drops exactly them. *)

From Stdlib Require Import ZArith Lia List.
From stdpp Require Import base list.
From S2P Require Import Prelude Zlib.

Open Scope Z_scope.

(** ** Bit sequences *)

(** The [n] low bits of [v], least significant first. *)
Definition bits_of (n : nat) (v : Z) : list bool :=
  map (fun i => Z.testbit v (Z.of_nat i)) (seq 0 n).

(** The bits of a byte sequence, each byte least significant bit first
    (RFC 1951, 3.1.1). *)
Definition bytes_bits (l : list Z) : list bool := flat_map (bits_of 8) l.

(** The bytes not yet read: [avail_in] bytes at [next_in]. *)
Definition pending_input (z : z_stream) : list Z :=
  take (avail_in z) (drop (next_in z) (zin z)).

(** The abstract bit stream of a context: the pending bits of the
    buffer, then the unread input. *)
Definition stream_bits (c : ctx) : list bool :=
  bits_of (Z.to_nat (bitk (cs c))) (bitb (cs c)) ++ bytes_bits (pending_input (cz c)).

(** The bit buffer is well formed: [0 <= k <= ulong_bits] and no bit of
    [b] is set at or above [k]; the input cursor is inside the input,
    whose elements are bytes. *)
Definition input_ok (z : z_stream) : Prop :=
  (next_in z + avail_in z <= length (zin z))%nat /\
  Forall (fun x => 0 <= x < 256) (zin z).

Definition bitbuf_ok (w : Z) (c : ctx) : Prop :=
  0 <= bitk (cs c) <= w /\ 0 <= bitb (cs c) < 2 ^ bitk (cs c) /\ input_ok (cz c).

(** ** The macros *)

Section Macros.
(** The width of [unsigned long] on the target. *)
Variable ulong_bits : Z.

Definition ulong (x : Z) : Z := x mod 2 ^ ulong_bits.

(** [#define NEEDBYTE {if(n)r=Z_OK;else LEAVE}] *)
Definition NEEDBYTE : M ctx unit :=
  fun c => match avail_in (cz c) with
           | O => Exit c
           | S _ => Cont tt (mk_ctx (cs c) (cz c) Z_OK)
           end.

(** [#define NEXTBYTE (n--,*p++)] *)
Definition NEXTBYTE : M ctx Z :=
  fun c => Cont (nth (next_in (cz c)) (zin (cz c)) 0)
                (mk_ctx (cs c) (z_take_byte (cz c)) (cr c)).

(** [#define NEEDBITS(j) {while(k<(j)){NEEDBYTE;b|=((uLong)NEXTBYTE)<<k;k+=8;}}]
    Each turn adds 8 to [k], so [j] turns are enough when [k >= 0]
    ([needbits_loop_spec]). *)
Fixpoint needbits_loop (fuel : nat) (j : Z) : M ctx unit :=
  match fuel with
  | O => mret tt
  | S fuel' =>
      c <- mget ;;
      if bitk (cs c) <? j then
        NEEDBYTE ;;
        x <- NEXTBYTE ;;
        upd_s (fun s => set_bits s (ulong (Z.lor (bitb s) (Z.shiftl x (bitk s))))
                                   (bitk s + 8)) ;;
        needbits_loop fuel' j
      else mret tt
  end.

Definition NEEDBITS (j : Z) : M ctx unit := needbits_loop (Z.to_nat j) j.

(** [#define DUMPBITS(j) {b>>=(j);k-=(j);}] *)
Definition DUMPBITS (j : Z) : M ctx unit :=
  upd_s (fun s => set_bits s (Z.shiftr (bitb s) j) (bitk s - j)).

End Macros.

(** [inflate_mask[n]] of [infutil.c]: the [n] low bits set. *)
Definition inflate_mask (n : Z) : Z := Z.ones n.

(** ** Lemmas on bit sequences *)

Lemma length_bits_of (n : nat) (v : Z) : length (bits_of n v) = n.
Proof. unfold bits_of. rewrite length_map. apply length_seq. Qed.

Lemma map_seq_offset {A} (f : nat -> A) (n m : nat) :
  map f (seq n m) = map (fun i => f (n + i)%nat) (seq 0 m).
Proof.
  revert f n. induction m as [|m IH]; intros f n; [reflexivity|].
  cbn [seq map]. rewrite (IH f (S n)), (IH _ 1%nat). f_equal; [f_equal; lia|].
  apply map_ext. intros i. f_equal. lia.
Qed.

Lemma bits_of_app (n m : nat) (v : Z) :
  bits_of (n + m) v = bits_of n v ++ bits_of m (Z.shiftr v (Z.of_nat n)).
Proof.
  unfold bits_of. rewrite seq_app, map_app. f_equal.
  rewrite map_seq_offset. apply map_ext. intros i.
  rewrite Z.shiftr_spec by lia. f_equal. lia.
Qed.

Lemma bits_of_mod (n : nat) (v : Z) :
  bits_of n (v mod 2 ^ Z.of_nat n) = bits_of n v.
Proof.
  unfold bits_of. apply map_ext_in. intros i Hi.
  apply in_seq in Hi. apply Z.mod_pow2_bits_low. lia.
Qed.

Lemma take_bits_of (j n : nat) (v : Z) :
  (j <= n)%nat -> take j (bits_of n v) = bits_of j v.
Proof.
  intros Hj. replace n with (j + (n - j))%nat by lia.
  rewrite bits_of_app, take_app_length'; [reflexivity|]. symmetry.
  apply length_bits_of.
Qed.

Lemma drop_bits_of (j n : nat) (v : Z) :
  (j <= n)%nat -> drop j (bits_of n v) = bits_of (n - j) (Z.shiftr v (Z.of_nat j)).
Proof.
  intros Hj. replace n with (j + (n - j))%nat at 1 by lia.
  rewrite bits_of_app, drop_app_length'; [reflexivity|]. symmetry.
  apply length_bits_of.
Qed.

(** One byte appended above [k] valid bits. *)
Lemma bits_of_acc (k b x : Z) :
  0 <= k -> 0 <= b < 2 ^ k -> 0 <= x < 256 ->
  bits_of (Z.to_nat (k + 8)) (b + x * 2 ^ k) = bits_of (Z.to_nat k) b ++ bits_of 8 x.
Proof.
  intros Hk Hb Hx.
  replace (Z.to_nat (k + 8)) with (Z.to_nat k + 8)%nat by lia.
  rewrite bits_of_app. f_equal.
  - rewrite <- bits_of_mod, <- (bits_of_mod _ b). f_equal.
    rewrite Z2Nat.id by lia. rewrite Z.mod_add by (apply Z.pow_nonzero; lia).
    reflexivity.
  - rewrite Z2Nat.id, Z.shiftr_div_pow2 by lia.
    rewrite Z.div_add by (apply Z.pow_nonzero; lia).
    rewrite Z.div_small by lia. reflexivity.
Qed.

Lemma pending_input_take (z : z_stream) :
  input_ok z -> (0 < avail_in z)%nat ->
  pending_input z = nth (next_in z) (zin z) 0 :: pending_input (z_take_byte z).
Proof.
  intros [Hlen _] Hn. unfold pending_input, z_take_byte; simpl.
  destruct (lookup_lt_is_Some_2 (zin z) (next_in z)) as [x Hx]; [lia|].
  rewrite (nth_lookup_Some _ _ _ _ Hx), (drop_S _ x _ Hx).
  destruct (avail_in z) as [|a]; [lia|]. reflexivity.
Qed.

Lemma input_ok_take (z : z_stream) :
  input_ok z -> (0 < avail_in z)%nat -> input_ok (z_take_byte z).
Proof. intros [Hl Hf] Hn. split; simpl; [lia | exact Hf]. Qed.

Lemma input_byte_range (z : z_stream) :
  input_ok z -> (next_in z < length (zin z))%nat ->
  0 <= nth (next_in z) (zin z) 0 < 256.
Proof.
  intros [_ Hf] Hi. rewrite Forall_forall in Hf. apply Hf, list_elem_of_In, nth_In. exact Hi.
Qed.

(** ** What the bit-buffer macros change

    [bits_frame c c']: [c'] is [c] with only the bit buffer, the input
    cursor and the status changed. *)
Definition bits_frame (c c' : ctx) : Prop :=
  c' = mk_ctx (set_bits (cs c) (bitb (cs c')) (bitk (cs c')))
              (z_set_in (cz c) (next_in (cz c')) (avail_in (cz c')) (total_in (cz c')))
              (cr c').

Lemma bits_frame_refl (c : ctx) : bits_frame c c.
Proof. destruct c as [[] [] r]. reflexivity. Qed.

Lemma bits_frame_trans (c1 c2 c3 : ctx) :
  bits_frame c1 c2 -> bits_frame c2 c3 -> bits_frame c1 c3.
Proof. unfold bits_frame. intros -> H. rewrite H at 1. reflexivity. Qed.

#[export] Hint Resolve bits_frame_refl : inflate.

(** ** NEEDBITS *)

(** The number of valid bits after NEEDBITS(j) from [k]: whole bytes
    are added until [k >= j]. *)
Definition needbits_final (j k : Z) : Z :=
  if k <? j then k + 8 * ((j - k + 7) / 8) else k.

Section Needbits.
Variable w : Z.

(** What holds when NEEDBITS goes on: the bits were only moved from
    the input into the buffer, and [k] reached [needbits_final]. *)
Definition needbits_post (j : Z) (c0 c : ctx) : Prop :=
  bitbuf_ok w c /\ bits_frame c0 c /\ stream_bits c = stream_bits c0 /\
  bitk (cs c) = needbits_final j (bitk (cs c0)).

(** What holds when it leaves: the input ran out first. *)
Definition needbits_exit (j : Z) (c0 c : ctx) : Prop :=
  bitbuf_ok w c /\ bits_frame c0 c /\ stream_bits c = stream_bits c0 /\
  avail_in (cz c) = 0%nat /\ bitk (cs c) < j.

(** One turn of the loop: a byte is appended above the [k] bits. *)
Lemma needbits_turn (c : ctx) :
  bitbuf_ok w c -> bitk (cs c) + 8 <= w -> (0 < avail_in (cz c))%nat ->
  let x := nth (next_in (cz c)) (zin (cz c)) 0 in
  let c' := mk_ctx (set_bits (cs c)
                      (ulong w (Z.lor (bitb (cs c)) (Z.shiftl x (bitk (cs c)))))
                      (bitk (cs c) + 8))
                   (z_take_byte (cz c)) Z_OK in
  bitbuf_ok w c' /\ bits_frame c c' /\ stream_bits c' = stream_bits c.
Proof.
  intros [Hk [Hb Hin]] Hw Hn x c'.
  assert (Hx : 0 <= x < 256) by (apply input_byte_range; [exact Hin | destruct Hin; lia]).
  assert (Hacc := Z_acc_bound (bitb (cs c)) x (bitk (cs c)) ltac:(lia) Hb Hx).
  assert (Hpow : 2 ^ (bitk (cs c) + 8) <= 2 ^ w) by (apply Z.pow_le_mono_r; lia).
  assert (Hul : ulong w (Z.lor (bitb (cs c)) (Z.shiftl x (bitk (cs c))))
                = bitb (cs c) + x * 2 ^ bitk (cs c)).
  { unfold ulong. rewrite Z_lor_shiftl_add by lia. apply Z.mod_small. lia. }
  subst c'. rewrite Hul. split; [|split].
  - split; [simpl; lia|split; [simpl; lia|apply input_ok_take; auto]].
  - reflexivity.
  - unfold stream_bits; simpl. rewrite bits_of_acc by lia.
    rewrite (pending_input_take (cz c) Hin Hn). rewrite <- app_assoc. reflexivity.
Qed.

Lemma needbits_final_step (j k : Z) :
  k < j -> needbits_final j (k + 8) = needbits_final j k.
Proof.
  intros Hlt. unfold needbits_final.
  destruct (Z.ltb_spec (k + 8) j); destruct (Z.ltb_spec k j); try lia.
  - assert (Hq : (j - k + 7) / 8 = (j - (k + 8) + 7) / 8 + 1)
      by (rewrite <- Z.div_add by lia; f_equal; lia).
    lia.
  - assert ((j - k + 7) / 8 = 1) by (symmetry; apply Z.div_unique with (r := j - k - 1); lia).
    lia.
Qed.

Lemma needbits_final_ge (j k : Z) : k < j -> k + 8 <= needbits_final j k.
Proof.
  intros Hlt. unfold needbits_final. destruct (Z.ltb_spec k j); [|lia].
  assert (1 <= (j - k + 7) / 8) by (apply Z.div_le_lower_bound; lia). lia.
Qed.

(** NEEDBITS(j) stops with at least [j] bits, at most 7 more than
    needed. *)
Lemma needbits_final_bounds (j k : Z) :
  0 <= k -> j <= needbits_final j k <= Z.max k (j + 7).
Proof.
  intros Hk. unfold needbits_final. destruct (Z.ltb_spec k j); [|lia].
  assert (8 * ((j - k + 7) / 8) <= j - k + 7) by (apply Z.mul_div_le; lia).
  assert (j - k + 7 < 8 * ((j - k + 7) / 8) + 8)
    by (pose proof (Z.mod_pos_bound (j - k + 7) 8 ltac:(lia)); pose proof (Z.div_mod (j - k + 7) 8 ltac:(lia)); lia).
  lia.
Qed.

Lemma needbits_loop_spec (j : Z) (fuel : nat) (c : ctx) :
  bitbuf_ok w c -> needbits_final j (bitk (cs c)) <= w ->
  (j - bitk (cs c) + 7) / 8 <= Z.of_nat fuel ->
  match needbits_loop w fuel j c with
  | Cont _ c' => needbits_post j c c'
  | Exit c' => needbits_exit j c c'
  end.
Proof.
  revert c. induction fuel as [|fuel IH]; intros c Hok Hfin Hfuel.
  - simpl. unfold needbits_post, needbits_final in *.
    destruct (Z.ltb_spec (bitk (cs c)) j) as [Hlt|]; [|auto with inflate].
    assert (1 <= (j - bitk (cs c) + 7) / 8) by (apply Z.div_le_lower_bound; lia).
    lia.
  - simpl needbits_loop. unfold mbind at 1, mget.
    destruct (Z.ltb_spec (bitk (cs c)) j) as [Hlt|Hge].
    + pose proof (needbits_final_ge j _ Hlt).
      unfold NEEDBYTE, mbind.
      destruct (avail_in (cz c)) as [|a] eqn:Ea.
      { repeat split; auto with inflate; apply Hok. }
      destruct (needbits_turn c Hok ltac:(lia) ltac:(lia)) as [Hok' [Hfr Hst]].
      cbn -[ulong needbits_loop]. unfold upd_s, mmodify.
      match goal with |- context [needbits_loop w fuel j ?c'] => set (c1 := c') in * end.
      assert (Hk1 : bitk (cs c1) = bitk (cs c) + 8) by reflexivity.
      assert (Hf1 : needbits_final j (bitk (cs c1)) = needbits_final j (bitk (cs c)))
        by (rewrite Hk1; apply needbits_final_step, Hlt).
      assert (Hq : (j - bitk (cs c) + 7) / 8 = (j - bitk (cs c1) + 7) / 8 + 1)
        by (rewrite Hk1, <- Z.div_add by lia; f_equal; lia).
      specialize (IH c1 Hok' ltac:(lia) ltac:(lia)).
      destruct (needbits_loop w fuel j c1) as [u c2|c2].
      * destruct IH as [Hok2 [Hfr2 [Hst2 Hk2]]].
        refine (conj Hok2 (conj (bits_frame_trans _ _ _ Hfr Hfr2) (conj _ _))); congruence.
      * destruct IH as [Hok2 [Hfr2 [Hst2 Hex]]].
        refine (conj Hok2 (conj (bits_frame_trans _ _ _ Hfr Hfr2) (conj _ Hex))); congruence.
    + refine (conj Hok (conj (bits_frame_refl c) (conj eq_refl _))).
      unfold needbits_final. destruct (Z.ltb_spec (bitk (cs c)) j); lia.
Qed.

(** NEEDBITS(j) from a well-formed buffer, when the bytes it may load
    fit in an [unsigned long]: it goes on with at least [j] bits and
    the same bit stream, or leaves, having moved every input byte into
    the buffer. *)
Lemma NEEDBITS_spec (j : Z) (c : ctx) :
  bitbuf_ok w c -> needbits_final j (bitk (cs c)) <= w ->
  match NEEDBITS w j c with
  | Cont _ c' => needbits_post j c c'
  | Exit c' => needbits_exit j c c'
  end.
Proof.
  intros Hok Hfin. apply needbits_loop_spec; [exact Hok|exact Hfin|].
  destruct Hok as [Hk _].
  destruct (Z.le_gt_cases j 0).
  - assert ((j - bitk (cs c) + 7) / 8 < 1) by (apply Z.div_lt_upper_bound; lia). lia.
  - rewrite Z2Nat.id by lia. apply Z.div_le_upper_bound; lia.
Qed.
End Needbits.

(** ** DUMPBITS and reading the low bits *)

Lemma z_set_in_id (z : z_stream) : z_set_in z (next_in z) (avail_in z) (total_in z) = z.
Proof. destruct z. reflexivity. Qed.

(** The bit stream after dropping [j <= k] bits of the buffer. *)
Lemma stream_bits_dump (c : ctx) (j : Z) :
  0 <= j <= bitk (cs c) ->
  bits_of (Z.to_nat (bitk (cs c) - j)) (Z.shiftr (bitb (cs c)) j)
    ++ bytes_bits (pending_input (cz c))
  = drop (Z.to_nat j) (stream_bits c).
Proof.
  intros Hj. unfold stream_bits.
  rewrite drop_app_le by (rewrite length_bits_of; lia).
  rewrite drop_bits_of by lia. f_equal. f_equal; [lia|]. f_equal. lia.
Qed.

(** DUMPBITS(j) with [j <= k] drops exactly the first [j] bits of the
    bit stream and keeps the buffer well formed. *)
Lemma DUMPBITS_spec (w j : Z) (c : ctx) :
  bitbuf_ok w c -> 0 <= j <= bitk (cs c) ->
  exists c', DUMPBITS j c = Cont tt c' /\
    bitbuf_ok w c' /\ bits_frame c c' /\
    stream_bits c' = drop (Z.to_nat j) (stream_bits c) /\
    bitk (cs c') = bitk (cs c) - j.
Proof.
  intros [Hk [Hb Hin]] Hj. eexists. split; [reflexivity|].
  pose proof (Z_shiftr_bound (bitb (cs c)) (bitk (cs c)) j Hj Hb).
  split; [|split; [|split]].
  - split; [simpl; lia|split; [simpl; lia|exact Hin]].
  - unfold bits_frame. cbn [cs cz cr bitb bitk set_bits]. rewrite z_set_in_id. reflexivity.
  - rewrite <- stream_bits_dump by exact Hj. reflexivity.
  - reflexivity.
Qed.

(** The C reads the next [j] bits as [b & inflate_mask[j]]. *)
Lemma peek_bits (w j : Z) (c : ctx) :
  bitbuf_ok w c -> 0 <= j <= bitk (cs c) ->
  bits_of (Z.to_nat j) (Z.land (bitb (cs c)) (inflate_mask j))
  = take (Z.to_nat j) (stream_bits c).
Proof.
  intros _ Hj. unfold inflate_mask, stream_bits.
  rewrite Z.land_ones by lia.
  rewrite take_app_le by (rewrite length_bits_of; lia).
  rewrite take_bits_of by lia.
  symmetry. rewrite <- bits_of_mod, Z2Nat.id by lia. reflexivity.
Qed.

#[export] Instance input_ok_dec (z : z_stream) : Decision (input_ok z).
Proof. unfold input_ok. solve_decision. Defined.

#[export] Instance bitbuf_ok_dec (w : Z) (c : ctx) : Decision (bitbuf_ok w c).
Proof. unfold bitbuf_ok. solve_decision. Defined.

(** ** Values of bit sequences and NEEDBITS with enough input *)

(** The number a bit sequence spells, least significant bit first. *)
Fixpoint le_value (l : list bool) : Z :=
  match l with
  | [] => 0
  | x :: l' => Z.b2z x + 2 * le_value l'
  end.

Lemma le_value_bits_of (n : nat) (v : Z) : le_value (bits_of n v) = v mod 2 ^ Z.of_nat n.
Proof.
  revert v. induction n as [|n IH]; intros v.
  - simpl. rewrite Z.mod_1_r. reflexivity.
  - change (S n) with (1 + n)%nat. rewrite bits_of_app. simpl le_value.
    rewrite IH. change (Z.of_nat 1) with 1.
    replace (Z.of_nat (1 + n)) with (1 + Z.of_nat n) by lia.
    rewrite Z.pow_add_r, Z.rem_mul_r by lia.
    rewrite Z.shiftr_div_pow2, <- Z.bit0_mod by lia. simpl. lia.
Qed.

Lemma length_pending_input (z : z_stream) :
  input_ok z -> length (pending_input z) = avail_in z.
Proof.
  intros [Hl _]. unfold pending_input. rewrite length_take, length_drop. lia.
Qed.

Lemma length_bytes_bits (l : list Z) : length (bytes_bits l) = (8 * length l)%nat.
Proof.
  induction l as [|x l IH]; [reflexivity|].
  unfold bytes_bits in *. cbn [flat_map]. rewrite length_app, length_bits_of, IH. cbn [length]. lia.
Qed.

Lemma length_stream_bits (w : Z) (c : ctx) :
  bitbuf_ok w c ->
  length (stream_bits c) = (Z.to_nat (bitk (cs c)) + 8 * avail_in (cz c))%nat.
Proof.
  intros (_ & _ & Hin). unfold stream_bits.
  rewrite length_app, length_bits_of, length_bytes_bits, length_pending_input by exact Hin.
  reflexivity.
Qed.

(** When the input holds the bits asked for, NEEDBITS goes on. *)
Lemma NEEDBITS_enough (w j : Z) (c : ctx) :
  bitbuf_ok w c -> needbits_final j (bitk (cs c)) <= w ->
  j <= bitk (cs c) + 8 * Z.of_nat (avail_in (cz c)) ->
  exists c', NEEDBITS w j c = Cont tt c' /\ needbits_post w j c c'.
Proof.
  intros Hok Hfin Hj. pose proof (NEEDBITS_spec w j c Hok Hfin) as H.
  destruct (NEEDBITS w j c) as [[] c'|c'].
  - eauto.
  - destruct H as (Hok' & _ & Hst & Ha & Hk).
    pose proof (length_stream_bits w c Hok) as L1.
    pose proof (length_stream_bits w c' Hok') as L2.
    rewrite Hst in L2. rewrite Ha in L2. destruct Hok as [Hk0 _]. destruct Hok' as [Hk1 _]. lia.
Qed.

(** Two little-endian fields of the next bits: after NEEDBITS(n1 + n2),
    the low [n1] bits of [b] are the first field and the bits above are
    the second. *)
Lemma le_value_take_low (b : Z) (n1 n2 : nat) (rest : list bool) :
  le_value (take n1 (bits_of (n1 + n2) b ++ rest)) = b mod 2 ^ Z.of_nat n1.
Proof.
  rewrite take_app_le by (rewrite length_bits_of; lia).
  rewrite take_bits_of by lia. apply le_value_bits_of.
Qed.

Lemma le_value_take_high (b : Z) (n1 n2 : nat) (rest : list bool) :
  0 <= b < 2 ^ Z.of_nat (n1 + n2) ->
  le_value (take n2 (drop n1 (bits_of (n1 + n2) b ++ rest))) = Z.shiftr b (Z.of_nat n1).
Proof.
  intros Hb.
  rewrite drop_app_le by (rewrite length_bits_of; lia).
  rewrite take_app_le by (rewrite length_drop, length_bits_of; lia).
  rewrite drop_bits_of by lia.
  replace (n1 + n2 - n1)%nat with n2 by lia.
  rewrite take_bits_of by lia.
  rewrite le_value_bits_of, Z.shiftr_div_pow2 by lia.
  apply Z.mod_small. split; [apply Z.div_pos; lia|].
  apply Z.div_lt_upper_bound; [apply Z.pow_pos_nonneg; lia|].
  rewrite <- Z.pow_add_r by lia. rewrite <- Nat2Z.inj_add. lia.
Qed.

Lemma le_value_split (b : Z) (n1 n2 : nat) (rest : list bool) :
  0 <= b < 2 ^ Z.of_nat (n1 + n2) ->
  le_value (take n1 (bits_of (n1 + n2) b ++ rest))
  + le_value (take n2 (drop n1 (bits_of (n1 + n2) b ++ rest))) * 2 ^ Z.of_nat n1 = b.
Proof.
  intros Hb. rewrite le_value_take_low, le_value_take_high, Z.shiftr_div_pow2 by lia.
  pose proof (Z.div_mod b (2 ^ Z.of_nat n1) ltac:(apply Z.pow_nonzero; lia)). lia.
Qed.

(** NEEDBITS(n) from a buffer whose bits are a whole number of bytes
    fills it to exactly [n] bits when [n] is a multiple of 8. *)
Lemma needbits_final_bytes (n k : Z) :
  0 <= k <= n -> k mod 8 = 0 -> n mod 8 = 0 -> needbits_final n k = n.
Proof.
  intros Hk Hk8 Hn8. unfold needbits_final.
  destruct (Z.ltb_spec k n); [|lia].
  assert (Hm : (n - k) mod 8 = 0) by (rewrite Zminus_mod, Hk8, Hn8; reflexivity).
  assert (Hq : n - k = 8 * ((n - k) / 8)) by (apply Z.div_exact; [lia|exact Hm]).
  assert (Hd : (n - k + 7) / 8 = (n - k) / 8)
    by (symmetry; apply Z.div_unique with (r := 7); lia).
  rewrite Hd. lia.
Qed.

(** NEXTBYTE with input left: the first pending byte, which is a byte,
    and the input cursor moved past it. *)
Lemma NEXTBYTE_spec (c : ctx) :
  input_ok (cz c) -> (0 < avail_in (cz c))%nat ->
  exists x, NEXTBYTE c = Cont x (mk_ctx (cs c) (z_take_byte (cz c)) (cr c)) /\
    pending_input (cz c) = x :: pending_input (z_take_byte (cz c)) /\
    0 <= x < 256 /\ input_ok (z_take_byte (cz c)).
Proof.
  intros Hin Hn. exists (nth (next_in (cz c)) (zin (cz c)) 0).
  refine (conj eq_refl (conj (pending_input_take _ Hin Hn) (conj _ (input_ok_take _ Hin Hn)))).
  apply input_byte_range; [exact Hin|]. destruct Hin; lia.
Qed.

Lemma le_value_bound (l : list bool) : 0 <= le_value l < 2 ^ Z.of_nat (length l).
Proof.
  induction l as [|x l IH]; simpl; [lia|].
  rewrite Nat2Z.inj_succ, Z.pow_succ_r by lia. destruct x; simpl; lia.
Qed.

(** The C reads the next [j] bits as the number [b & inflate_mask[j]]. *)
Lemma peek_value (w j : Z) (c : ctx) :
  bitbuf_ok w c -> 0 <= j <= bitk (cs c) ->
  Z.land (bitb (cs c)) (inflate_mask j) = le_value (take (Z.to_nat j) (stream_bits c)).
Proof.
  intros Hok Hj. rewrite <- (peek_bits w j c Hok Hj), le_value_bits_of, Z2Nat.id by lia.
  unfold inflate_mask. rewrite Z.land_ones by lia. rewrite Z.mod_mod by (apply Z.pow_nonzero; lia).
  reflexivity.
Qed.

(** The three header bits: BFINAL first, then BTYPE. *)
Lemma header_bits (S : list bool) :
  (3 <= length S)%nat ->
  (Z.land (le_value (take 3 S)) 1 =? 1) = nth 0 S false /\
  Z.shiftr (le_value (take 3 S)) 1 = le_value (take 2 (drop 1 S)).
Proof.
  intros Hl. destruct S as [|a [|b [|c S]]]; simpl in Hl; try lia.
  destruct a, b, c; split; reflexivity.
Qed.

(** The message and the allocator are not part of the bit stream. *)
Lemma heap_frame_bits (s : indep) (z z' : z_stream) (r r' : status) :
  heap_frame z z' ->
  stream_bits (mk_ctx s z' r') = stream_bits (mk_ctx s z r) /\ input_ok z' = input_ok z /\
  avail_in z' = avail_in z.
Proof. intros ->. destruct z. repeat split. Qed.

(** Bit [i] of the value of a bit sequence is its [i]-th element. *)
Lemma testbit_le_value (l : list bool) (i : nat) :
  Z.testbit (le_value l) (Z.of_nat i) = nth i l false.
Proof.
  revert i. induction l as [|x l IH]; intros i; [destruct i; reflexivity|].
  cbn [le_value]. destruct i as [|i].
  - apply Z.add_b2z_double_bit0.
  - rewrite Nat2Z.inj_succ, Z.add_comm, Z.testbit_succ_r by lia. apply IH.
Qed.

(** A field of [n] bits at offset [a] of a bit sequence, as the C
    extracts it from a number: [(t >> a) & mask]. *)
Lemma le_value_field (l : list bool) (a n : nat) :
  Z.land (Z.shiftr (le_value l) (Z.of_nat a)) (Z.ones (Z.of_nat n))
  = le_value (take n (drop a l)).
Proof.
  apply Z.bits_inj'. intros i Hi.
  rewrite <- (Z2Nat.id i Hi), testbit_le_value, Z.land_spec, Z.shiftr_spec by lia.
  rewrite <- Nat2Z.inj_add, testbit_le_value, nth_firstn, nth_skipn.
  destruct (Nat.ltb_spec (Z.to_nat i) n) as [Hlt|Hge].
  - rewrite Z.ones_spec_low by lia. rewrite andb_true_r, Nat.add_comm. reflexivity.
  - rewrite Z.ones_spec_high by lia. apply andb_false_r.
Qed.

Lemma le_value_low (l : list bool) (n : nat) :
  Z.land (le_value l) (Z.ones (Z.of_nat n)) = le_value (take n l).
Proof. pose proof (le_value_field l 0 n) as H. rewrite Z.shiftr_0_r in H. exact H. Qed.

Lemma bits_frame_heap (c c' : ctx) :
  bits_frame c c' -> zroom (cz c') = zroom (cz c) /\ zlive (cz c') = zlive (cz c).
Proof. intros ->. split; reflexivity. Qed.

(** NEEDBITS(j) by the length of the bit stream: it leaves, having
    moved all the input into the buffer, exactly when the stream is
    shorter than [j] bits. *)
Lemma NEEDBITS_cases (w j : Z) (c : ctx) :
  bitbuf_ok w c -> needbits_final j (bitk (cs c)) <= w ->
  (Z.of_nat (length (stream_bits c)) < j /\
   exists c', NEEDBITS w j c = Exit c' /\ bitbuf_ok w c' /\ bits_frame c c' /\
              stream_bits c' = stream_bits c /\ avail_in (cz c') = 0%nat) \/
  (j <= Z.of_nat (length (stream_bits c)) /\
   exists c', NEEDBITS w j c = Cont tt c' /\ needbits_post w j c c').
Proof.
  intros Hok Hfin. pose proof (NEEDBITS_spec w j c Hok Hfin) as H.
  pose proof (length_stream_bits w c Hok) as L.
  destruct (NEEDBITS w j c) as [[] c'|c'] eqn:E.
  - right. destruct H as (Hok' & Hfr & Hs & Hk).
    pose proof (length_stream_bits w c' Hok') as L'. rewrite Hs in L'.
    pose proof (needbits_final_bounds j (bitk (cs c)) ltac:(apply Hok)).
    split; [|exists c'; exact (conj eq_refl (conj Hok' (conj Hfr (conj Hs Hk))))].
    destruct Hok' as [Hk' _]. lia.
  - left. destruct H as (Hok' & Hfr & Hs & Ha & Hk).
    pose proof (length_stream_bits w c' Hok') as L'. rewrite Hs, Ha in L'.
    split; [destruct Hok' as [Hk' _]; lia|].
    exists c'. exact (conj eq_refl (conj Hok' (conj Hfr (conj Hs Ha)))).
Qed.

(** The idiom [NEEDBITS(t + i) DUMPBITS(t) v = b & inflate_mask[i];
    DUMPBITS(i)]: skip [t] bits and read the [i]-bit field after them,
    or leave, with all the input in the buffer, when the stream is
    shorter than [t + i] bits. *)
Lemma NEEDBITS_skip_field (w t i : Z) (c : ctx) :
  bitbuf_ok w c -> 0 <= t -> 0 <= i -> t + i + 7 <= w ->
  (Z.of_nat (length (stream_bits c)) < t + i /\
   exists c', NEEDBITS w (t + i) c = Exit c' /\ bitbuf_ok w c' /\ bits_frame c c' /\
              stream_bits c' = stream_bits c /\ avail_in (cz c') = 0%nat) \/
  (t + i <= Z.of_nat (length (stream_bits c)) /\
   exists c2 c3 c4, NEEDBITS w (t + i) c = Cont tt c2 /\ DUMPBITS t c2 = Cont tt c3 /\
     Z.land (bitb (cs c3)) (inflate_mask i) = le_value (take (Z.to_nat i) (drop (Z.to_nat t) (stream_bits c))) /\
     DUMPBITS i c3 = Cont tt c4 /\ bitbuf_ok w c4 /\ bits_frame c c4 /\
     stream_bits c4 = drop (Z.to_nat (t + i)) (stream_bits c)).
Proof.
  intros Hok Ht Hi Hw. pose proof (needbits_final_bounds (t + i) _ (proj1 (proj1 Hok))) as Hfb.
  assert (Hf : needbits_final (t + i) (bitk (cs c)) <= w) by (pose proof (proj1 Hok); lia).
  destruct (NEEDBITS_cases w (t + i) c Hok Hf) as [Hex | [Hlong (c2 & E2 & Hok2 & Hfr2 & Hs2 & Hk2)]].
  { left. exact Hex. }
  right. split; [exact Hlong|].
  assert (Ht2 : 0 <= t <= bitk (cs c2)) by lia.
  destruct (DUMPBITS_spec w t c2 Hok2 Ht2) as (c3 & E3 & Hok3 & Hfr3 & Hs3 & Hk3).
  assert (Hi3 : 0 <= i <= bitk (cs c3)) by lia.
  destruct (DUMPBITS_spec w i c3 Hok3 Hi3) as (c4 & E4 & Hok4 & Hfr4 & Hs4 & _).
  exists c2, c3, c4. refine (conj E2 (conj E3 (conj _ (conj E4 (conj Hok4 (conj _ _)))))).
  - rewrite (peek_value w i c3 Hok3 Hi3), Hs3, Hs2. reflexivity.
  - eauto using bits_frame_trans.
  - rewrite Hs4, Hs3, Hs2, drop_drop, Z2Nat.inj_add by lia. f_equal; lia.
Qed.

(** ** Bytes on the bit stream *)

Lemma le_value_app (l1 l2 : list bool) :
  le_value (l1 ++ l2) = le_value l1 + 2 ^ Z.of_nat (length l1) * le_value l2.
Proof.
  induction l1 as [|x l1 IH]; cbn [app le_value length]; [lia|].
  rewrite IH, Nat2Z.inj_succ, Z.pow_succ_r by lia. lia.
Qed.

Lemma le_value_byte (a : Z) : 0 <= a < 256 -> le_value (bits_of 8 a) = a.
Proof. intros Ha. rewrite le_value_bits_of. apply Z.mod_small. exact Ha. Qed.

(** Two bytes read as a 16-bit field, the first one low. *)
Lemma le_value_bytes2 (a b : Z) (l : list Z) :
  0 <= a < 256 -> 0 <= b < 256 -> le_value (take 16 (bytes_bits (a :: b :: l))) = a + 256 * b.
Proof.
  intros Ha Hb. cbn [bytes_bits flat_map]. rewrite app_assoc.
  rewrite take_app_length' by (rewrite length_app, !length_bits_of; reflexivity).
  rewrite le_value_app, length_bits_of, !le_value_byte by assumption. reflexivity.
Qed.

Lemma bytes_bits_app (l1 l2 : list Z) : bytes_bits (l1 ++ l2) = bytes_bits l1 ++ bytes_bits l2.
Proof. apply flat_map_app. Qed.

(** A list of bytes is determined by its bits. *)
Lemma bytes_bits_inj (l1 l2 : list Z) :
  Forall (fun x => 0 <= x < 256) l1 -> Forall (fun x => 0 <= x < 256) l2 ->
  bytes_bits l1 = bytes_bits l2 -> l1 = l2.
Proof.
  intros H1. revert l2. induction H1 as [|a l1 Ha _ IH]; intros l2 H2 E;
    destruct H2 as [|b l2 Hb H2]; cbn [bytes_bits flat_map] in E; try reflexivity.
  - apply (f_equal (@length bool)) in E. rewrite length_app, length_bits_of in E. discriminate.
  - apply (f_equal (@length bool)) in E. rewrite length_app, length_bits_of in E. discriminate.
  - apply app_inj_1 in E as [Eab E]; [|rewrite !length_bits_of; reflexivity].
    apply (f_equal le_value) in Eab. rewrite !le_value_byte in Eab by assumption.
    subst b. f_equal. exact (IH l2 H2 E).
Qed.

(** The unread input of a well-formed stream holds bytes. *)
Lemma pending_input_bytes (z : z_stream) :
  input_ok z -> Forall (fun x => 0 <= x < 256) (pending_input z).
Proof. intros [_ Hf]. unfold pending_input. apply Forall_take, Forall_drop, Hf. Qed.
