(* ===== verification/Window.v ===== *)
(** * The sliding window: WAVAIL, WRAP, OUTBYTE, NEEDOUT, FLUSH
      ([infutil.h]) and [inflate_flush] ([infutil.c])

    The window is a circular buffer of [wend] bytes.  The bytes not yet
    delivered to the caller are those from [read] up to [write], going
    round the end when [write < read]; they are the abstract state
    [pending], a FIFO queue.  The theorems show that the circular buffer
    implements the queue: OUTBYTE, allowed when WAVAIL is positive,
    appends one byte; WRAP changes nothing of it; [inflate_flush] takes
    the first [avail_out] bytes off it, gives them to the caller in
    order and folds the check function over exactly them. *)

From Stdlib Require Import ZArith Lia List.
From stdpp Require Import base list.
From S2P Require Import Prelude Zlib.

(** ** Slices of a list *)

(** The elements at positions [a] to [b - 1]. *)
Definition slice (l : list Z) (a b : nat) : list Z := take (b - a) (drop a l).

Lemma length_slice (l : list Z) (a b : nat) :
  (a <= b <= length l)%nat -> length (slice l a b) = (b - a)%nat.
Proof. intros. unfold slice. rewrite length_take, length_drop. lia. Qed.

Lemma lookup_slice (l : list Z) (a b i : nat) :
  (i < b - a)%nat -> slice l a b !! i = l !! (a + i)%nat.
Proof. intros. unfold slice. rewrite lookup_take_lt by lia. apply lookup_drop. Qed.

Lemma slice_app (l : list Z) (a b c : nat) :
  (a <= b <= c)%nat -> (c <= length l)%nat ->
  slice l a c = slice l a b ++ slice l b c.
Proof.
  intros Hab Hc. apply list_eq. intros i.
  destruct (decide (i < b - a)%nat).
  - rewrite lookup_app_l by (rewrite length_slice; lia).
    rewrite !lookup_slice by lia. reflexivity.
  - rewrite lookup_app_r by (rewrite length_slice; lia).
    rewrite length_slice by lia.
    destruct (decide (i < c - a)%nat).
    + rewrite !lookup_slice by lia. f_equal. lia.
    + unfold slice. rewrite !lookup_take_ge by lia. reflexivity.
Qed.

Lemma slice_insert_out (l : list Z) (a b i : nat) (x : Z) :
  (i < a \/ b <= i)%nat -> slice (<[i := x]> l) a b = slice l a b.
Proof.
  intros Hi. apply list_eq. intros j.
  destruct (decide (j < b - a)%nat).
  - rewrite !lookup_slice by lia. apply list_lookup_insert_ne. lia.
  - unfold slice. rewrite !lookup_take_ge by lia. reflexivity.
Qed.

Lemma slice_insert_snoc (l : list Z) (a i : nat) (x : Z) :
  (a <= i < length l)%nat -> slice (<[i := x]> l) a (S i) = slice l a i ++ [x].
Proof.
  intros Hi. rewrite (slice_app _ a i (S i)) by (rewrite ?length_insert; lia).
  rewrite slice_insert_out by lia. f_equal.
  unfold slice. replace (S i - i)%nat with 1%nat by lia.
  rewrite (drop_S _ x) by (apply list_lookup_insert_eq; lia). reflexivity.
Qed.

Lemma slice_nil (l : list Z) (a : nat) : slice l a a = [].
Proof. unfold slice. rewrite Nat.sub_diag. reflexivity. Qed.

(** ** The macros and [inflate_flush] *)

(** [#define WAVAIL (q<s->read?s->read-q-1:s->end-q)], with [q] the
    write pointer: the bytes that may be written before the next flush
    boundary. *)
Definition WAVAIL (s : indep) : nat :=
  if decide (write s < read s)%nat then (read s - write s - 1)%nat
  else (wend s - write s)%nat.

(** [#define WRAP {if(q==s->end&&s->read!=s->window){q=s->window;m=WAVAIL;}}] *)
Definition WRAP : M ctx unit :=
  upd_s (fun s => if decide (write s = wend s /\ read s <> 0%nat)
                  then set_write s 0 else s).

(** [#define OUTBYTE(a) {*q++=(Byte)(a);m--;}] *)
Definition OUTBYTE (a : Z) : M ctx unit :=
  upd_s (fun s => set_window s (<[write s := Z.land a 255]> (window s)) (S (write s))).

(** [if (n && r == Z_BUF_ERROR) r = Z_OK;] *)
Definition flush_status (n : nat) (r : status) : status :=
  match n, r with S _, Z_BUF_ERROR => Z_OK | _, _ => r end.

(** [if (s->checkfn != Z_NULL) s->check = ( *s->checkfn)(s->check, q, n);] *)
Definition run_check (s : indep) (bs : list Z) : Z :=
  match checkfn s with Some f => f (check s) bs | None => check s end.

(** One copy of [inflate_flush]: the [n] bytes of the window at [q] go
    to the caller, with the status, the counters and the check value
    updated as the C does around its [zmemcpy]. *)
Definition flush_copy (q n : nat) (c : ctx) : ctx :=
  let bs := slice (window (cs c)) q (q + n) in
  mk_ctx (set_check (cs c) (run_check (cs c) bs)) (z_emit (cz c) n bs)
    (flush_status n (cr c)).

(** [int inflate_flush(s, z, r)]: copy as far as the end of the window,
    then, if the copy reached the end, wrap the pointers and copy from
    the start of the window up to [write]. *)
Definition inflate_flush (c : ctx) : ctx :=
  let s := cs c in
  let q := read s in
  let n := Nat.min ((if decide (q <= write s)%nat then write s else wend s) - q)
                   (avail_out (cz c)) in
  let c1 := flush_copy q n c in
  let q1 := (q + n)%nat in
  if decide (q1 = wend s) then
    let s1 := cs c1 in
    let s2 := if decide (write s1 = wend s1) then set_write s1 0 else s1 in
    let n2 := Nat.min (write s2) (avail_out (cz c1)) in
    let c2 := flush_copy 0 n2 (mk_ctx s2 (cz c1) (cr c1)) in
    mk_ctx (set_read (cs c2) n2) (cz c2) (cr c2)
  else mk_ctx (set_read (cs c1) q1) (cz c1) (cr c1).

(** [#define FLUSH {UPDOUT r=inflate_flush(s,z,r); LOADOUT}] *)
Definition FLUSH : M ctx unit := mmodify inflate_flush.

(** [#define NEEDOUT {if(m==0){WRAP if(m==0){FLUSH WRAP if(m==0) LEAVE}}r=Z_OK;}]
    with [m] the WAVAIL of the current pointers. *)
Definition NEEDOUT : M ctx unit :=
  c <- mget ;;
  (if decide (WAVAIL (cs c) = 0%nat) then
     WRAP ;;
     c <- mget ;;
     if decide (WAVAIL (cs c) = 0%nat) then
       FLUSH ;; WRAP ;;
       c <- mget ;;
       if decide (WAVAIL (cs c) = 0%nat) then leave else mret tt
     else mret tt
   else mret tt) ;;
  set_r Z_OK.

(** ** The FIFO abstraction *)

(** The bytes written to the window and not yet delivered. *)
Definition pending (s : indep) : list Z :=
  if decide (read s <= write s)%nat then slice (window s) (read s) (write s)
  else slice (window s) (read s) (wend s) ++ slice (window s) 0 (write s).

(** The window is well formed: [wend] is its size, the read pointer is
    inside it and the write pointer inside it or at its end. *)
Definition window_ok (s : indep) : Prop :=
  (0 < wend s)%nat /\ length (window s) = wend s /\
  (read s < wend s)%nat /\ (write s <= wend s)%nat.

#[export] Instance window_ok_dec (s : indep) : Decision (window_ok s).
Proof. unfold window_ok. solve_decision. Defined.

Lemma take_slice (l : list Z) (a b m : nat) :
  (m <= b - a)%nat -> take m (slice l a b) = slice l a (a + m).
Proof. intros. unfold slice. rewrite take_take. f_equal. lia. Qed.

Lemma drop_slice (l : list Z) (a b m : nat) :
  drop m (slice l a b) = slice l (a + m) b.
Proof.
  unfold slice. rewrite skipn_firstn_comm, drop_drop. f_equal. lia.
Qed.

(** ** OUTBYTE and WRAP against the FIFO *)

(** The window after [*q++ = a]. *)
Definition outbyte_s (a : Z) (s : indep) : indep :=
  set_window s (<[write s := Z.land a 255]> (window s)) (S (write s)).

Lemma OUTBYTE_eq (a : Z) (c : ctx) :
  OUTBYTE a c = Cont tt (mk_ctx (outbyte_s a (cs c)) (cz c) (cr c)).
Proof. reflexivity. Qed.

(** OUTBYTE, when WAVAIL is positive, appends the byte to the pending
    bytes, keeps the window well formed, and decreases WAVAIL by one:
    the C's [m--] keeps [m] equal to WAVAIL. *)
Lemma outbyte_pending (a : Z) (s : indep) :
  window_ok s -> (0 < WAVAIL s)%nat ->
  pending (outbyte_s a s) = pending s ++ [Z.land a 255] /\
  window_ok (outbyte_s a s) /\
  WAVAIL (outbyte_s a s) = (WAVAIL s - 1)%nat.
Proof.
  intros (Hw & Hlen & Hr & Hq) Hm. unfold WAVAIL, pending, outbyte_s in *.
  destruct s as [k b win e rd wr cf ch]; simpl in *.
  assert (Hwr : (wr < e)%nat) by (case_decide; lia).
  split; [|split; [unfold window_ok; simpl; rewrite length_insert; lia|]].
  - repeat case_decide; try lia.
    + rewrite (slice_insert_out win rd e wr), slice_insert_snoc, app_assoc by lia. reflexivity.
    + rewrite slice_insert_snoc by lia. reflexivity.
  - repeat case_decide; lia.
Qed.

Definition wrap_s (s : indep) : indep :=
  if decide (write s = wend s /\ read s <> 0%nat) then set_write s 0 else s.

Lemma WRAP_eq (c : ctx) : WRAP c = Cont tt (mk_ctx (wrap_s (cs c)) (cz c) (cr c)).
Proof. reflexivity. Qed.

(** WRAP moves the write pointer to the start of the window without
    changing the pending bytes. *)
Lemma wrap_pending (s : indep) :
  window_ok s -> pending (wrap_s s) = pending s /\ window_ok (wrap_s s).
Proof.
  intros (Hw & Hlen & Hr & Hq). unfold wrap_s.
  case_decide as Hc; [|split; [reflexivity|repeat split; auto]].
  destruct Hc as [He Hr0]. unfold pending, set_write; simpl.
  split; [|repeat split; simpl; lia].
  repeat case_decide; try lia. rewrite slice_nil, app_nil_r, He. reflexivity.
Qed.

(** ** [inflate_flush] against the FIFO *)

Lemma slice_empty (l : list Z) (a b : nat) : (b <= a)%nat -> slice l a b = [].
Proof. intros. unfold slice. replace (b - a)%nat with 0%nat by lia. reflexivity. Qed.

Ltac slice_simpl :=
  repeat match goal with
  | |- context [slice ?l ?a ?b] =>
      rewrite (slice_empty l a b) by lia
  end.

Lemma slice_idx (l : list Z) (a b a' b' : nat) : a = a' -> b = b' -> slice l a b = slice l a' b'.
Proof. intros -> ->. reflexivity. Qed.

Lemma slice_from (l : list Z) (a a' b : nat) :
  a = a' \/ (b <= a /\ b <= a')%nat -> slice l a b = slice l a' b.
Proof. intros [->|[]]; [reflexivity|rewrite !slice_empty by lia; reflexivity]. Qed.

Lemma take_slice_min (l : list Z) (a b m : nat) :
  take m (slice l a b) = slice l a (a + Nat.min (b - a) m).
Proof. unfold slice. rewrite take_take. f_equal. lia. Qed.

Lemma inflate_flush_fifo (c : ctx) :
  window_ok (cs c) ->
  let P := pending (cs c) in
  let A := avail_out (cz c) in
  window_ok (cs (inflate_flush c)) /\
  pending (cs (inflate_flush c)) = drop A P /\
  next_out (cz (inflate_flush c)) = next_out (cz c) ++ take A P /\
  avail_out (cz (inflate_flush c)) = (A - length (take A P))%nat /\
  total_out (cz (inflate_flush c)) = (total_out (cz c) + length (take A P))%nat.
Proof.
  destruct c as [[k b win e rd wr cf ch] z r]. intros (Hw & Hlen & Hr & Hq) P A.
  subst P A. unfold inflate_flush, flush_copy, pending, window_ok in *; simpl in *.
  repeat case_decide; simpl in *; try lia.
  all: rewrite ?take_app, ?drop_app, ?take_slice_min, ?drop_slice, ?length_app.
  all: rewrite ?length_slice by lia.
  all: rewrite ?take_slice_min, ?drop_slice, ?length_slice by lia.
  all: repeat split; try lia.
  all: slice_simpl; rewrite ?app_nil_r, ?app_nil_l, <- ?app_assoc; try reflexivity.
  all: try (apply slice_idx; lia).
  all: try (f_equal; apply slice_idx; lia).
  all: try (f_equal; f_equal; apply slice_idx; lia).
  all: apply slice_from; lia.
Qed.

(** ** What [inflate_flush] changes, and the check value *)

(** [out_frame c c']: [c'] is [c] with only the window pointers, the
    check value, the output cursor and the status changed. *)
Definition out_frame (c c' : ctx) : Prop :=
  cs c' = set_check (set_read (set_write (cs c) (write (cs c'))) (read (cs c'))) (check (cs c')) /\
  cz c' = z_set_out (cz c) (next_out (cz c')) (avail_out (cz c')) (total_out (cz c')).

Lemma out_frame_refl (c : ctx) : out_frame c c.
Proof. destruct c as [[] [] r]. split; reflexivity. Qed.

Lemma out_frame_trans (c1 c2 c3 : ctx) : out_frame c1 c2 -> out_frame c2 c3 -> out_frame c1 c3.
Proof.
  intros [H1 H2] [H3 H4]. split.
  - rewrite H3, H1. reflexivity.
  - rewrite H4, H2. reflexivity.
Qed.

#[export] Hint Resolve out_frame_refl : inflate.

(** A check function that can be applied piecewise: the C calls it once
    per contiguous part of the window (Adler-32 and CRC-32 are such). *)
Definition check_seq (f : check_func) : Prop :=
  (forall c, f c [] = c) /\ (forall c a b, f (f c a) b = f c (a ++ b)).

Lemma flush_status_add (n1 n2 : nat) (r : status) :
  flush_status n2 (flush_status n1 r) = flush_status (n1 + n2) r.
Proof. destruct n1, n2, r; reflexivity. Qed.

Lemma flush_copy_frame (q n : nat) (c : ctx) : out_frame c (flush_copy q n c).
Proof. destruct c as [[] [] r]. split; reflexivity. Qed.

(** [inflate_flush] is at most two copies: it delivers [d1] then [d2],
    runs the check function on each, and sets the status from the
    total. *)
Lemma inflate_flush_split (c : ctx) :
  window_ok (cs c) ->
  exists d1 d2,
    out_frame c (inflate_flush c) /\
    next_out (cz (inflate_flush c)) = next_out (cz c) ++ d1 ++ d2 /\
    cr (inflate_flush c) = flush_status (length (d1 ++ d2)) (cr c) /\
    (forall f, checkfn (cs c) = Some f -> check_seq f ->
       check (cs (inflate_flush c)) = f (check (cs c)) (d1 ++ d2)) /\
    (checkfn (cs c) = None -> check (cs (inflate_flush c)) = check (cs c)).
Proof.
  destruct c as [[k b win e rd wr cf ch] z r]. intros (Hw & Hlen & Hr & Hq).
  cbn [cs wend window read write] in Hw, Hlen, Hr, Hq.
  unfold inflate_flush. cbn [cs cz cr read write wend window].
  set (n1 := Nat.min _ _).
  assert (Hn1 : (rd + n1 <= e)%nat) by (subst n1; case_decide; lia).
  case_decide as Hend.
  - set (s1 := cs (flush_copy rd n1 _)).
    set (s2 := if decide (write s1 = wend s1) then set_write s1 0 else s1).
    assert (Hs2 : window s2 = win /\ checkfn s2 = cf /\ check s2 = check s1 /\ (write s2 <= e)%nat)
      by (subst s2 s1; case_decide; simpl; repeat split; try reflexivity; lia).
    destruct Hs2 as (Hw2 & Hf2 & Hc2 & Hq2).
    set (n2 := Nat.min (write s2) _).
    exists (slice win rd (rd + n1)), (slice win 0 (0 + n2)).
    split; [|split; [|split; [|split]]].
    + split; [|reflexivity]. subst s2 s1; case_decide; reflexivity.
    + simpl. rewrite Hw2, <- app_assoc. reflexivity.
    + simpl. rewrite flush_status_add, length_app, !length_slice by lia. f_equal. lia.
    + intros f Hf [_ Hseq]. simpl in Hf.
      cbn [cs flush_copy set_read check run_check set_check]. unfold run_check at 1.
      rewrite Hf2, Hc2, Hw2, Hf. unfold s1. simpl. rewrite Hf. apply Hseq.
    + intros Hf. simpl in Hf. cbn [cs flush_copy set_read check run_check set_check].
      unfold run_check at 1. rewrite Hf2, Hc2, Hf. unfold s1. simpl. rewrite Hf. reflexivity.
  - exists (slice win rd (rd + n1)), [].
    split; [|split; [|split; [|split]]].
    + split; reflexivity.
    + simpl. rewrite app_nil_r. reflexivity.
    + simpl. rewrite app_nil_r, length_slice by lia. f_equal. lia.
    + intros f Hf _. simpl in Hf. simpl. rewrite Hf, app_nil_r. reflexivity.
    + intros Hf. simpl in Hf. simpl. rewrite Hf. reflexivity.
Qed.

(** Everything produced so far: what the caller has, then what waits in
    the window. *)
Definition out_stream (c : ctx) : list Z := next_out (cz c) ++ pending (cs c).

(** The check value is the check function run over all the bytes the
    caller has received, from its initial value [f 0 []]. *)
Definition check_inv (c : ctx) : Prop :=
  forall f, checkfn (cs c) = Some f -> check_seq f ->
  check (cs c) = f (f 0%Z []) (next_out (cz c)).

(** [inflate_flush] hands the caller the first [avail_out] pending bytes,
    in order, and no more; the window keeps the rest; the check
    function runs over exactly the bytes handed over; the status
    becomes [Z_OK] when something was copied and it was [Z_BUF_ERROR]. *)
Theorem inflate_flush_correct (c : ctx) :
  window_ok (cs c) ->
  let d := take (avail_out (cz c)) (pending (cs c)) in
  let c' := inflate_flush c in
  window_ok (cs c') /\ out_frame c c' /\
  next_out (cz c') = next_out (cz c) ++ d /\
  pending (cs c) = d ++ pending (cs c') /\
  avail_out (cz c') = (avail_out (cz c) - length d)%nat /\
  cr c' = flush_status (length d) (cr c) /\
  (forall f, checkfn (cs c) = Some f -> check_seq f ->
     check (cs c') = f (check (cs c)) d).
Proof.
  intros Hok. cbv zeta.
  destruct (inflate_flush_fifo c Hok) as (Hok' & Hpend & Hout & Havail & _).
  destruct (inflate_flush_split c Hok) as (d1 & d2 & Hfr & Hout' & Hr & Hchk & _).
  assert (Hd : d1 ++ d2 = take (avail_out (cz c)) (pending (cs c))).
  { apply (app_inv_head (next_out (cz c))). rewrite <- Hout', <- Hout. reflexivity. }
  rewrite Hd in Hr, Hchk.
  refine (conj Hok' (conj Hfr (conj Hout (conj _ (conj Havail (conj Hr Hchk)))))).
  rewrite Hpend. symmetry. apply take_drop.
Qed.

Lemma flush_out_stream (c : ctx) :
  window_ok (cs c) -> out_stream (inflate_flush c) = out_stream c.
Proof.
  intros Hok. destruct (inflate_flush_correct c Hok) as (_ & _ & Hout & Hp & _).
  unfold out_stream. rewrite Hout, <- app_assoc, <- Hp. reflexivity.
Qed.

Lemma flush_check_inv (c : ctx) :
  window_ok (cs c) -> check_inv c -> check_inv (inflate_flush c).
Proof.
  intros Hok Hinv f Hf Hseq.
  destruct (inflate_flush_correct c Hok) as (_ & [Hfr _] & Hout & _ & _ & _ & Hchk).
  assert (Hf0 : checkfn (cs c) = Some f) by (rewrite Hfr in Hf; exact Hf).
  rewrite (Hchk f Hf0 Hseq), Hout, (Hinv f Hf0 Hseq). apply Hseq.
Qed.

(** With nothing pending, there is room to write. *)
Lemma pending_nil_wavail (s : indep) :
  window_ok s -> pending s = [] -> (0 < WAVAIL s)%nat.
Proof.
  intros (Hw & Hlen & Hr & Hq) Hp. unfold pending, WAVAIL in *.
  case_decide as Hle.
  - apply (f_equal length) in Hp. rewrite length_slice in Hp by lia.
    simpl in Hp. case_decide; lia.
  - apply (f_equal length) in Hp. rewrite length_app, length_slice in Hp by lia.
    simpl in Hp. lia.
Qed.

Lemma wrap_facts (c : ctx) :
  window_ok (cs c) ->
  let c' := mk_ctx (wrap_s (cs c)) (cz c) (cr c) in
  window_ok (cs c') /\ out_stream c' = out_stream c /\ out_frame c c' /\
  (check_inv c -> check_inv c').
Proof.
  intros Hok c'. destruct (wrap_pending (cs c) Hok) as [Hp Hok'].
  assert (Hfr : out_frame c c').
  { subst c'. destruct c as [[] [] r]. unfold wrap_s. simpl.
    case_decide; split; reflexivity. }
  refine (conj Hok' (conj _ (conj Hfr _))).
  - unfold out_stream. subst c'. simpl. rewrite Hp. reflexivity.
  - intros Hinv f Hf Hseq. subst c'. simpl in *.
    assert (E : check (wrap_s (cs c)) = check (cs c) /\ checkfn (wrap_s (cs c)) = checkfn (cs c))
      by (unfold wrap_s; case_decide; split; reflexivity).
    destruct E as [E1 E2]. rewrite E2 in Hf. rewrite E1. apply (Hinv f Hf Hseq).
Qed.

(** After a flush, if the caller still has room, nothing is pending. *)
Lemma flush_room_empty (c : ctx) :
  window_ok (cs c) -> (0 < avail_out (cz (inflate_flush c)))%nat ->
  pending (cs (inflate_flush c)) = [].
Proof.
  intros Hok Hav.
  destruct (inflate_flush_correct c Hok) as (_ & _ & _ & Hp & Hav' & _).
  rewrite Hav', length_take in Hav.
  apply (f_equal length) in Hp. rewrite length_app, length_take in Hp.
  apply length_zero_iff_nil. lia.
Qed.

(** NEEDOUT goes on only with room in the window and the status
    [Z_OK]; it leaves only when the caller's output buffer is full.
    Either way no byte is lost or reordered, and the check value still
    covers exactly the delivered bytes. *)
Theorem NEEDOUT_spec (c : ctx) :
  window_ok (cs c) ->
  match NEEDOUT c with
  | Cont _ c' =>
      window_ok (cs c') /\ (0 < WAVAIL (cs c'))%nat /\ cr c' = Z_OK /\
      out_stream c' = out_stream c /\ out_frame c c' /\ (check_inv c -> check_inv c')
  | Exit c' =>
      window_ok (cs c') /\ avail_out (cz c') = 0%nat /\
      out_stream c' = out_stream c /\ out_frame c c' /\ (check_inv c -> check_inv c')
  end.
Proof.
  intros Hok. unfold NEEDOUT, mbind, mget, set_r, mmodify, mret.
  destruct (decide (WAVAIL (cs c) = 0%nat)) as [H0|H0].
  2: { simpl. refine (conj Hok (conj _ (conj eq_refl (conj eq_refl (conj _ (fun H => H)))))); [lia|].
       destruct c as [[] [] r]. split; reflexivity. }
  rewrite WRAP_eq.
  destruct (wrap_facts c Hok) as (Hok1 & Hs1 & Hf1 & Hi1).
  set (c1 := mk_ctx (wrap_s (cs c)) (cz c) (cr c)) in *. clearbody c1.
  destruct (decide (WAVAIL (cs c1) = 0%nat)) as [H1|H1].
  2: { cbn [cs cz cr]. refine (conj Hok1 (conj _ (conj eq_refl (conj Hs1 (conj Hf1 Hi1))))). lia. }
  unfold FLUSH, mmodify. rewrite WRAP_eq.
  pose proof (flush_out_stream c1 Hok1) as Hs2.
  destruct (inflate_flush_correct c1 Hok1) as (Hok2 & Hf2 & _).
  set (c2 := inflate_flush c1) in *.
  assert (Hroom : (0 < avail_out (cz c2))%nat -> pending (cs c2) = [])
    by (apply flush_room_empty, Hok1).
  assert (Hi2 : check_inv c1 -> check_inv c2) by (apply flush_check_inv, Hok1).
  clearbody c2.
  destruct (wrap_facts c2 Hok2) as (Hok3 & Hs3 & Hf3 & Hi3).
  set (c3 := mk_ctx (wrap_s (cs c2)) (cz c2) (cr c2)) in *.
  assert (Hz3 : cz c3 = cz c2) by reflexivity. clearbody c3.
  assert (Hfr : out_frame c c3) by eauto using out_frame_trans.
  assert (Hinv : check_inv c -> check_inv c3)
    by (intros; apply Hi3, Hi2, Hi1; auto).
  destruct (decide (WAVAIL (cs c3) = 0%nat)) as [H3|H3].
  - refine (conj Hok3 (conj _ (conj (eq_trans Hs3 (eq_trans Hs2 Hs1)) (conj Hfr Hinv)))).
    destruct (avail_out (cz c3)) as [|a] eqn:Ea; [reflexivity|exfalso].
    assert (Hp : pending (cs c2) = []) by (apply Hroom; rewrite <- Hz3, Ea; lia).
    unfold out_stream in Hs3. rewrite Hz3, Hp, app_nil_r in Hs3.
    assert (Hp3 : pending (cs c3) = [])
      by (apply (app_inv_head (next_out (cz c2))); rewrite app_nil_r; exact Hs3).
    pose proof (pending_nil_wavail (cs c3) Hok3 Hp3). lia.
  - cbn [cs cz cr].
    refine (conj Hok3 (conj _ (conj eq_refl (conj (eq_trans Hs3 (eq_trans Hs2 Hs1)) (conj Hfr Hinv))))).
    lia.
Qed.

Lemma flush_status_not_buf (n : nat) (r : status) :
  r <> Z_BUF_ERROR -> flush_status n r = r.
Proof. intros H. destruct n, r; try reflexivity; congruence. Qed.

(** [inflate_flush] changes the status only from [Z_BUF_ERROR]. *)
Lemma inflate_flush_cr_keep (c : ctx) :
  cr c <> Z_BUF_ERROR -> cr (inflate_flush c) = cr c.
Proof.
  intros H. unfold inflate_flush, flush_copy.
  case_decide; simpl; rewrite !flush_status_not_buf; auto.
  rewrite flush_status_not_buf; auto.
Qed.

(** OUTBYTE with room in the window appends the byte to what was
    produced and keeps the check value over the delivered bytes. *)
Lemma OUTBYTE_spec (a : Z) (c : ctx) :
  window_ok (cs c) -> (0 < WAVAIL (cs c))%nat ->
  let c' := mk_ctx (outbyte_s a (cs c)) (cz c) (cr c) in
  OUTBYTE a c = Cont tt c' /\ window_ok (cs c') /\
  out_stream c' = out_stream c ++ [Z.land a 255] /\
  WAVAIL (cs c') = (WAVAIL (cs c) - 1)%nat /\ (check_inv c -> check_inv c').
Proof.
  intros Hok Hw c'. destruct (outbyte_pending a (cs c) Hok Hw) as (Hp & Hok' & Hw').
  refine (conj eq_refl (conj Hok' (conj _ (conj Hw' (fun H => H))))).
  unfold out_stream. subst c'. cbn [cs cz]. rewrite Hp, app_assoc. reflexivity.
Qed.

Lemma land_byte (x : Z) : (0 <= x < 256)%Z -> Z.land x 255 = x.
Proof. intros Hx. change 255%Z with (Z.ones 8). rewrite Z.land_ones by lia. apply Z.mod_small. exact Hx. Qed.

(** [inflate_flush] leaves the bit buffer, the input and the allocator
    as they are. *)
Lemma inflate_flush_input (c : ctx) :
  bitk (cs (inflate_flush c)) = bitk (cs c) /\ bitb (cs (inflate_flush c)) = bitb (cs c) /\
  next_in (cz (inflate_flush c)) = next_in (cz c) /\ avail_in (cz (inflate_flush c)) = avail_in (cz c) /\
  zlive (cz (inflate_flush c)) = zlive (cz c) /\ zroom (cz (inflate_flush c)) = zroom (cz c).
Proof.
  destruct c as [[k b win e rd wr cf ch] z r]. unfold inflate_flush, flush_copy.
  repeat case_decide; repeat split.
Qed.

(** ** The caller's output buffer is conserved

    [room z]: the bytes already handed over plus the room left.  No
    macro changes it: [inflate_flush] moves bytes from the room to
    [next_out], never more than [avail_out]. *)
Definition room (z : z_stream) : nat := (avail_out z + length (next_out z))%nat.

Lemma inflate_flush_room (c : ctx) : window_ok (cs c) -> room (cz (inflate_flush c)) = room (cz c).
Proof.
  intros Hok. destruct (inflate_flush_correct c Hok) as (_ & _ & Hn & _ & Ha & _).
  unfold room. rewrite Hn, Ha, length_app, length_take. lia.
Qed.

Lemma NEEDOUT_room (c : ctx) : window_ok (cs c) -> room (cz (res_state (NEEDOUT c))) = room (cz c).
Proof.
  intros Hok. unfold NEEDOUT, mbind, mget, set_r, mmodify, mret.
  destruct (decide (WAVAIL (cs c) = 0%nat)); [|reflexivity].
  rewrite WRAP_eq. destruct (wrap_facts c Hok) as (Hok1 & _).
  set (c1 := mk_ctx (wrap_s (cs c)) (cz c) (cr c)) in *. cbn [res_state].
  destruct (decide (WAVAIL (cs c1) = 0%nat)); [|reflexivity].
  unfold FLUSH, mmodify. rewrite WRAP_eq. pose proof (inflate_flush_room c1 Hok1) as H.
  cbn. destruct (decide _); exact H.
Qed.

(** Nothing pending: the read pointer is the write pointer. *)
Lemma pending_nil_eq (s : indep) : window_ok s -> pending s = [] -> read s = write s.
Proof.
  intros (Hw & Hlen & Hr & Hq) Hp. unfold pending in Hp. case_decide as Hle.
  - apply (f_equal length) in Hp. rewrite length_slice in Hp by lia. simpl in Hp. lia.
  - apply (f_equal length) in Hp. rewrite length_app, !length_slice in Hp by lia. simpl in Hp. lia.
Qed.
