(* ===== verification/Interfaces.v ===== *)
(** * What the block decoder needs from the table builder and the codes
      decoder ([inftrees.h], [infcodes.h])

    [infblock.c] calls [inflate_trees_bits], [inflate_trees_dynamic] and
    [inflate_trees_fixed] of [inftrees.c] to build decoding tables, reads
    the meta table itself ([h->word.what.Bits], [h->more.Base]), and
    hands the other tables to [inflate_codes_new] and [inflate_codes] of
    [infcodes.c].  Both are type classes here, so that the theorems of
    [Blocks] hold for every implementation; [MetaTables] and [HeapLaws]
    are laws of the implementations the invariants of [Invariant] use. *)

From Stdlib Require Import ZArith List.
From stdpp Require Import base list.
From S2P Require Import Prelude Zlib BitBuf Window.

(** The result of a table builder: the outputs, or the status it
    returned when that was not [Z_OK]. *)
Inductive built (A : Type) :=
  | Built (a : A)
  | BuildFailed (s : status).
Arguments Built {A} a.
Arguments BuildFailed {A} s.

Class TreeBuilder := {
  (** A decoding table ([inflate_huft *]). *)
  huft : Type;
  (** [h->word.what.Bits] and [h->more.Base] of the entry at an index. *)
  huft_bits : huft -> Z -> Z;
  huft_base : huft -> Z -> Z;
  (** [inflate_trees_bits(c, &bb, &tb, z)]: the 19 code lengths of the
      code-length code and the root width in; the width and the table
      out, with the stream (its allocator and [msg]) after the call. *)
  inflate_trees_bits : list Z -> Z -> z_stream -> built (Z * huft) * z_stream;
  (** [inflate_trees_dynamic(nl, nd, c, &bl, &bd, &tl, &td, z)]. *)
  inflate_trees_dynamic :
    Z -> Z -> list Z -> Z -> Z -> z_stream -> built (Z * Z * huft * huft) * z_stream;
  (** [inflate_trees_fixed(&bl, &bd, &tl, &td)]: static tables. *)
  inflate_trees_fixed : Z * Z * huft * huft;
  (** [inflate_trees_free(t, z)]. *)
  inflate_trees_free : huft -> z_stream -> z_stream }.

Class CodesDecoder `{TreeBuilder} := {
  (** [struct inflate_codes_state]. *)
  codes_state : Type;
  (** [inflate_codes_new(bl, bd, tl, td, z)]; [None] is [Z_NULL] (the
      stream is then unchanged).  The decoder owns the tables. *)
  inflate_codes_new : Z -> Z -> huft -> huft -> z_stream -> option (codes_state * z_stream);
  (** [r = inflate_codes(s, z, r)]: decodes from the bit buffer and the
      input into the window, and returns its status in [cr]. *)
  inflate_codes : codes_state -> ctx -> codes_state * ctx;
  (** [inflate_codes_free(c, z)]: frees the decoder and its tables. *)
  inflate_codes_free : codes_state -> z_stream -> z_stream }.

(** The meta table [inflate_trees_bits] returns for the root width 7
    from lengths of three bits: a width of at most 7, and at every index
    of that width a code length within the width and a symbol of the
    code-length alphabet, which [case DTREE] reads without a check.
    [Trees.checked_meta] proves it of a builder that rejects incomplete
    code-length codes. *)
Class MetaTables `{TreeBuilder} :=
  meta_tables : forall c z w' h z', Forall (fun x => 0 <= x <= 7) c ->
    inflate_trees_bits c 7 z = (Built (w', h), z') ->
    0 <= w' <= 7 /\
    forall idx, 0 <= idx < 2 ^ w' -> 0 <= huft_bits h idx <= w' /\ 0 <= huft_base h idx <= 18.

(** The table builder and the constructor and destructor of the codes
    decoder touch the stream only through its allocator and its
    message. *)
Class HeapLaws `{CodesDecoder} := {
  trees_bits_heap : forall c bb z, heap_frame z (snd (inflate_trees_bits c bb z));
  trees_dynamic_heap : forall nl nd c bl bd z,
    heap_frame z (snd (inflate_trees_dynamic nl nd c bl bd z));
  trees_free_heap : forall t z, heap_frame z (inflate_trees_free t z);
  codes_new_heap : forall bl bd tl td z cd z',
    inflate_codes_new bl bd tl td z = Some (cd, z') -> heap_frame z z';
  codes_free_heap : forall cd z, heap_frame z (inflate_codes_free cd z) }.
