(* ===== verification/Trees.v ===== *)
(** * A table builder ([inftrees.c], modelled from the specification)

    [inftrees.c] is not under src/.  This file gives the block decoder
    a table builder that meets the [TreeBuilder] interface: a decoding
    table is the list of code lengths with its root width, codes are the
    canonical Huffman codes of RFC 1951 (3.2.2), and an entry of the
    table at a [width]-bit index is the code the index starts with (the
    code is sent most significant bit first, so it is reversed in the
    index).  Over-subscribed and incomplete codes are rejected with
    [Z_DATA_ERROR] and the messages of zlib's [inflate_trees_bits] and
    [inflate_trees_dynamic], a single code of length 1 being allowed; a
    table takes one object of the allocator, and a failed allocation
    gives [Z_MEM_ERROR]. *)

From Stdlib Require Import ZArith Lia List String.
From stdpp Require Import base list.
From S2P Require Import Prelude Zlib BitBuf Window Interfaces.

Open Scope Z_scope.

(** A decoding table: code lengths by symbol, the root width, and
    whether its memory came from the allocator ([huft_build]) or is
    static (the fixed tables). *)
Record htable := mk_htable { hlens : list Z; hwidth : Z; hheap : bool }.

(** The number of symbols with code length [n]. *)
Definition count_len (lens : list Z) (n : Z) : Z :=
  Z.of_nat (length (filter (fun x => bool_decide (x = n)) lens)).

(** [next_code[L]] of RFC 1951: [code = (code + bl_count[L-1]) << 1]. *)
Fixpoint next_code (lens : list Z) (L : nat) : Z :=
  match L with
  | O => 0
  | S L' => 2 * (next_code lens L' + (if decide (L' = 0%nat) then 0 else count_len lens (Z.of_nat L')))
  end.

(** The canonical code of symbol [s]. *)
Definition code_of (lens : list Z) (s : nat) : Z :=
  let L := nth s lens 0 in
  next_code lens (Z.to_nat L) + count_len (take s lens) L.

(** The [n] low bits of [v] in reverse order. *)
Definition rev_bits (n : nat) (v : Z) : Z := le_value (rev (bits_of n v)).

(** The first symbol whose length passes [ok] and whose code, sent most
    significant bit first, starts the bits of [idx] (least significant
    first): the reference definition. *)
Definition hfind_ref (lens : list Z) (ok : Z -> bool) (idx : Z) : option (Z * Z) :=
  let fix go (s : nat) (rest : list Z) : option (Z * Z) :=
    match rest with
    | [] => None
    | L :: rest' =>
        if ok L && bool_decide (0 < L) &&
           (rev_bits (Z.to_nat L) (code_of lens s) =? idx mod 2 ^ L)
        then Some (L, Z.of_nat s) else go (S s) rest'
    end in
  go 0%nat lens.

(** [next_code] of the lengths 0..15 computed once for a table. *)
Definition next_codes (lens : list Z) : list Z := map (next_code lens) (seq 0 16).

Definition next_code_at (lens : list Z) (nc : list Z) (L : nat) : Z :=
  if decide (L < 16)%nat then nth L nc 0 else next_code lens L.

(** The same search with [next_code] taken from [next_codes]. *)
Definition hfind (lens : list Z) (ok : Z -> bool) (idx : Z) : option (Z * Z) :=
  let nc := next_codes lens in
  let fix go (s : nat) (rest : list Z) : option (Z * Z) :=
    match rest with
    | [] => None
    | L :: rest' =>
        if ok L && bool_decide (0 < L) &&
           (rev_bits (Z.to_nat L) (next_code_at lens nc (Z.to_nat L) + count_len (take s lens) L)
              =? idx mod 2 ^ L)
        then Some (L, Z.of_nat s) else go (S s) rest'
    end in
  go 0%nat lens.

(** The entry at a root index: a code no longer than the root width. *)
Definition hdecode (t : htable) (idx : Z) : option (Z * Z) :=
  hfind (hlens t) (fun L => L <=? hwidth t) idx.

(** [h->word.what.Bits] and [h->more.Base]: an index no code starts has
    the invalid operation 99, as zlib marks it. *)
Definition htable_bits (t : htable) (idx : Z) : Z :=
  match hdecode t idx with Some (L, _) => L | None => hwidth t end.

Definition htable_base (t : htable) (idx : Z) : Z :=
  match hdecode t idx with Some (_, s) => s | None => 99 end.

(** Kraft's sum at depth 15: [2^15] for a complete code. *)
Definition kraft (lens : list Z) : Z :=
  fold_right (fun L acc => (if decide (0 < L) then 2 ^ (15 - L) else 0) + acc) 0 lens.

Definition max_len (lens : list Z) : Z := fold_right Z.max 0 lens.

Definition min_len (lens : list Z) : Z :=
  fold_right (fun L acc => if decide (0 < L) then Z.min L acc else acc) 16 lens.

(** [huft_build]: no table and width 0 for all-zero lengths; otherwise
    over-subscribed lengths are [Z_DATA_ERROR], incomplete ones
    [Z_BUF_ERROR] unless the longest code has length 1, and the table
    is allocated with the root width [m] clamped to the lengths used. *)
Definition huft_build (lens : list Z) (m : Z) (z : z_stream) : built (Z * htable) * z_stream :=
  if decide (max_len lens = 0) then (Built (0, mk_htable lens 0 false), z)
  else if decide (2 ^ 15 < kraft lens) then (BuildFailed Z_DATA_ERROR, z)
  else if decide (kraft lens < 2 ^ 15 /\ max_len lens <> 1) then (BuildFailed Z_BUF_ERROR, z)
  else
    match zalloc ObjHuft z with
    | None => (BuildFailed Z_MEM_ERROR, z)
    | Some z' =>
        let w := Z.min (Z.max m (min_len lens)) (max_len lens) in
        (Built (w, mk_htable lens w true), z')
    end.

(** [inflate_trees_free(t, z)]: static tables are not freed. *)
Definition trees_free (t : htable) (z : z_stream) : z_stream :=
  if hheap t then zfree ObjHuft z else z.

(** [inflate_trees_bits]: the 19 lengths of the code-length code; an
    empty or incomplete code is an error. *)
Definition trees_bits (c : list Z) (bb : Z) (z : z_stream) : built (Z * htable) * z_stream :=
  match huft_build (take 19 c) bb z with
  | (BuildFailed Z_DATA_ERROR, z') =>
      (BuildFailed Z_DATA_ERROR, z_set_msg z' "oversubscribed dynamic bit lengths tree"%string)
  | (BuildFailed Z_MEM_ERROR, z') => (BuildFailed Z_MEM_ERROR, z')
  | (BuildFailed _, z') =>
      (BuildFailed Z_DATA_ERROR, z_set_msg z' "incomplete dynamic bit lengths tree"%string)
  | (Built (w, t), z') =>
      if decide (w = 0) then
        (BuildFailed Z_DATA_ERROR, z_set_msg z' "incomplete dynamic bit lengths tree"%string)
      else (Built (w, t), z')
  end.

(** [inflate_trees_dynamic]: the literal/length code (the first [nl]
    lengths), then the distance code (the next [nd]); an empty
    distance code is allowed only when no length symbol is used. *)
Definition trees_dynamic (nl nd : Z) (c : list Z) (bl bd : Z) (z : z_stream)
    : built (Z * Z * htable * htable) * z_stream :=
  match huft_build (take (Z.to_nat nl) c) bl z with
  | (BuildFailed Z_DATA_ERROR, z1) =>
      (BuildFailed Z_DATA_ERROR, z_set_msg z1 "oversubscribed literal/length tree"%string)
  | (BuildFailed Z_MEM_ERROR, z1) => (BuildFailed Z_MEM_ERROR, z1)
  | (BuildFailed _, z1) =>
      (BuildFailed Z_DATA_ERROR, z_set_msg z1 "incomplete literal/length tree"%string)
  | (Built (bl', tl), z1) =>
      if decide (bl' = 0) then
        (BuildFailed Z_DATA_ERROR, z_set_msg z1 "incomplete literal/length tree"%string)
      else
        match huft_build (take (Z.to_nat nd) (drop (Z.to_nat nl) c)) bd z1 with
        | (BuildFailed Z_DATA_ERROR, z2) =>
            (BuildFailed Z_DATA_ERROR,
             z_set_msg (trees_free tl z2) "oversubscribed distance tree"%string)
        | (BuildFailed Z_MEM_ERROR, z2) => (BuildFailed Z_MEM_ERROR, trees_free tl z2)
        | (BuildFailed _, z2) =>
            (BuildFailed Z_DATA_ERROR, z_set_msg (trees_free tl z2) "incomplete distance tree"%string)
        | (Built (bd', td), z2) =>
            if decide (bd' = 0 /\ nl > 257) then
              (BuildFailed Z_DATA_ERROR,
               z_set_msg (trees_free tl z2) "empty distance tree with lengths"%string)
            else (Built (bl', bd', tl, td), z2)
        end
  end.

(** The fixed code of RFC 1951 (3.2.6), in static tables. *)
Definition fixed_lit_lens : list Z :=
  repeat 8 144 ++ repeat 9 112 ++ repeat 7 24 ++ repeat 8 8.

Definition fixed_dist_lens : list Z := repeat 5 30.

Definition trees_fixed : Z * Z * htable * htable :=
  (9, 5, mk_htable fixed_lit_lens 9 false, mk_htable fixed_dist_lens 5 false).

#[export] Instance canonical_trees : TreeBuilder := {
  huft := htable;
  huft_bits := htable_bits;
  huft_base := htable_base;
  inflate_trees_bits := trees_bits;
  inflate_trees_dynamic := trees_dynamic;
  inflate_trees_fixed := trees_fixed;
  inflate_trees_free := trees_free }.

(** ** The builder touches only the allocator and the message *)

Lemma huft_build_heap (lens : list Z) (m : Z) (z : z_stream) :
  heap_frame z (snd (huft_build lens m z)).
Proof.
  unfold huft_build. repeat case_decide; auto with inflate.
  destruct (zalloc ObjHuft z) eqn:E; simpl; eauto using heap_frame_zalloc with inflate.
Qed.

Lemma trees_free_heap_frame (t : htable) (z : z_stream) : heap_frame z (trees_free t z).
Proof. unfold trees_free. destruct (hheap t); auto with inflate. Qed.

Ltac heap_step :=
  repeat match goal with
  | |- context [huft_build ?l ?m ?z] =>
      let r := fresh "r" in let z' := fresh "z" in let E := fresh "E" in
      pose proof (huft_build_heap l m z) as ?;
      destruct (huft_build l m z) as [r z'] eqn:E; simpl in *
  | r : built _ |- _ => destruct r as [[? ?]|[]]; simpl in *
  | |- context [if decide ?P then _ else _] => case_decide; simpl in *
  end;
  eauto 6 using heap_frame_trans, trees_free_heap_frame with inflate.

Lemma trees_bits_heap_frame (c : list Z) (bb : Z) (z : z_stream) :
  heap_frame z (snd (trees_bits c bb z)).
Proof. unfold trees_bits. heap_step. Qed.

Lemma trees_dynamic_heap_frame (nl nd : Z) (c : list Z) (bl bd : Z) (z : z_stream) :
  heap_frame z (snd (trees_dynamic nl nd c bl bd z)).
Proof. unfold trees_dynamic. heap_step. Qed.

(** ** The search with the codes computed once is the reference *)

Lemma next_code_at_eq (lens : list Z) (L : nat) :
  next_code_at lens (next_codes lens) L = next_code lens L.
Proof.
  unfold next_code_at, next_codes. case_decide; [|reflexivity].
  rewrite (nth_indep _ 0 (next_code lens 0)) by (rewrite length_map, length_seq; lia).
  rewrite map_nth, seq_nth by lia. reflexivity.
Qed.

Lemma hfind_ref_eq (lens : list Z) (ok : Z -> bool) (idx : Z) :
  hfind lens ok idx = hfind_ref lens ok idx.
Proof.
  unfold hfind, hfind_ref.
  assert (H : forall s rest, drop s lens = rest ->
    (fix go (s : nat) (rest : list Z) : option (Z * Z) :=
       match rest with
       | [] => None
       | L :: rest' =>
           if ok L && bool_decide (0 < L) &&
              (rev_bits (Z.to_nat L) (next_code_at lens (next_codes lens) (Z.to_nat L)
                                      + count_len (take s lens) L) =? idx mod 2 ^ L)
           then Some (L, Z.of_nat s) else go (S s) rest'
       end) s rest =
    (fix go (s : nat) (rest : list Z) : option (Z * Z) :=
       match rest with
       | [] => None
       | L :: rest' =>
           if ok L && bool_decide (0 < L) &&
              (rev_bits (Z.to_nat L) (code_of lens s) =? idx mod 2 ^ L)
           then Some (L, Z.of_nat s) else go (S s) rest'
       end) s rest).
  { intros s rest. revert s. induction rest as [|L rest IH]; intros s Hd; [reflexivity|].
    assert (HL : nth s lens 0 = L).
    { rewrite <- (Nat.add_0_r s), <- nth_skipn, Hd. reflexivity. }
    unfold code_of. rewrite HL, next_code_at_eq.
    rewrite (IH (S s)); [reflexivity|].
    replace (S s) with (s + 1)%nat by lia. rewrite <- drop_drop, Hd. reflexivity. }
  apply H. reflexivity.
Qed.

(** ** A builder that rejects incomplete code-length codes

    zlib's later [inflate_table] refuses an incomplete code-length code
    even when it has a single code; the meta table it returns then has a
    code at every index of its width.  [trees_bits_checked] is
    [trees_bits] with that check: a table with an index no code starts
    is freed and the lengths are rejected as incomplete. *)

Definition bits_covered (w : Z) (t : htable) : bool :=
  forallb (fun i => match hdecode t (Z.of_nat i) with Some _ => true | None => false end)
          (seq 0 (Z.to_nat (2 ^ w))).

Definition trees_bits_checked (c : list Z) (bb : Z) (z : z_stream) : built (Z * htable) * z_stream :=
  match trees_bits c bb z with
  | (Built (w, t), z') =>
      if bits_covered w t then (Built (w, t), z')
      else (BuildFailed Z_DATA_ERROR,
            z_set_msg (trees_free t z') "incomplete dynamic bit lengths tree"%string)
  | r => r
  end.

(** Not an instance: [canonical_trees] stays the builder found by
    resolution; clients name this one. *)
Definition checked_trees : TreeBuilder := {|
  huft := htable;
  huft_bits := htable_bits;
  huft_base := htable_base;
  inflate_trees_bits := trees_bits_checked;
  inflate_trees_dynamic := trees_dynamic;
  inflate_trees_fixed := trees_fixed;
  inflate_trees_free := trees_free |}.

(** A symbol [hfind] returns is a symbol of the lengths, with a length
    [ok] accepts. *)
Lemma hfind_some (lens : list Z) (ok : Z -> bool) (idx L s : Z) :
  hfind lens ok idx = Some (L, s) -> ok L = true /\ 0 < L /\ 0 <= s < Z.of_nat (length lens).
Proof.
  rewrite hfind_ref_eq. unfold hfind_ref.
  match goal with |- ?g 0%nat lens = _ -> _ => set (go := g) end.
  assert (H : forall rest n, go n rest = Some (L, s) ->
            ok L = true /\ 0 < L /\ Z.of_nat n <= s < Z.of_nat (n + length rest)).
  { subst go. induction rest as [|L' rest IH]; intros n E; [discriminate|]. cbn in E.
    destruct (ok L' && bool_decide (0 < L') && _) eqn:Ec.
    - injection E as <- <-. apply andb_prop in Ec as [Ec _]. apply andb_prop in Ec as [Eok Hpos].
      apply bool_decide_eq_true in Hpos. split; [exact Eok|]. cbn [length]. lia.
    - destruct (IH (S n) E) as (? & ? & ?). split; [assumption|]. cbn [length]. lia. }
  intros E. destruct (H lens 0%nat E) as (? & ? & ?). split; [assumption|]. split; [assumption|]. lia.
Qed.

Lemma max_len_bound (l : list Z) : Forall (fun x => 0 <= x <= 7) l -> 0 <= max_len l <= 7.
Proof. unfold max_len. induction 1 as [|x l Hx _ IH]; cbn [fold_right]; [lia|]. cbv beta in Hx. lia. Qed.

(** Every index of the width starts a code when [bits_covered] holds. *)
Lemma bits_covered_hdecode (w : Z) (t : htable) (idx : Z) :
  bits_covered w t = true -> 0 <= idx < 2 ^ w -> exists L s, hdecode t idx = Some (L, s).
Proof.
  unfold bits_covered. rewrite forallb_forall. intros H Hidx.
  assert (Hin : In (Z.to_nat idx) (seq 0 (Z.to_nat (2 ^ w)))) by (apply in_seq; lia).
  specialize (H _ Hin). rewrite Z2Nat.id in H by lia.
  destruct (hdecode t idx) as [[L s]|]; [eauto|discriminate].
Qed.

(** The law [MetaTables] of the checked builder: the meta table has a
    width of at most 7 and every entry a code of that width and one of
    the 19 symbols. *)
#[export] Instance checked_meta : @MetaTables checked_trees.
Proof.
  intros c z w' h z' Hc. cbn [inflate_trees_bits checked_trees]. unfold trees_bits_checked.
  destruct (trees_bits c 7 z) as [[[w1 t]|e] z1] eqn:Eb; [|discriminate].
  destruct (bits_covered w1 t) eqn:Ecov; [|discriminate]. intros E. injection E as <- <- <-.
  unfold trees_bits in Eb.
  destruct (huft_build (take 19 c) 7 z) as [[[w2 t2]|e] z2] eqn:Eh; [|destruct e; discriminate].
  case_decide as Hw0; [discriminate|]. injection Eb as <- <- <-.
  pose proof (max_len_bound (take 19 c) (Forall_take _ _ _ Hc)) as Hmax.
  unfold huft_build in Eh. repeat case_decide; try discriminate; [injection Eh as <- <- <-; lia|].
  destruct (zalloc ObjHuft z); [|discriminate]. injection Eh as <- <- <-.
  assert (Hw2 : 0 <= Z.min (Z.max 7 (min_len (take 19 c))) (max_len (take 19 c)) <= 7) by lia.
  split; [exact Hw2|]. intros idx Hidx.
  destruct (bits_covered_hdecode _ _ idx Ecov Hidx) as (L & s & Ed).
  cbn [huft_bits huft_base checked_trees]. unfold htable_bits, htable_base. rewrite Ed.
  destruct (hfind_some _ _ _ _ _ Ed) as (Hok & HL & Hs). apply Z.leb_le in Hok. cbn [hwidth] in Hok.
  cbn [hlens] in Hs. rewrite length_take in Hs. split; [lia|]. lia.
Qed.
