(* ===== verification/Codes.v ===== *)
(** * A codes decoder ([infcodes.c], modelled from the specification)

    [infcodes.c] is not under src/.  This file gives the block decoder a
    resumable decoder of the literal/length and distance codes of one
    block that meets the [CodesDecoder] interface, written with the
    macros of [infutil.h] ([NEEDBITS], [DUMPBITS], [NEEDOUT],
    [OUTBYTE]) as [infcodes.c] is.  Its mode plays the part of
    [inflate_codes_mode]: START (decode a literal/length symbol), LENEXT
    (extra bits of a length), DIST (decode a distance symbol), DISTEXT
    (extra bits of a distance), COPY (copy a match from the window), LIT
    (write a literal), END and BADCODE.  A symbol is decoded by trying
    the code lengths 1 to 15 in turn, so that it is resumable: a
    suspension inside the decoding of a symbol has consumed nothing.  A
    distance further back than what was written in the window, or than
    the window, is [Z_DATA_ERROR]. *)

From Stdlib Require Import ZArith Lia List String.
From stdpp Require Import base list.
From S2P Require Import Prelude Zlib BitBuf Window Interfaces Trees.

Open Scope Z_scope.

(** RFC 1951 (3.2.5): lengths of symbols 257..285, distances 0..29. *)
Definition len_base : list Z :=
  [3; 4; 5; 6; 7; 8; 9; 10; 11; 13; 15; 17; 19; 23; 27; 31;
   35; 43; 51; 59; 67; 83; 99; 115; 131; 163; 195; 227; 258].
Definition len_extra : list Z :=
  [0; 0; 0; 0; 0; 0; 0; 0; 1; 1; 1; 1; 2; 2; 2; 2;
   3; 3; 3; 3; 4; 4; 4; 4; 5; 5; 5; 5; 0].
Definition dist_base : list Z :=
  [1; 2; 3; 4; 5; 7; 9; 13; 17; 25; 33; 49; 65; 97; 129; 193;
   257; 385; 513; 769; 1025; 1537; 2049; 3073; 4097; 6145;
   8193; 12289; 16385; 24577].
Definition dist_extra : list Z :=
  [0; 0; 0; 0; 1; 1; 2; 2; 3; 3; 4; 4; 5; 5; 6; 6;
   7; 7; 8; 8; 9; 9; 10; 10; 11; 11; 12; 12; 13; 13].

Inductive codes_mode :=
  | START
  | LENEXT (sym : nat)
  | DIST (len : Z)
  | DISTEXT (len : Z) (sym : nat)
  | COPY (len dist : Z)
  | LIT (c : Z)
  | END
  | BADCODE.

(** [struct inflate_codes_state]: the mode and the two tables. *)
Record codes := mk_codes {
  cmode : codes_mode;
  lbits : Z;
  dbits : Z;
  ltree : htable;
  dtree : htable }.

Definition set_cmode_of (m : codes_mode) (cd : codes) : codes :=
  mk_codes m (lbits cd) (dbits cd) (ltree cd) (dtree cd).

(** The bytes written in this session so far: delivered or pending. *)
Definition emitted (c : ctx) : nat := (total_out (cz c) + length (pending (cs c)))%nat.

(** [f = q - dist], wrapping at the start of the window. *)
Definition copy_from (s : indep) (dist : Z) : nat :=
  if decide (Z.of_nat (write s) < dist) then Z.to_nat (Z.of_nat (wend s) - (dist - Z.of_nat (write s)))
  else Z.to_nat (Z.of_nat (write s) - dist).

Section Codes.
Variable ulong_bits : Z.

Record cstate := mk_cstate { cdec : codes; cio : ctx }.

Definition clift {A} (m : M ctx A) : M cstate A :=
  fun st => match m (cio st) with
            | Cont a c => Cont a (mk_cstate (cdec st) c)
            | Exit c => Exit (mk_cstate (cdec st) c)
            end.

Definition set_cmode (m : codes_mode) : M cstate unit :=
  mmodify (fun st => mk_cstate (set_cmode_of m (cdec st)) (cio st)).

(** Decode a symbol of [t], trying the code lengths [L] to [L + n - 1]:
    [NEEDBITS(L)], then the symbol whose code of length [L] the low
    bits are, if any, and [DUMPBITS(L)]. *)
Fixpoint decode_sym (t : htable) (L : nat) (n : nat) : M ctx (option Z) :=
  match n with
  | O => mret None
  | S n' =>
      NEEDBITS ulong_bits (Z.of_nat L) ;;
      c <- mget ;;
      match hfind (hlens t) (fun x => x =? Z.of_nat L) (bitb (cs c)) with
      | Some (_, s) => DUMPBITS (Z.of_nat L) ;; mret (Some s)
      | None => decode_sym t (S L) n'
      end
  end.

(** [NEEDBITS(j) v = (uInt)b & inflate_mask[j]; DUMPBITS(j)] *)
Definition GETBITS (j : Z) : M ctx Z :=
  NEEDBITS ulong_bits j ;;
  c <- mget ;;
  DUMPBITS j ;;
  mret (Z.land (bitb (cs c)) (inflate_mask j)).

Definition codes_error (m : string) : M cstate unit :=
  set_cmode BADCODE ;;
  clift (upd_z (fun z => z_set_msg z m)) ;;
  clift (set_r Z_DATA_ERROR) ;;
  leave.

(** One turn of [while (1) switch (c->mode)]. *)
Definition codes_step : M cstate unit :=
  st <- mget ;;
  let cd := cdec st in
  match cmode cd with
  | START =>
      o <- clift (decode_sym (ltree cd) 1 15) ;;
      match o with
      | None => codes_error "invalid literal/length code"
      | Some s =>
          if decide (s < 256) then set_cmode (LIT s)
          else if decide (s = 256) then set_cmode END
          else if decide (s < 286) then set_cmode (LENEXT (Z.to_nat (s - 257)))
          else codes_error "invalid literal/length code"
      end
  | LENEXT i =>
      v <- clift (GETBITS (nth i len_extra 0)) ;;
      set_cmode (DIST (nth i len_base 0 + v))
  | DIST len =>
      o <- clift (decode_sym (dtree cd) 1 15) ;;
      match o with
      | Some d =>
          if decide (d < 30) then set_cmode (DISTEXT len (Z.to_nat d))
          else codes_error "invalid distance code"
      | None => codes_error "invalid distance code"
      end
  | DISTEXT len i =>
      v <- clift (GETBITS (nth i dist_extra 0)) ;;
      st <- mget ;;
      let dist := nth i dist_base 0 + v in
      if decide (Z.of_nat (Nat.min (wend (cs (cio st))) (emitted (cio st))) < dist) then
        codes_error "invalid distance too far back"
      else set_cmode (COPY len dist)
  | COPY len dist =>
      clift NEEDOUT ;;
      st <- mget ;;
      let s := cs (cio st) in
      clift (OUTBYTE (nth (copy_from s dist) (window s) 0)) ;;
      set_cmode (if decide (len <= 1) then START else COPY (len - 1) dist)
  | LIT c =>
      clift NEEDOUT ;;
      clift (OUTBYTE c) ;;
      set_cmode START
  | END =>
      clift (set_r Z_STREAM_END) ;; leave
  | BADCODE =>
      clift (set_r Z_DATA_ERROR) ;; leave
  end.

Fixpoint codes_loop (fuel : nat) : M cstate unit :=
  match fuel with
  | O => leave
  | S fuel' => codes_step ;; codes_loop fuel'
  end.

(** Enough turns: every turn that does not leave consumes a bit of
    input or a byte of room, or moves to a mode nearer to doing so. *)
Definition codes_fuel (c : ctx) : nat :=
  (4 * (Z.to_nat (bitk (cs c)) + 8 * avail_in (cz c) + avail_out (cz c) + wend (cs c)) + 8)%nat.

Definition run_codes (cd : codes) (c : ctx) : codes * ctx :=
  let st := res_state (codes_loop (codes_fuel c) (mk_cstate cd c)) in
  (cdec st, cio st).
End Codes.

(** [inflate_codes_new]: one object of the allocator. *)
Definition codes_new (bl bd : Z) (tl td : htable) (z : z_stream) : option (codes * z_stream) :=
  match zalloc ObjCodes z with
  | None => None
  | Some z' => Some (mk_codes START bl bd tl td, z')
  end.

(** [inflate_codes_free]: the decoder and the tables it owns. *)
Definition codes_free (cd : codes) (z : z_stream) : z_stream :=
  trees_free (dtree cd) (trees_free (ltree cd) (zfree ObjCodes z)).

#[export] Instance bitwise_codes (ulong_bits : Z) : CodesDecoder := {
  codes_state := codes;
  inflate_codes_new := codes_new;
  inflate_codes := run_codes ulong_bits;
  inflate_codes_free := codes_free }.

(** The same decoder over the builder that checks the meta table. *)
Definition checked_codes (ulong_bits : Z) : @CodesDecoder checked_trees :=
  @Build_CodesDecoder checked_trees codes codes_new (run_codes ulong_bits) codes_free.

(** ** The constructor and the destructor touch only the allocator *)

#[export] Instance bitwise_heap (ulong_bits : Z) : @HeapLaws _ (bitwise_codes ulong_bits).
Proof.
  split; simpl.
  - apply trees_bits_heap_frame.
  - apply trees_dynamic_heap_frame.
  - apply trees_free_heap_frame.
  - intros bl bd tl td z cd z'. unfold codes_new.
    destruct (zalloc ObjCodes z) eqn:E; intros H; inversion H; subst.
    eapply heap_frame_zalloc; eauto.
  - intros cd z. unfold codes_free.
    eauto using heap_frame_trans, trees_free_heap_frame with inflate.
Qed.

(** The checked builder frees the table it rejects and sets the message:
    still only the allocator and the message change. *)
Lemma trees_bits_checked_heap (c : list Z) (bb : Z) (z : z_stream) :
  heap_frame z (snd (trees_bits_checked c bb z)).
Proof.
  unfold trees_bits_checked. pose proof (trees_bits_heap_frame c bb z) as H.
  destruct (trees_bits c bb z) as [[[w t]|e] z']; cbn in *; [|exact H].
  destruct (bits_covered w t); cbn; [exact H|].
  eauto using heap_frame_trans, trees_free_heap_frame, heap_frame_msg.
Qed.

#[export] Instance checked_heap (ulong_bits : Z) : @HeapLaws _ (checked_codes ulong_bits).
Proof.
  destruct (bitwise_heap ulong_bits) as [_ H2 H3 H4 H5].
  split; [apply trees_bits_checked_heap|exact H2|exact H3|exact H4|exact H5].
Qed.
