(* ===== verification/Blocks.v ===== *)
(** * The block decoder: [inflate_blocks] (src/infblock.c)

    [struct inflate_blocks_state] is [blocks_state]: the mode, with the
    member of the union [sub] that the mode uses carried by the mode
    itself ([STORED left], [BTREE]/[DTREE trees], [CODES codes]), the
    flag [last], and the context [io] (mode-independent fields, stream,
    status).  Each [case] of the [switch (s->mode)] of [inflate_blocks]
    is one definition; a fall-through to the next case is a call of it,
    a [break] ends the definition (the loop [blocks_loop] dispatches
    again), and [LEAVE] is [leave].  The width of [unsigned long] is the
    section variable [ulong_bits]. *)

From Stdlib Require Import ZArith Lia List String.
From stdpp Require Import base list.
From S2P Require Import Prelude Zlib BitBuf Window Interfaces.

Open Scope Z_scope.

(** [local uInt border[]]: the order of the code length code lengths. *)
Definition border : list Z :=
  [16; 17; 18; 0; 8; 7; 9; 6; 10; 5; 11; 4; 12; 3; 13; 2; 14; 1; 15].

Section Blocks.
Context `{TB : TreeBuilder} `{CD : @CodesDecoder TB}.
Variable ulong_bits : Z.

(** [s->sub.trees]: the state of the header of a dynamic block. *)
Record trees_state := mk_trees {
  table : Z;          (* 14 bits of HLIT, HDIST, HCLEN *)
  index : nat;        (* index into blens (or border) *)
  blens : list Z;     (* bit lengths of codes *)
  bb : Z;             (* bit length tree depth *)
  tb : option huft }. (* bit length decoding tree *)

Definition set_blens (t : trees_state) (l : list Z) (i : nat) : trees_state :=
  mk_trees (table t) i l (bb t) (tb t).

Definition set_tb (t : trees_state) (w : Z) (h : option huft) : trees_state :=
  mk_trees (table t) (index t) (blens t) w h.

(** [inflate_block_mode], with the member of [sub] each mode uses. *)
Inductive block_mode :=
  | TYPE
  | LENS
  | STORED (left : nat)
  | TABLE
  | BTREE (t : trees_state)
  | DTREE (t : trees_state)
  | CODES (c : codes_state)
  | DRY
  | DONE
  | INF_ERROR.

Record blocks_state := mk_blocks {
  mode : block_mode;
  last : bool;
  io : ctx }.

Definition set_mode (m : block_mode) : M blocks_state unit :=
  mmodify (fun st => mk_blocks m (last st) (io st)).

(** Run a macro of [infutil.h] on the shared context. *)
Definition lift {A} (m : M ctx A) : M blocks_state A :=
  fun st => match m (io st) with
            | Cont a c => Cont a (mk_blocks (mode st) (last st) c)
            | Exit c => Exit (mk_blocks (mode st) (last st) c)
            end.

(** [z->msg = m; r = Z_DATA_ERROR; s->mode = INF_ERROR; LEAVE] *)
Definition data_error {A} (m : string) : M blocks_state A :=
  set_mode INF_ERROR ;;
  lift (upd_z (fun z => z_set_msg z m)) ;;
  lift (set_r Z_DATA_ERROR) ;;
  leave.

(** [case DONE: r = Z_STREAM_END; LEAVE] *)
Definition case_DONE : M blocks_state unit :=
  lift (set_r Z_STREAM_END) ;; leave.

(** [case INF_ERROR: r = Z_DATA_ERROR; LEAVE] *)
Definition case_INF_ERROR : M blocks_state unit :=
  lift (set_r Z_DATA_ERROR) ;; leave.

(** [case DRY: FLUSH if (s->read != s->write) LEAVE s->mode = DONE;]
    then on into DONE. *)
Definition case_DRY : M blocks_state unit :=
  lift FLUSH ;;
  st <- mget ;;
  if decide (read (cs (io st)) <> write (cs (io st))) then leave
  else set_mode DONE ;; case_DONE.

(** [case CODES]: run the codes decoder; unless it reports the end of
    the block, flush and return its status.  At the end of a block free
    the decoder and go to TYPE, or, after the last block, give back one whole byte of
    read-ahead and go on into DRY. *)
Definition case_CODES (cd : codes_state) : M blocks_state unit :=
  st <- mget ;;
  let '(cd', c') := inflate_codes cd (io st) in
  mmodify (fun st => mk_blocks (CODES cd') (last st) c') ;;
  if decide (cr c' <> Z_STREAM_END) then leave
  else
    lift (set_r Z_OK) ;;
    lift (upd_z (inflate_codes_free cd')) ;;
    if negb (last st) then set_mode TYPE
    else
      (if decide (7 < bitk (cs c')) then
         lift (upd_s (fun s => set_bits s (bitb s) (bitk s - 8))) ;;
         lift (upd_z z_return_byte)
       else mret tt) ;;
      set_mode DRY ;;
      case_DRY.

(** ** Dynamic block headers *)

(** [258 + (t & 0x1f) + ((t >> 5) & 0x1f)]: the number of code lengths
    of a dynamic block (HLIT + 257 literal/length, HDIST + 1 distance). *)
Definition dtree_total (t : Z) : nat :=
  Z.to_nat (258 + Z.land t 0x1f + Z.land (Z.shiftr t 5) 0x1f).

(** [do { s->sub.trees.blens[i++] = c; } while (--j);] *)
Fixpoint fill_lens (l : list Z) (i j : nat) (c : Z) : list Z :=
  match j with
  | O => l
  | S j' => fill_lens (<[i := c]> l) (S i) j' c
  end.

(** [h = s->sub.trees.tb + idx; (h->word.what.Bits, h->more.Base)] *)
Definition meta_entry (tr : trees_state) (idx : Z) : Z * Z :=
  match tb tr with
  | Some h => (huft_bits h idx, huft_base h idx)
  | None => (0, 0)
  end.

(** The loop of [case DTREE]: decode code lengths until [index]
    reaches [dtree_total].  Each turn adds at least one length, so
    [dtree_total - index] turns are enough ([dtree_loop_total]). *)
Fixpoint dtree_loop (fuel : nat) (tr : trees_state) : M blocks_state trees_state :=
  match fuel with
  | O => mret tr
  | S fuel' =>
    if decide (index tr < dtree_total (table tr))%nat then
      lift (NEEDBITS ulong_bits (bb tr)) ;;
      st <- mget ;;
      let '(t, c) := meta_entry tr (Z.land (bitb (cs (io st))) (inflate_mask (bb tr))) in
      if decide (c < 16) then
        lift (DUMPBITS t) ;;
        let tr' := set_blens tr (<[index tr := c]> (blens tr)) (S (index tr)) in
        set_mode (DTREE tr') ;;
        dtree_loop fuel' tr'
      else
        let i := if decide (c = 18) then 7 else c - 14 in
        let j := if decide (c = 18) then 11 else 3 in
        lift (NEEDBITS ulong_bits (t + i)) ;;
        lift (DUMPBITS t) ;;
        st <- mget ;;
        let j := j + Z.land (bitb (cs (io st))) (inflate_mask i) in
        lift (DUMPBITS i) ;;
        let i := index tr in
        if decide (Z.of_nat i + j > Z.of_nat (dtree_total (table tr))
                   \/ (c = 16 /\ (i < 1)%nat)) then
          data_error "invalid bit length repeat"
        else
          let c := if decide (c = 16) then nth (i - 1) (blens tr) 0 else 0 in
          let tr' := set_blens tr (fill_lens (blens tr) i (Z.to_nat j) c)
                                  (i + Z.to_nat j) in
          set_mode (DTREE tr') ;;
          dtree_loop fuel' tr'
    else mret tr
  end.

(** After the loop of [case DTREE]: free the meta table, build the
    literal/length and distance tables (widths 9 and 6), make the codes
    decoder (freeing the two tables if that fails), free the lengths
    and go on into CODES. *)
Definition dtree_build (tr : trees_state) : M blocks_state unit :=
  (match tb tr with
   | Some h => lift (upd_z (inflate_trees_free h))
   | None => mret tt
   end) ;;
  let tr := set_tb tr (bb tr) None in
  set_mode (DTREE tr) ;;
  st <- mget ;;
  let t := table tr in
  let '(res, z') := inflate_trees_dynamic (257 + Z.land t 0x1f)
                      (1 + Z.land (Z.shiftr t 5) 0x1f) (blens tr) 9 6 (cz (io st)) in
  lift (upd_z (fun _ => z')) ;;
  match res with
  | BuildFailed e =>
      (if decide (e = Z_DATA_ERROR) then set_mode INF_ERROR else mret tt) ;;
      lift (set_r e) ;;
      leave
  | Built (bl, bd, tl, td) =>
      match inflate_codes_new bl bd tl td z' with
      | None =>
          lift (upd_z (inflate_trees_free td)) ;;
          lift (upd_z (inflate_trees_free tl)) ;;
          lift (set_r Z_MEM_ERROR) ;; leave
      | Some (cd, z'') =>
          lift (upd_z (fun _ => zfree ObjBlens z'')) ;;
          set_mode (CODES cd) ;;
          case_CODES cd
      end
  end.

Definition case_DTREE (tr : trees_state) : M blocks_state unit :=
  tr <- dtree_loop (dtree_total (table tr) - index tr) tr ;;
  dtree_build tr.

(** [border[i]] as an index. *)
Definition border_at (i : nat) : nat := Z.to_nat (nth i border 0).

(** [s->sub.trees.blens[border[s->sub.trees.index++]] = v] *)
Definition btree_put (tr : trees_state) (v : Z) : trees_state :=
  set_blens tr (<[border_at (index tr) := v]> (blens tr)) (S (index tr)).

(** [while (index < 4 + (table >> 10)) { NEEDBITS(3)
    blens[border[index++]] = (uInt)b & 7; DUMPBITS(3) }], run [n]
    times, [n] being the number of lengths still to read. *)
Fixpoint btree_read (n : nat) (tr : trees_state) : M blocks_state trees_state :=
  match n with
  | O => mret tr
  | S n' =>
      lift (NEEDBITS ulong_bits 3) ;;
      st <- mget ;;
      let tr' := btree_put tr (Z.land (bitb (cs (io st))) 7) in
      set_mode (BTREE tr') ;;
      lift (DUMPBITS 3) ;;
      btree_read n' tr'
  end.

(** [while (index < 19) blens[border[index++]] = 0;] *)
Fixpoint btree_zero (n : nat) (tr : trees_state) : trees_state :=
  match n with
  | O => tr
  | S n' => btree_zero n' (btree_put tr 0)
  end.

(** The end of [case BTREE]: build the meta table; on failure return
    the builder's status (INF_ERROR for [Z_DATA_ERROR]); on success go
    on into DTREE from index 0. *)
Definition btree_build (tr : trees_state) : M blocks_state unit :=
  st <- mget ;;
  let '(res, z') := inflate_trees_bits (blens tr) (bb tr) (cz (io st)) in
  lift (upd_z (fun _ => z')) ;;
  match res with
  | BuildFailed e =>
      lift (set_r e) ;;
      (if decide (e = Z_DATA_ERROR) then set_mode INF_ERROR else mret tt) ;;
      leave
  | Built (w, h) =>
      let tr := set_blens (set_tb tr w (Some h)) (blens tr) 0 in
      set_mode (DTREE tr) ;;
      case_DTREE tr
  end.

(** [case BTREE]: read the HCLEN + 4 code length code lengths, zero the
    others, set the root width to 7 and build the meta table. *)
Definition case_BTREE (tr : trees_state) : M blocks_state unit :=
  tr <- btree_read (4 + Z.to_nat (Z.shiftr (table tr) 10) - index tr) tr ;;
  let tr := btree_zero (19 - index tr) tr in
  let tr := set_tb tr 7 (tb tr) in
  set_mode (BTREE tr) ;;
  btree_build tr.

(** [case TABLE]: read HLIT, HDIST and HCLEN, reject more than 29 +
    257 literal/length or 29 + 1 distance codes, allocate the lengths
    and go on into BTREE. *)
Definition case_TABLE : M blocks_state unit :=
  lift (NEEDBITS ulong_bits 14) ;;
  st <- mget ;;
  let t := Z.land (bitb (cs (io st))) 0x3fff in
  if decide (Z.land t 0x1f > 29 \/ Z.land (Z.shiftr t 5) 0x1f > 29) then
    data_error "too many length or distance symbols"
  else
    let n := 258 + Z.land t 0x1f + Z.land (Z.shiftr t 5) 0x1f in
    let n := if decide (n < 19) then 19 else n in
    match zalloc ObjBlens (cz (io st)) with
    | None => lift (set_r Z_MEM_ERROR) ;; leave
    | Some z' =>
        lift (upd_z (fun _ => z')) ;;
        lift (DUMPBITS 14) ;;
        let tr := mk_trees t 0 (repeat 0 (Z.to_nat n)) 0 None in
        set_mode (BTREE tr) ;;
        case_BTREE tr
    end.

(** ** Stored blocks *)

(** [do { NEEDBYTE NEEDOUT OUTBYTE(NEXTBYTE) } while (--s->sub.left);]
    with [left] bytes to go; the mode records the count after each
    byte, as [s->sub.left] does. *)
Fixpoint stored_copy (left : nat) : M blocks_state unit :=
  match left with
  | O => mret tt
  | S left' =>
      lift NEEDBYTE ;;
      lift NEEDOUT ;;
      x <- lift NEXTBYTE ;;
      lift (OUTBYTE x) ;;
      set_mode (STORED left') ;;
      match left' with
      | O => mret tt
      | S _ => stored_copy left'
      end
  end.

(** [case STORED]: copy, then [s->mode = s->last ? DRY : TYPE]. *)
Definition case_STORED (left : nat) : M blocks_state unit :=
  stored_copy left ;;
  st <- mget ;;
  set_mode (if last st then DRY else TYPE).

(** [~b] on an [unsigned long]. *)
Definition ulong_not (b : Z) : Z := ulong ulong_bits (Z.lnot b).

(** The test of [case LENS]: [(~b) >> 16 != (b & 0xffff)]. *)
Definition stored_lengths_bad (b : Z) : bool :=
  negb (Z.shiftr (ulong_not b) 16 =? Z.land b 0xffff).

(** [case LENS]: the 32 bits LEN and NLEN; [k = 0] drops them (the
    buffer [b] itself is left as it is); a length of 0 goes back to
    TYPE. *)
Definition case_LENS : M blocks_state unit :=
  lift (NEEDBITS ulong_bits 32) ;;
  st <- mget ;;
  let b := bitb (cs (io st)) in
  if stored_lengths_bad b then data_error "invalid stored block lengths"
  else
    lift (upd_s (fun s => set_bits s (bitb s) 0)) ;;
    let left := Z.to_nat (Z.land b 0xffff) in
    set_mode (match left with O => TYPE | S _ => STORED left end).

(** ** Block type *)

(** [case TYPE]: BFINAL into [s->last], then by BTYPE: stored (drop
    to a byte boundary, LENS), fixed (codes decoder on the fixed
    tables, CODES), dynamic (TABLE) or invalid. *)
Definition case_TYPE : M blocks_state unit :=
  lift (NEEDBITS ulong_bits 3) ;;
  st <- mget ;;
  let t := Z.land (bitb (cs (io st))) 7 in
  mmodify (fun st => mk_blocks (mode st) (Z.land t 1 =? 1) (io st)) ;;
  match Z.shiftr t 1 with
  | 0 =>
      lift (DUMPBITS 3) ;;
      st <- mget ;;
      lift (DUMPBITS (Z.land (bitk (cs (io st))) 7)) ;;
      set_mode LENS
  | 1 =>
      let '(bl, bd, tl, td) := inflate_trees_fixed in
      match inflate_codes_new bl bd tl td (cz (io st)) with
      | None => lift (set_r Z_MEM_ERROR) ;; leave
      | Some (cd, z') =>
          lift (upd_z (fun _ => z')) ;; lift (DUMPBITS 3) ;; set_mode (CODES cd)
      end
  | 2 =>
      lift (DUMPBITS 3) ;;
      set_mode TABLE
  | _ =>
      lift (DUMPBITS 3) ;;
      data_error "invalid block type"
  end.

(** ** The loop *)

(** One turn of [while (1) switch (s->mode)]. *)
Definition blocks_step : M blocks_state unit :=
  st <- mget ;;
  match mode st with
  | TYPE => case_TYPE
  | LENS => case_LENS
  | STORED n => case_STORED n
  | TABLE => case_TABLE
  | BTREE tr => case_BTREE tr
  | DTREE tr => case_DTREE tr
  | CODES cd => case_CODES cd
  | DRY => case_DRY
  | DONE => case_DONE
  | INF_ERROR => case_INF_ERROR
  end.

(** [while (1)], until a case leaves; [None] when the fuel runs out. *)
Fixpoint blocks_loop (fuel : nat) (st : blocks_state) : option blocks_state :=
  match fuel with
  | O => None
  | S fuel' =>
      match blocks_step st with
      | Exit st' => Some st'
      | Cont _ st' => blocks_loop fuel' st'
      end
  end.

(** [int inflate_blocks(s, z, r)]: the loop from the status [r] the
    caller passes, then [LEAVE]'s [return inflate_flush(s, z, r)]; the
    status returned is the [cr] of the result. *)
Definition inflate_blocks (fuel : nat) (st : blocks_state) (r : status) : option blocks_state :=
  match blocks_loop fuel (mk_blocks (mode st) (last st) (mk_ctx (cs (io st)) (cz (io st)) r)) with
  | Some st' => Some (mk_blocks (mode st') (last st') (inflate_flush (io st')))
  | None => None
  end.
End Blocks.

(** ** Terminal states *)

Section Terminal.
Context `{TB : TreeBuilder} `{CD : @CodesDecoder TB}.
Variable ulong_bits : Z.

(** C21: Once in INF_ERROR, every call of [inflate_blocks] returns
    [Z_DATA_ERROR] and stays in INF_ERROR, whatever the input. *)
Theorem inflate_blocks_inf_error (fuel : nat) (st : blocks_state) (r : status) :
  mode st = INF_ERROR ->
  exists st', inflate_blocks ulong_bits (S fuel) st r = Some st' /\
    mode st' = INF_ERROR /\ cr (io st') = Z_DATA_ERROR.
Proof.
  intros Hm. destruct st as [m l c]; simpl in Hm; subst m.
  eexists. split; [reflexivity|]. split; [reflexivity|].
  apply inflate_flush_cr_keep. discriminate.
Qed.

(** C22: Once in DONE, every call returns [Z_STREAM_END] and stays there. *)
Theorem inflate_blocks_done (fuel : nat) (st : blocks_state) (r : status) :
  mode st = DONE ->
  exists st', inflate_blocks ulong_bits (S fuel) st r = Some st' /\
    mode st' = DONE /\ cr (io st') = Z_STREAM_END.
Proof.
  intros Hm. destruct st as [m l c]; simpl in Hm; subst m.
  eexists. split; [reflexivity|]. split; [reflexivity|].
  apply inflate_flush_cr_keep. discriminate.
Qed.
End Terminal.

(** ** The stored-length test *)

(** The test at 32 bits, behind [stored_lengths_bad_32]. *)
Lemma stored_lengths_bad_32_eq (b : Z) :
  0 <= b < 2 ^ 32 ->
  stored_lengths_bad 32 b = negb (Z.shiftr b 16 =? Z.lxor (Z.land b 0xffff) 0xffff).
Proof.
  intros Hb. unfold stored_lengths_bad, ulong_not, ulong. f_equal.
  assert (E : Z.shiftr (Z.lnot b mod 2 ^ 32) 16 = Z.lxor (Z.shiftr b 16) 0xffff).
  { apply Z.bits_inj'. intros i Hi.
    rewrite Z.shiftr_spec, Z.lxor_spec, Z.shiftr_spec by lia.
    destruct (Z.ltb_spec (i + 16) 32).
    - rewrite Z.mod_pow2_bits_low, Z.lnot_spec by lia.
      change 0xffff with (Z.ones 16). rewrite Z.ones_spec_low by lia. reflexivity.
    - rewrite Z.mod_pow2_bits_high by lia.
      change 0xffff with (Z.ones 16). rewrite Z.ones_spec_high by lia.
      rewrite (Z_testbit_above b 32) by lia. reflexivity. }
  rewrite E.
  destruct (Z.eqb_spec (Z.lxor (Z.shiftr b 16) 0xffff) (Z.land b 0xffff)) as [H|H];
  destruct (Z.eqb_spec (Z.shiftr b 16) (Z.lxor (Z.land b 0xffff) 0xffff)) as [H'|H'];
    try reflexivity; exfalso.
  - apply H'. rewrite <- H, Z.lxor_assoc, Z.lxor_nilpotent, Z.lxor_0_r. reflexivity.
  - apply H. rewrite H', Z.lxor_assoc, Z.lxor_nilpotent, Z.lxor_0_r. reflexivity.
Qed.

(** C12: With a 32-bit [unsigned long] holding LEN in its low and NLEN in its
    high half, the test rejects exactly the pairs where NLEN is not the
    one's complement of LEN. *)
Theorem stored_lengths_bad_32 (b : Z) :
  0 <= b < 2 ^ 32 ->
  stored_lengths_bad 32 b = negb (Z.shiftr b 16 =? Z.lxor (Z.land b 0xffff) 0xffff).
Proof. apply stored_lengths_bad_32_eq. Qed.

(** The test on the two 16-bit fields: LEN in the low half, NLEN in
    the high half. *)
Lemma stored_lengths_bad_fields (len nlen : Z) :
  0 <= len < 2 ^ 16 -> 0 <= nlen < 2 ^ 16 ->
  stored_lengths_bad 32 (len + nlen * 2 ^ 16) = negb (nlen =? Z.lxor len 0xffff).
Proof.
  intros Hl Hn. rewrite stored_lengths_bad_32_eq by lia.
  assert (E1 : Z.shiftr (len + nlen * 2 ^ 16) 16 = nlen).
  { rewrite Z.shiftr_div_pow2, Z.div_add by lia. rewrite Z.div_small by lia. lia. }
  assert (E2 : Z.land (len + nlen * 2 ^ 16) 0xffff = len).
  { change 0xffff with (Z.ones 16). rewrite Z.land_ones, Z.mod_add by lia. apply Z.mod_small. lia. }
  rewrite E1, E2. reflexivity.
Qed.

(** C11: With a 64-bit [unsigned long] the same test rejects every value the
    32 bits of LEN and NLEN can form: [~b] keeps the 32 high bits set,
    so [(~b) >> 16] is never below [2^16]. *)
Theorem stored_lengths_bad_64 (b : Z) :
  0 <= b < 2 ^ 32 -> stored_lengths_bad 64 b = true.
Proof.
  intros Hb. unfold stored_lengths_bad, ulong_not, ulong.
  destruct (Z.eqb_spec (Z.shiftr (Z.lnot b mod 2 ^ 64) 16) (Z.land b 0xffff)) as [H|]; [|reflexivity].
  exfalso. assert (Hbit : Z.testbit (Z.shiftr (Z.lnot b mod 2 ^ 64) 16) 20 = true).
  { rewrite Z.shiftr_spec by lia. rewrite Z.mod_pow2_bits_low, Z.lnot_spec by lia.
    rewrite (Z_testbit_above b 32) by lia. reflexivity. }
  rewrite H in Hbit. change 0xffff with (Z.ones 16) in Hbit.
  rewrite Z.land_spec, Z.ones_spec_high in Hbit by lia.
  rewrite andb_false_r in Hbit. discriminate.
Qed.

(** ** Running the cases: [lift] *)

Section Lift.
Context `{TB : TreeBuilder} `{CD : @CodesDecoder TB}.

Lemma lift_cont {A} (m : M ctx A) (st : blocks_state) (a : A) (c : ctx) :
  m (io st) = Cont a c -> lift m st = Cont a (mk_blocks (mode st) (last st) c).
Proof. unfold lift. intros ->. reflexivity. Qed.

Lemma lift_exit {A} (m : M ctx A) (st : blocks_state) (c : ctx) :
  m (io st) = Exit c -> lift (A := A) m st = Exit (mk_blocks (mode st) (last st) c).
Proof. unfold lift. intros ->. reflexivity. Qed.

(** Stepping through [lift m ;; k] from a state given field by field. *)
Lemma lift_bind_cont {A B} (m : M ctx A) (k : A -> M blocks_state B) md l c a c' :
  m c = Cont a c' -> mbind (lift m) k (mk_blocks md l c) = k a (mk_blocks md l c').
Proof. intros E. unfold mbind, lift. cbn [io]. rewrite E. reflexivity. Qed.

Lemma lift_bind_exit {A B} (m : M ctx A) (k : A -> M blocks_state B) md l c c' :
  m c = Exit c' -> mbind (lift m) k (mk_blocks md l c) = Exit (mk_blocks md l c').
Proof. intros E. unfold mbind, lift. cbn [io]. rewrite E. reflexivity. Qed.
End Lift.

(** ** The end of a compressed block *)

Section CodesEnd.
Context `{TB : TreeBuilder} `{CD : @CodesDecoder TB} `{HL : @HeapLaws TB CD}.

(** What the session holds after the last block: the bit count after
    [case CODES] gives back a whole byte when it holds one, and the
    input cursor moved back over it. *)
Definition give_back (k : Z) (ni ai : nat) : Z * nat * nat :=
  if decide (7 < k) then (k - 8, pred ni, S ai) else (k, ni, ai).

(** C18: When the codes decoder reports the end of the block: after a block
    that is not the last, the decoder is freed and the mode is TYPE with
    [Z_OK]; after the last one, with fewer than 16 bits left, one whole
    byte is given back to the input, at most 7 bits stay, and the
    session ends in DRY (output pending) or DONE. *)
Theorem case_CODES_end (cd cd' : codes_state) (st : blocks_state) (c' : ctx) :
  mode st = CODES cd -> inflate_codes cd (io st) = (cd', c') -> cr c' = Z_STREAM_END ->
  0 <= bitk (cs c') < 16 ->
  let z := inflate_codes_free cd' (cz c') in
  if last st then
    exists st', case_CODES cd st = Exit st' /\ (mode st' = DRY \/ mode st' = DONE) /\
      (bitk (cs (io st')), next_in (cz (io st')), avail_in (cz (io st')))
        = give_back (bitk (cs c')) (next_in (cz c')) (avail_in (cz c')) /\
      0 <= bitk (cs (io st')) <= 7 /\ zlive (cz (io st')) = zlive z
  else
    case_CODES cd st = Cont tt (mk_blocks TYPE false (mk_ctx (cs c') z Z_OK)).
Proof.
  intros Hm E Hr Hk z. destruct st as [md l c]; cbn [mode io last] in *; subst md.
  pose proof (codes_free_heap cd' (cz c')) as Hf.
  assert (Hni : next_in (inflate_codes_free cd' (cz c')) = next_in (cz c')) by (rewrite Hf; reflexivity).
  assert (Hai : avail_in (inflate_codes_free cd' (cz c')) = avail_in (cz c')) by (rewrite Hf; reflexivity).
  unfold case_CODES. cbn [mbind mget io]. rewrite E. cbn [mbind mmodify].
  rewrite Hr. case_decide; [congruence|]. destruct l; [|reflexivity].
  unfold give_back. cbn [mbind lift set_r upd_z upd_s mmodify mode last io cs cz cr negb set_mode].
  case_decide; cbn [mbind mret lift set_r upd_z upd_s mmodify mode last io cs cz cr set_mode case_DRY FLUSH mget];
    unfold case_DRY, FLUSH, case_DONE; cbn [mbind mret lift set_r upd_z upd_s mmodify mode last io cs cz cr set_mode mget leave];
    match goal with |- context [inflate_flush ?x] =>
      destruct (inflate_flush_input x) as (Hk' & _ & Hn & Ha & Hl & _) end;
    case_decide; (eexists; split; [reflexivity|]); cbn [mode io cs cz];
    rewrite ?Hk', ?Hn, ?Ha, ?Hl; cbn; rewrite ?Hni, ?Hai;
    (split; [tauto|split; [reflexivity|split; [lia|reflexivity]]]).
Qed.
End CodesEnd.

(** ** Stored block lengths *)

Section Lens.
Context `{TB : TreeBuilder} `{CD : @CodesDecoder TB}.
Variable ulong_bits : Z.

(** What [case LENS] goes to for a length [LEN]. *)
Definition lens_next (len : Z) : block_mode :=
  match Z.to_nat len with O => TYPE | S _ => STORED (Z.to_nat len) end.

(** The run of [case LENS] behind [case_LENS_spec]. *)
Lemma case_LENS_run (st : blocks_state) :
  32 <= ulong_bits -> bitbuf_ok ulong_bits (io st) ->
  bitk (cs (io st)) <= 32 -> bitk (cs (io st)) mod 8 = 0 ->
  32 <= bitk (cs (io st)) + 8 * Z.of_nat (avail_in (cz (io st))) ->
  let S := stream_bits (io st) in
  let LEN := le_value (take 16 S) in
  let NLEN := le_value (take 16 (drop 16 S)) in
  if stored_lengths_bad ulong_bits (LEN + NLEN * 2 ^ 16) then
    exists st', case_LENS ulong_bits st = Exit st' /\
      mode st' = INF_ERROR /\ cr (io st') = Z_DATA_ERROR /\
      msg (cz (io st')) = Some "invalid stored block lengths"%string
  else
    exists st', case_LENS ulong_bits st = Cont tt st' /\
      mode st' = lens_next LEN /\ last st' = last st /\
      bitk (cs (io st')) = 0 /\ bitb (cs (io st')) = LEN + NLEN * 2 ^ 16 /\
      bytes_bits (pending_input (cz (io st'))) = drop 32 S /\ bits_frame (io st) (io st') /\
      input_ok (cz (io st')).
Proof.
  intros Hw Hok Hk32 Hk8 Hin S LEN NLEN.
  assert (Hfin : needbits_final 32 (bitk (cs (io st))) = 32)
    by (apply needbits_final_bytes; [destruct Hok; lia|exact Hk8|reflexivity]).
  destruct (NEEDBITS_enough ulong_bits 32 (io st) Hok ltac:(lia) Hin)
    as (c' & Hnb & Hok' & Hfr & Hst & Hk').
  rewrite Hfin in Hk'.
  destruct Hok' as (_ & Hb' & Hin').
  rewrite Hk' in Hb'.
  assert (HS : S = bits_of 32 (bitb (cs c')) ++ bytes_bits (pending_input (cz c'))).
  { subst S. rewrite <- Hst. unfold stream_bits. rewrite Hk'. reflexivity. }
  assert (Hb : LEN + NLEN * 2 ^ 16 = bitb (cs c')).
  { subst LEN NLEN. rewrite HS. apply (le_value_split (bitb (cs c')) 16 16). exact Hb'. }
  assert (HL : LEN = Z.land (bitb (cs c')) 0xffff).
  { subst LEN. rewrite HS. change 0xffff with (Z.ones 16). rewrite Z.land_ones by lia.
    apply (le_value_take_low _ 16 16). }
  unfold case_LENS. rewrite (mbind_cont _ _ _ _ _ (lift_cont _ _ _ _ Hnb)).
  cbn [mbind mget io cs]. rewrite Hb.
  destruct (stored_lengths_bad ulong_bits (bitb (cs c'))).
  - eexists. split; [reflexivity|]. split; [reflexivity|split; reflexivity].
  - eexists. split; [reflexivity|]. cbn.
    repeat split; try reflexivity.
    + unfold lens_next. rewrite HL. reflexivity.
    + rewrite HS, drop_app_length'; [reflexivity|]. rewrite length_bits_of. reflexivity.
    + refine (bits_frame_trans _ _ _ Hfr _). destruct c' as [[] [] r]. reflexivity.
    + exact (proj1 Hin').
    + exact (proj2 Hin').
Qed.

End Lens.

Section Lens32.
Context `{TB : TreeBuilder} `{CD : @CodesDecoder TB}.

(** C2: [case LENS] on a 32-bit [unsigned long], from a byte-aligned
    buffer with 32 bits available: LEN and NLEN are the next two 16-bit
    little-endian fields of the bit stream.  When NLEN is not LEN xor
    0xffff the decoder goes to INF_ERROR with [Z_DATA_ERROR] and the
    message invalid stored block lengths; otherwise to STORED LEN (TYPE
    when LEN is 0, whatever [last] says), with [k = 0] but [b] still
    holding [LEN + NLEN * 2^16], and the input right after the two
    fields. *)
Theorem case_LENS_spec (st : blocks_state) :
  bitbuf_ok 32 (io st) ->
  bitk (cs (io st)) <= 32 -> bitk (cs (io st)) mod 8 = 0 ->
  32 <= bitk (cs (io st)) + 8 * Z.of_nat (avail_in (cz (io st))) ->
  let S := stream_bits (io st) in
  let LEN := le_value (take 16 S) in
  let NLEN := le_value (take 16 (drop 16 S)) in
  if NLEN =? Z.lxor LEN 0xffff then
    exists st', case_LENS 32 st = Cont tt st' /\
      mode st' = lens_next LEN /\ last st' = last st /\
      bitk (cs (io st')) = 0 /\ bitb (cs (io st')) = LEN + NLEN * 2 ^ 16 /\
      bytes_bits (pending_input (cz (io st'))) = drop 32 S /\ bits_frame (io st) (io st') /\
      input_ok (cz (io st'))
  else
    exists st', case_LENS 32 st = Exit st' /\
      mode st' = INF_ERROR /\ cr (io st') = Z_DATA_ERROR /\
      msg (cz (io st')) = Some "invalid stored block lengths"%string.
Proof.
  intros Hok Hk Hk8 Hin. pose proof (case_LENS_run 32 st ltac:(lia) Hok Hk Hk8 Hin) as H. cbv zeta in *.
  rewrite stored_lengths_bad_fields in H by (split; [apply le_value_bound|];
    eapply Z.lt_le_trans; [apply le_value_bound|apply Z.pow_le_mono_r; rewrite ?length_take; lia]).
  destruct (_ =? _); exact H.
Qed.
End Lens32.

(** ** Stored blocks: the copy *)

Section Stored.
Context `{TB : TreeBuilder} `{CD : @CodesDecoder TB}.

(** What the copy keeps: the window and the input well formed, and the
    check value over exactly the delivered bytes. *)
Definition copy_inv (c : ctx) : Prop := window_ok (cs c) /\ input_ok (cz c) /\ check_inv c.

(** [st'] is [st] after [m] bytes were moved from the input to the
    output, in order, the bit buffer and [last] untouched. *)
Definition copied (m : nat) (st st' : blocks_state) : Prop :=
  let inp := pending_input (cz (io st)) in
  (m <= length inp)%nat /\ last st' = last st /\
  out_stream (io st') = out_stream (io st) ++ take m inp /\
  pending_input (cz (io st')) = drop m inp /\ copy_inv (io st') /\
  bitb (cs (io st')) = bitb (cs (io st)) /\ bitk (cs (io st')) = bitk (cs (io st)) /\
  room (cz (io st')) = room (cz (io st)).

Lemma copied_trans (m1 m2 : nat) (st1 st2 st3 : blocks_state) :
  copied m1 st1 st2 -> copied m2 st2 st3 -> copied (m1 + m2) st1 st3.
Proof.
  intros (Hm1 & Hl1 & Ho1 & Hp1 & _ & Hb1 & Hk1 & Hr1) (Hm2 & Hl2 & Ho2 & Hp2 & Hi2 & Hb2 & Hk2 & Hr2).
  rewrite Hp1, length_drop in Hm2. unfold copied.
  assert (Hm : (m1 + m2 <= length (pending_input (cz (io st1))))%nat) by lia.
  refine (conj Hm (conj (eq_trans Hl2 Hl1) (conj _ (conj _ (conj Hi2 (conj _ (conj _ _))))))).
  - rewrite Ho2, Ho1, Hp1, <- app_assoc, take_take_drop. reflexivity.
  - rewrite Hp2, Hp1, drop_drop. reflexivity.
  - congruence.
  - congruence.
  - congruence.
Qed.

(** [out_frame] keeps the input and the bit buffer. *)
Lemma out_frame_input (c c' : ctx) :
  out_frame c c' -> pending_input (cz c') = pending_input (cz c) /\
  input_ok (cz c') = input_ok (cz c) /\ avail_in (cz c') = avail_in (cz c) /\
  bitb (cs c') = bitb (cs c) /\ bitk (cs c') = bitk (cs c).
Proof. intros [Hs Hz]. rewrite Hs, Hz. destruct c as [[] [] r]. repeat split. Qed.

Lemma copied_refl (st st' : blocks_state) :
  copy_inv (io st) -> cs (io st') = cs (io st) -> cz (io st') = cz (io st) ->
  last st' = last st -> copied 0%nat st st'.
Proof.
  intros Hi Hs Hz Hl.
  assert (Hi' : copy_inv (io st')) by (unfold copy_inv, check_inv; rewrite Hs, Hz; exact Hi).
  unfold copied, out_stream. rewrite Hs, Hz, app_nil_r, drop_0.
  exact (conj (Nat.le_0_l _) (conj Hl (conj eq_refl (conj eq_refl (conj Hi' (conj eq_refl (conj eq_refl eq_refl))))))).
Qed.

(** One turn of the copy, [NEEDBYTE NEEDOUT OUTBYTE(NEXTBYTE)]: it
    leaves having copied nothing, for want of input or of output room,
    or it goes on having copied the first input byte. *)
Lemma stored_byte (st : blocks_state) (k : M blocks_state unit) :
  copy_inv (io st) ->
  let P := (lift NEEDBYTE ;; lift NEEDOUT ;; x <- lift NEXTBYTE ;; lift (OUTBYTE x) ;; k) in
  (exists st', P st = Exit st' /\ mode st' = mode st /\ copied 0%nat st st' /\
     (avail_in (cz (io st')) = 0%nat \/ avail_out (cz (io st')) = 0%nat)) \/
  (exists st1, P st = k st1 /\ mode st1 = mode st /\ copied 1%nat st st1).
Proof.
  destruct st as [md l c]. intros (Hw & Hin & Hchk) P. cbn [io] in *.
  destruct (avail_in (cz c)) as [|a] eqn:Ea.
  { left. exists (mk_blocks md l c).
    assert (E1 : NEEDBYTE c = Exit c) by (unfold NEEDBYTE; rewrite Ea; reflexivity).
    subst P. rewrite (mbind_exit _ _ _ _ (lift_exit NEEDBYTE (mk_blocks md l c) _ E1)).
    refine (conj eq_refl (conj eq_refl (conj _ (or_introl Ea)))).
    apply copied_refl; auto. split; auto. }
  set (c1 := mk_ctx (cs c) (cz c) Z_OK).
  assert (E1 : NEEDBYTE c = Cont tt c1) by (unfold NEEDBYTE; rewrite Ea; reflexivity).
  pose proof (NEEDOUT_spec c1 Hw) as H2.
  destruct (NEEDOUT c1) as [[] c2|c2] eqn:E2.
  - destruct H2 as (Hw2 & Hwa2 & _ & Ho2 & Hf2 & Hc2).
    destruct (out_frame_input _ _ Hf2) as (Hp2 & Hi2 & Ha2 & Hb2 & Hk2).
    destruct (NEXTBYTE_spec c2 ltac:(rewrite Hi2; exact Hin) ltac:(rewrite Ha2; cbn; lia))
      as (x & E3 & Hpx & Hx & Hin3).
    destruct (OUTBYTE_spec x (mk_ctx (cs c2) (z_take_byte (cz c2)) (cr c2)) Hw2 Hwa2)
      as (E4 & Hw4 & Ho4 & _ & Hc4).
    cbn [cs cz cr] in Ho4, Hw4, Hc4. right. eexists. split.
    { subst P. rewrite (mbind_cont _ _ _ _ _ (lift_cont NEEDBYTE (mk_blocks md l c) _ _ E1)).
      cbv beta. rewrite (mbind_cont _ _ _ _ _ (lift_cont NEEDOUT (mk_blocks md l c1) _ _ E2)).
      cbv beta. rewrite (mbind_cont _ _ _ _ _ (lift_cont NEXTBYTE (mk_blocks md l c2) _ _ E3)).
      cbv beta. rewrite (mbind_cont _ _ _ _ _ (lift_cont (OUTBYTE x) (mk_blocks md l _) _ _ E4)).
      reflexivity. }
    split; [reflexivity|]. unfold copied. cbn [io cs cz cr last].
    change (pending_input (cz c)) with (pending_input (cz c1)). rewrite <- Hp2, Hpx.
    rewrite Ho4, (land_byte x Hx). cbn [take drop length].
    refine (conj (le_n_S _ _ (Nat.le_0_l _)) (conj eq_refl (conj _ (conj eq_refl (conj (conj Hw4 (conj Hin3 _)) (conj Hb2 (conj Hk2 _))))))).
    + change (out_stream c2 ++ [x] = out_stream c1 ++ [x]). rewrite Ho2. reflexivity.
    + apply Hc4, Hc2, Hchk.
    + pose proof (NEEDOUT_room c1 Hw) as Hr. rewrite E2 in Hr. exact Hr.
  - destruct H2 as (Hw2 & Ha2 & Ho2 & Hf2 & Hc2).
    destruct (out_frame_input _ _ Hf2) as (Hp2 & Hi2 & _ & Hb2 & Hk2).
    left. exists (mk_blocks md l c2). split.
    { subst P. rewrite (mbind_cont _ _ _ _ _ (lift_cont NEEDBYTE (mk_blocks md l c) _ _ E1)).
      cbv beta. rewrite (mbind_exit _ _ _ _ (lift_exit NEEDOUT (mk_blocks md l c1) _ E2)).
      reflexivity. }
    split; [reflexivity|]. split; [|right; exact Ha2].
    unfold copied. cbn [io cs cz last]. rewrite app_nil_r, drop_0.
    change (pending_input (cz c)) with (pending_input (cz c1)).
    change (out_stream c) with (out_stream c1).
    refine (conj (Nat.le_0_l _) (conj eq_refl (conj Ho2 (conj Hp2 (conj (conj Hw2 (conj _ (Hc2 Hchk))) (conj Hb2 (conj Hk2 _))))))).
    + rewrite Hi2. exact Hin.
    + pose proof (NEEDOUT_room c1 Hw) as Hr. rewrite E2 in Hr. exact Hr.
Qed.

(** The run of the copy behind [stored_copy_spec], by induction on [left]. *)
Lemma stored_copy_run (left : nat) (st : blocks_state) :
  copy_inv (io st) -> mode st = STORED left ->
  exists m st',
    ((stored_copy left st = Cont tt st' /\ m = left) \/
     (stored_copy left st = Exit st' /\ (m < left)%nat /\
      (avail_in (cz (io st')) = 0%nat \/ avail_out (cz (io st')) = 0%nat))) /\
    mode st' = STORED (left - m) /\ copied m st st'.
Proof.
  revert st. induction left as [|l IH]; intros st Hi Hm.
  { exists 0%nat, st. split; [left; split; reflexivity|].
    split; [rewrite Hm; reflexivity|]. apply copied_refl; auto. }
  destruct (stored_byte st (set_mode (STORED l) ;;
                            match l with O => mret tt | S _ => stored_copy l end) Hi)
    as [(st' & E & Hm' & Hc & Ha) | (st1 & E & Hm1 & Hc1)].
  { exists 0%nat, st'. split; [right; split; [exact E|split; [lia|exact Ha]]|].
    split; [rewrite Hm', Hm; reflexivity|exact Hc]. }
  set (st2 := mk_blocks (STORED l) (last st1) (io st1)).
  assert (Hc2 : copied 1%nat st st2) by exact Hc1.
  destruct l as [|l'].
  { exists 1%nat, st2. split; [left; split; [exact E|reflexivity]|]. split; [reflexivity|exact Hc2]. }
  destruct (IH st2 (proj1 (proj2 (proj2 (proj2 (proj2 Hc2))))) eq_refl)
    as (m' & st' & Hrun & Hm2 & Hc').
  exists (S m'), st'. split; [|split; [rewrite Hm2; f_equal; lia|exact (copied_trans 1 m' _ _ _ Hc2 Hc')]].
  destruct Hrun as [[E' ->] | (E' & Hlt & Ha)].
  - left. split; [|reflexivity]. rewrite <- E'. exact E.
  - right. split; [rewrite <- E'; exact E|split; [lia|exact Ha]].
Qed.

(** C15: The copy of [case STORED] with [left] bytes to go moves the input
    bytes to the output one at a time, in order, none lost or repeated:
    it goes on having copied all [left] of them, or leaves, for want of
    input or of output room, having copied [m < left] of them and
    recorded [left - m] in the mode, so that the next call goes on from
    there.  The window and the check value stay consistent throughout,
    and the bit buffer is not touched. *)
Theorem stored_copy_spec (left : nat) (st : blocks_state) :
  copy_inv (io st) -> mode st = STORED left ->
  exists m st',
    ((stored_copy left st = Cont tt st' /\ m = left) \/
     (stored_copy left st = Exit st' /\ (m < left)%nat /\
      (avail_in (cz (io st')) = 0%nat \/ avail_out (cz (io st')) = 0%nat))) /\
    mode st' = STORED (left - m) /\ copied m st st'.
Proof. apply stored_copy_run. Qed.
End Stored.

(** ** Block type *)

Section BlockType.
Context `{TB : TreeBuilder} `{CD : @CodesDecoder TB} `{HL : @HeapLaws TB CD}.
Variable ulong_bits : Z.

(** The stored branch of [case TYPE]: after the three header bits, the
    rest of the byte is dropped. *)
Lemma type_stored_align (md : block_mode) (l : bool) (c : ctx) :
  bitbuf_ok ulong_bits c -> 3 <= bitk (cs c) ->
  exists c', (lift (DUMPBITS 3) ;; st <- mget ;;
              lift (DUMPBITS (Z.land (bitk (cs (io st))) 7)) ;; set_mode LENS)
             (mk_blocks md l c) = Cont tt (mk_blocks LENS l c') /\
    bitbuf_ok ulong_bits c' /\ bitk (cs c') mod 8 = 0 /\
    exists d, (3 <= d < 11)%nat /\ stream_bits c' = drop d (stream_bits c) /\ bits_frame c c'.
Proof.
  intros Hok Hk.
  destruct (DUMPBITS_spec ulong_bits 3 c Hok ltac:(lia)) as (c2 & E2 & Hok2 & Hf2 & Hs2 & Hk2).
  rewrite (lift_bind_cont _ _ _ _ _ _ _ E2). cbn [mbind mget io].
  assert (Hd : Z.land (bitk (cs c2)) 7 = bitk (cs c2) mod 8)
    by (change 7 with (Z.ones 3); rewrite Z.land_ones by lia; reflexivity).
  assert (Hj : 0 <= Z.land (bitk (cs c2)) 7 <= bitk (cs c2))
    by (rewrite Hd; pose proof (Z.mod_pos_bound (bitk (cs c2)) 8 ltac:(lia));
        pose proof (Z.mod_le (bitk (cs c2)) 8 ltac:(lia) ltac:(lia)); lia).
  destruct (DUMPBITS_spec ulong_bits (Z.land (bitk (cs c2)) 7) c2 Hok2 Hj)
    as (c3 & E3 & Hok3 & Hf3 & Hs3 & Hk3).
  rewrite (lift_bind_cont _ _ _ _ _ _ _ E3).
  assert (H8 : bitk (cs c3) mod 8 = 0) by (rewrite Hk3, Hd; apply Z_sub_mod_self).
  exists c3. refine (conj eq_refl (conj Hok3 (conj H8 _))).
  exists (3 + Z.to_nat (bitk (cs c2) mod 8))%nat.
  pose proof (Z.mod_pos_bound (bitk (cs c2)) 8 ltac:(lia)). split; [lia|].
  split; [rewrite Hs3, Hs2, drop_drop, Hd; reflexivity|exact (bits_frame_trans _ _ _ Hf2 Hf3)].
Qed.

(** The run of [case TYPE] behind [case_TYPE_spec]. *)
Lemma case_TYPE_run (st : blocks_state) :
  10 <= ulong_bits -> bitbuf_ok ulong_bits (io st) ->
  3 <= bitk (cs (io st)) + 8 * Z.of_nat (avail_in (cz (io st))) ->
  let S := stream_bits (io st) in
  let BFINAL := nth 0 S false in
  match le_value (take 2 (drop 1 S)) with
  | 0 => exists st', case_TYPE ulong_bits st = Cont tt st' /\ mode st' = LENS /\
           last st' = BFINAL /\ bitbuf_ok ulong_bits (io st') /\ bitk (cs (io st')) mod 8 = 0 /\
           exists d, (3 <= d < 11)%nat /\ stream_bits (io st') = drop d S /\ bits_frame (io st) (io st')
  | 1 => exists st',
           (case_TYPE ulong_bits st = Exit st' /\ mode st' = mode st /\
            cr (io st') = Z_MEM_ERROR /\ stream_bits (io st') = S) \/
           (case_TYPE ulong_bits st = Cont tt st' /\ (exists cd, mode st' = CODES cd) /\
            last st' = BFINAL /\ bitbuf_ok ulong_bits (io st') /\ stream_bits (io st') = drop 3 S)
  | 2 => exists st', case_TYPE ulong_bits st = Cont tt st' /\ mode st' = TABLE /\
           last st' = BFINAL /\ bitbuf_ok ulong_bits (io st') /\ stream_bits (io st') = drop 3 S
  | _ => exists st', case_TYPE ulong_bits st = Exit st' /\ mode st' = INF_ERROR /\
           cr (io st') = Z_DATA_ERROR /\ msg (cz (io st')) = Some "invalid block type"%string
  end.
Proof.
  destruct st as [md l c]. intros Hw Hok Hin S BFINAL. change (io (mk_blocks md l c)) with c in *.
  pose proof (proj1 Hok) as Hkw.
  pose proof (needbits_final_bounds 3 (bitk (cs c)) ltac:(apply Hok)) as Hfb.
  destruct (NEEDBITS_enough ulong_bits 3 c Hok ltac:(lia) Hin) as (c1 & E1 & Hok1 & Hf1 & Hs1 & Hk1).
  assert (Hlen : (3 <= length S)%nat) by (subst S; rewrite (length_stream_bits _ _ Hok); lia).
  assert (Ht : Z.land (bitb (cs c1)) 7 = le_value (take 3 S))
    by (subst S; rewrite <- Hs1; apply (peek_value ulong_bits 3 c1 Hok1); lia).
  destruct (header_bits S Hlen) as [Hlast Htype].
  assert (Hbt : 0 <= le_value (take 2 (drop 1 S)) < 4).
  { pose proof (le_value_bound (take 2 (drop 1 S))) as Hb.
    rewrite length_take, length_drop in Hb. replace (Nat.min 2 (length S - 1)) with 2%nat in Hb by lia.
    exact Hb. }
  unfold case_TYPE. rewrite (lift_bind_cont _ _ _ _ _ _ _ E1). cbn [mbind mget mmodify io cs mode last].
  rewrite Ht, Hlast, Htype.
  destruct (Z_0_to_3 _ Hbt) as [-> | [-> | [-> | ->]]]; cbv iota.
  - destruct (type_stored_align md (nth 0 S false) c1 Hok1 ltac:(lia))
      as (c' & E & Hok' & H8 & d & Hd & Hs' & Hf').
    eexists. refine (conj E (conj eq_refl (conj eq_refl (conj Hok' (conj H8 _))))).
    exists d. cbn [io]. rewrite Hs', Hs1. exact (conj Hd (conj eq_refl (bits_frame_trans _ _ _ Hf1 Hf'))).
  - destruct inflate_trees_fixed as [[[bl bd] tl] td].
    destruct (inflate_codes_new bl bd tl td (cz c1)) as [[cd z']|] eqn:Ec.
    + destruct (heap_frame_bits (cs c1) (cz c1) z' (cr c1) (cr c1) (codes_new_heap _ _ _ _ _ _ _ Ec))
        as (Hs' & Hi' & _).
      change (stream_bits (mk_ctx (cs c1) (cz c1) (cr c1))) with (stream_bits c1) in Hs'.
      assert (Hok1' : bitbuf_ok ulong_bits (mk_ctx (cs c1) z' (cr c1)))
        by (destruct Hok1 as (Hk & Hb & Hi); rewrite <- Hi' in Hi; exact (conj Hk (conj Hb Hi))).
      destruct (DUMPBITS_spec ulong_bits 3 _ Hok1' ltac:(cbn [cs]; lia)) as (c2 & E2 & Hok2 & _ & Hs2 & _).
      rewrite (lift_bind_cont (upd_z (fun _ => z')) _ _ _ c1 tt _ eq_refl).
      rewrite (lift_bind_cont _ _ _ _ _ _ _ E2).
      eexists. right. refine (conj eq_refl (conj (ex_intro _ cd eq_refl) (conj eq_refl (conj Hok2 _)))).
      cbn [io]. rewrite Hs2, Hs', Hs1. reflexivity.
    + rewrite (lift_bind_cont (set_r Z_MEM_ERROR) _ _ _ c1 tt _ eq_refl).
      eexists. left. exact (conj eq_refl (conj eq_refl (conj eq_refl Hs1))).
  - destruct (DUMPBITS_spec ulong_bits 3 c1 Hok1 ltac:(lia)) as (c2 & E2 & Hok2 & _ & Hs2 & _).
    rewrite (lift_bind_cont _ _ _ _ _ _ _ E2).
    eexists. refine (conj eq_refl (conj eq_refl (conj eq_refl (conj Hok2 _)))).
    cbn [io]. rewrite Hs2, Hs1. reflexivity.
  - destruct (DUMPBITS_spec ulong_bits 3 c1 Hok1 ltac:(lia)) as (c2 & E2 & _).
    rewrite (lift_bind_cont _ _ _ _ _ _ _ E2).
    eexists. exact (conj eq_refl (conj eq_refl (conj eq_refl eq_refl))).
Qed.

(** C14: [case TYPE] with the three header bits available: [last] becomes
    BFINAL, the first bit of the stream, and BTYPE, the next two bits,
    selects a stored block (LENS, with the rest of the byte dropped), a
    fixed block (CODES, or [Z_MEM_ERROR] with nothing consumed when the
    codes decoder cannot be allocated), a dynamic block (TABLE), or the
    error [invalid block type]. *)
Theorem case_TYPE_spec (st : blocks_state) :
  10 <= ulong_bits -> bitbuf_ok ulong_bits (io st) ->
  3 <= bitk (cs (io st)) + 8 * Z.of_nat (avail_in (cz (io st))) ->
  let S := stream_bits (io st) in
  let BFINAL := nth 0 S false in
  match le_value (take 2 (drop 1 S)) with
  | 0 => exists st', case_TYPE ulong_bits st = Cont tt st' /\ mode st' = LENS /\
           last st' = BFINAL /\ bitbuf_ok ulong_bits (io st') /\ bitk (cs (io st')) mod 8 = 0 /\
           exists d, (3 <= d < 11)%nat /\ stream_bits (io st') = drop d S /\ bits_frame (io st) (io st')
  | 1 => exists st',
           (case_TYPE ulong_bits st = Exit st' /\ mode st' = mode st /\
            cr (io st') = Z_MEM_ERROR /\ stream_bits (io st') = S) \/
           (case_TYPE ulong_bits st = Cont tt st' /\ (exists cd, mode st' = CODES cd) /\
            last st' = BFINAL /\ bitbuf_ok ulong_bits (io st') /\ stream_bits (io st') = drop 3 S)
  | 2 => exists st', case_TYPE ulong_bits st = Cont tt st' /\ mode st' = TABLE /\
           last st' = BFINAL /\ bitbuf_ok ulong_bits (io st') /\ stream_bits (io st') = drop 3 S
  | _ => exists st', case_TYPE ulong_bits st = Exit st' /\ mode st' = INF_ERROR /\
           cr (io st') = Z_DATA_ERROR /\ msg (cz (io st')) = Some "invalid block type"%string
  end.
Proof. apply case_TYPE_run. Qed.
End BlockType.

(** ** Dynamic block header: the header word *)

Section Table.
Context `{TB : TreeBuilder} `{CD : @CodesDecoder TB}.
Variable ulong_bits : Z.

(** C16: [case TABLE] with the 14 bits of the header word available: HLIT and
    HDIST are its first two 5-bit fields; more than 29 of either is
    [too many length or distance symbols]; otherwise the code lengths
    are allocated, [258 + HLIT + HDIST] of them (so that the test
    [t < 19] never holds), the header word is consumed and the decoder
    goes on into BTREE.  When the allocation fails the call returns
    [Z_MEM_ERROR] having consumed nothing. *)
Theorem case_TABLE_spec (st : blocks_state) :
  21 <= ulong_bits -> bitbuf_ok ulong_bits (io st) ->
  14 <= bitk (cs (io st)) + 8 * Z.of_nat (avail_in (cz (io st))) ->
  let bs := stream_bits (io st) in
  let HLIT := le_value (take 5 bs) in
  let HDIST := le_value (take 5 (drop 5 bs)) in
  if decide (HLIT > 29 \/ HDIST > 29) then
    exists st', case_TABLE ulong_bits st = Exit st' /\ mode st' = INF_ERROR /\
      cr (io st') = Z_DATA_ERROR /\
      msg (cz (io st')) = Some "too many length or distance symbols"%string
  else
    match zroom (cz (io st)) with
    | O => exists st', case_TABLE ulong_bits st = Exit st' /\ mode st' = mode st /\
             cr (io st') = Z_MEM_ERROR /\ stream_bits (io st') = bs
    | S room =>
        let tr := mk_trees (le_value (take 14 bs)) 0
                    (repeat 0 (Z.to_nat (258 + HLIT + HDIST))) 0 None in
        exists st', case_TABLE ulong_bits st = case_BTREE ulong_bits tr st' /\
          mode st' = BTREE tr /\ last st' = last st /\ bitbuf_ok ulong_bits (io st') /\
          stream_bits (io st') = drop 14 bs /\
          zlive (cz (io st')) = ObjBlens :: zlive (cz (io st)) /\ zroom (cz (io st')) = room
    end.
Proof.
  destruct st as [md l c]. intros Hw Hok Hin bs HLIT HDIST. change (io (mk_blocks md l c)) with c in *.
  pose proof (proj1 Hok) as Hkw. pose proof (needbits_final_bounds 14 _ (proj1 Hkw)) as Hfb.
  destruct (NEEDBITS_enough ulong_bits 14 c Hok ltac:(lia) Hin) as (c1 & E1 & Hok1 & Hfr1 & Hs1 & Hk1).
  destruct (bits_frame_heap _ _ Hfr1) as [Hroom Hlive].
  assert (Ht : Z.land (bitb (cs c1)) 0x3fff = le_value (take 14 bs))
    by (subst bs; rewrite <- Hs1; apply (peek_value ulong_bits 14 c1 Hok1); lia).
  assert (Hl : Z.land (le_value (take 14 bs)) 0x1f = HLIT)
    by (change 0x1f with (Z.ones (Z.of_nat 5)); rewrite le_value_low, take_take; reflexivity).
  assert (Hd : Z.land (Z.shiftr (le_value (take 14 bs)) 5) 0x1f = HDIST).
  { change 0x1f with (Z.ones (Z.of_nat 5)). change 5 with (Z.of_nat 5) at 1.
    rewrite le_value_field, skipn_firstn_comm, take_take. reflexivity. }
  pose proof (le_value_bound (take 5 bs)) as Hl0. pose proof (le_value_bound (take 5 (drop 5 bs))) as Hd0.
  unfold case_TABLE. rewrite (lift_bind_cont _ _ _ _ _ _ _ E1). cbn [mbind mget io cs].
  rewrite Ht, Hl, Hd.
  destruct (decide (HLIT > 29 \/ HDIST > 29)) as [Hbad|Hgood].
  { eexists. exact (conj eq_refl (conj eq_refl (conj eq_refl eq_refl))). }
  rewrite (decide_False (P := 258 + HLIT + HDIST < 19)) by (subst HLIT HDIST; lia).
  unfold zalloc. rewrite Hroom. destruct (zroom (cz c)) as [|room].
  { rewrite (lift_bind_cont (set_r Z_MEM_ERROR) _ _ _ c1 tt _ eq_refl).
    eexists. exact (conj eq_refl (conj eq_refl (conj eq_refl Hs1))). }
  set (z' := z_set_heap (cz c1) (ObjBlens :: zlive (cz c1)) room).
  destruct (heap_frame_bits (cs c1) (cz c1) z' (cr c1) (cr c1) eq_refl) as (Hs' & Hi' & _).
  change (stream_bits (mk_ctx (cs c1) (cz c1) (cr c1))) with (stream_bits c1) in Hs'.
  assert (Hok1' : bitbuf_ok ulong_bits (mk_ctx (cs c1) z' (cr c1)))
    by (destruct Hok1 as (Hk & Hb & Hi); rewrite <- Hi' in Hi; exact (conj Hk (conj Hb Hi))).
  destruct (DUMPBITS_spec ulong_bits 14 _ Hok1' ltac:(cbn [cs]; lia)) as (c2 & E2 & Hok2 & Hfr2 & Hs2 & _).
  destruct (bits_frame_heap _ _ Hfr2) as [Hroom2 Hlive2].
  rewrite (lift_bind_cont (upd_z (fun _ => z')) _ _ _ c1 tt _ eq_refl).
  rewrite (lift_bind_cont _ _ _ _ _ _ _ E2). cbn [mbind set_mode mmodify mode last io].
  eexists. refine (conj eq_refl (conj eq_refl (conj eq_refl (conj Hok2 (conj _ (conj _ _)))))).
  - cbn [io]. rewrite Hs2, Hs', Hs1. reflexivity.
  - cbn [io]. rewrite Hlive2. cbn. rewrite Hlive. reflexivity.
  - cbn [io]. rewrite Hroom2. reflexivity.
Qed.
End Table.

(** ** Dynamic block header: the code length code lengths *)

Section Btree.
Context `{TB : TreeBuilder} `{CD : @CodesDecoder TB}.
Variable ulong_bits : Z.

(** The first [n] 3-bit fields of a bit sequence. *)
Definition fields3 (n : nat) (l : list bool) : list Z :=
  map (fun i => le_value (take 3 (drop (3 * i) l))) (seq 0 n).

(** [btree_put] for each of [vals] in turn. *)
Definition btree_fill (tr : trees_state) (vals : list Z) : trees_state :=
  fold_left btree_put vals tr.

Lemma fields3_S (n : nat) (l : list bool) :
  fields3 (S n) l = le_value (take 3 l) :: fields3 n (drop 3 l).
Proof.
  unfold fields3. cbn [seq map]. f_equal. rewrite <- seq_shift, map_map.
  apply map_ext. intros i. rewrite drop_drop. f_equal. f_equal. f_equal. lia.
Qed.

(** C17: The loop of [case BTREE] reading [n] lengths: each is the next
    3-bit field of the stream, stored at [border[index]]; when the input
    runs out the lengths read so far are recorded in the mode, so that
    the next call resumes with the next one. *)
Theorem btree_read_spec (n : nat) (tr : trees_state) (st : blocks_state) :
  10 <= ulong_bits -> bitbuf_ok ulong_bits (io st) -> mode st = BTREE tr ->
  let bs := stream_bits (io st) in
  exists m st', (m <= n)%nat /\
    ((btree_read ulong_bits n tr st = Cont (btree_fill tr (fields3 m bs)) st' /\ m = n) \/
     (btree_read ulong_bits n tr st = Exit st' /\ (m < n)%nat /\
      avail_in (cz (io st')) = 0%nat /\ bitk (cs (io st')) < 3)) /\
    mode st' = BTREE (btree_fill tr (fields3 m bs)) /\ last st' = last st /\
    bitbuf_ok ulong_bits (io st') /\ bits_frame (io st) (io st') /\
    stream_bits (io st') = drop (3 * m) bs.
Proof.
  revert tr st. induction n as [|n IH]; intros tr [md l c] Hw Hok Hm bs; cbn [io mode last] in *.
  { exists 0%nat, (mk_blocks md l c). subst md.
    exact (conj (le_n 0) (conj (or_introl (conj eq_refl eq_refl))
             (conj eq_refl (conj eq_refl (conj Hok (conj (bits_frame_refl c) eq_refl)))))). }
  pose proof (proj1 Hok) as Hkw. pose proof (needbits_final_bounds 3 _ (proj1 Hkw)) as Hfb.
  pose proof (NEEDBITS_spec ulong_bits 3 c Hok ltac:(lia)) as H1.
  destruct (NEEDBITS ulong_bits 3 c) as [[] c1|c1] eqn:E1.
  2: { destruct H1 as (Hok1 & Hfr1 & Hs1 & Ha1 & Hk1).
       exists 0%nat, (mk_blocks md l c1). subst md. cbn [btree_read].
       rewrite (lift_bind_exit _ _ _ _ _ _ E1).
       refine (conj (Nat.le_0_l _) (conj (or_intror (conj eq_refl (conj (Nat.lt_0_succ n) (conj Ha1 Hk1))))
                 (conj eq_refl (conj eq_refl (conj Hok1 (conj Hfr1 _)))))).
       cbn [io]. rewrite Hs1. reflexivity. }
  destruct H1 as (Hok1 & Hfr1 & Hs1 & Hk1).
  assert (Hv : Z.land (bitb (cs c1)) 7 = le_value (take 3 bs))
    by (subst bs; rewrite <- Hs1; apply (peek_value ulong_bits 3 c1 Hok1); lia).
  destruct (DUMPBITS_spec ulong_bits 3 c1 Hok1 ltac:(lia)) as (c2 & E2 & Hok2 & Hfr2 & Hs2 & _).
  set (tr1 := btree_put tr (le_value (take 3 bs))).
  destruct (IH tr1 (mk_blocks (BTREE tr1) l c2) Hw Hok2 eq_refl)
    as (m & st' & Hmn & Hrun & Hm' & Hl' & Hok' & Hfr' & Hs').
  cbn [io last] in Hrun, Hm', Hfr', Hs', Hl'.
  rewrite Hs2, Hs1 in Hrun, Hm', Hs'. fold bs in Hrun, Hm', Hs'.
  assert (Hfill : btree_fill tr1 (fields3 m (drop 3 bs)) = btree_fill tr (fields3 (S m) bs))
    by (rewrite fields3_S; reflexivity).
  exists (S m), st'. rewrite <- Hfill.
  refine (conj (le_n_S _ _ Hmn) (conj _ (conj Hm' (conj Hl' (conj Hok' (conj _ _)))))).
  - cbn [btree_read]. rewrite (lift_bind_cont _ _ _ _ _ _ _ E1). cbn [mbind mget io cs].
    rewrite Hv. cbn [mbind set_mode mmodify mode last io]. fold tr1.
    rewrite (lift_bind_cont _ _ _ _ _ _ _ E2).
    destruct Hrun as [[E ->] | (E & Hlt & Ha)]; [left; split; [exact E|reflexivity]|].
    right. exact (conj E (conj (le_n_S _ _ Hlt) Ha)).
  - exact (bits_frame_trans _ _ _ Hfr1 (bits_frame_trans _ _ _ Hfr2 Hfr')).
  - rewrite Hs', drop_drop. f_equal. lia.
Qed.

(** [border] is a permutation of 0..18: its entries are below 19 and
    distinct. *)
Lemma border_at_bound (i : nat) : (i < 19)%nat -> (border_at i < 19)%nat.
Proof.
  intros Hi. unfold border_at.
  do 19 (destruct i as [|i]; [vm_compute; lia|]). lia.
Qed.

Lemma border_at_inj (i j : nat) :
  (i < 19)%nat -> (j < 19)%nat -> border_at i = border_at j -> i = j.
Proof.
  intros Hi Hj E. assert (Hnd : NoDup (border_at <$> seq 0 19))
    by (apply (bool_decide_unpack _); vm_compute; exact I).
  apply (NoDup_lookup _ i j (border_at i) Hnd);
    rewrite list_lookup_fmap, lookup_seq_lt by lia; [reflexivity | rewrite E; reflexivity].
Qed.

Lemma btree_zero_fill (n : nat) (tr : trees_state) : btree_zero n tr = btree_fill tr (repeat 0 n).
Proof. revert tr. induction n as [|n IH]; intros tr; [reflexivity|]. apply IH. Qed.

(** [btree_put] from index [k] for each of [ws]: the index advances by
    [length ws], and the entry at [border[i]] is the [(i - k)]-th of [ws]
    for the [i] it passed, unchanged for the others. *)
Lemma btree_fill_lookup (ws : list Z) (tr : trees_state) (i : nat) :
  (index tr + length ws <= 19)%nat -> (19 <= length (blens tr))%nat -> (i < 19)%nat ->
  index (btree_fill tr ws) = (index tr + length ws)%nat /\
  length (blens (btree_fill tr ws)) = length (blens tr) /\
  blens (btree_fill tr ws) !! border_at i =
    if decide (index tr <= i < index tr + length ws)%nat then Some (nth (i - index tr) ws 0)
    else blens tr !! border_at i.
Proof.
  revert tr. induction ws as [|w ws IH]; intros tr Hk Hl Hi.
  { cbn [length] in *. split; [simpl; lia|split; [reflexivity|]]. case_decide; [lia|reflexivity]. }
  unfold btree_fill. cbn [fold_left]. fold (btree_fill (btree_put tr w) ws). cbn [length] in *.
  assert (Hk' : (index tr < 19)%nat) by lia. pose proof (border_at_bound _ Hk') as Hb.
  destruct (IH (btree_put tr w)) as (Hix & Hln & Hlk); cbn [btree_put set_blens index blens length] in *;
    rewrite ?length_insert; try lia.
  rewrite length_insert in Hln. split; [lia|split; [exact Hln|rewrite Hlk]].
  repeat case_decide; try lia.
  - replace (i - index tr)%nat with (S (i - S (index tr))) by lia. reflexivity.
  - assert (i = index tr) by lia. subst i. replace (index tr - index tr)%nat with 0%nat by lia.
    apply list_lookup_insert_eq. lia.
  - rewrite list_lookup_insert_ne; [reflexivity|]. intros E. apply border_at_inj in E; lia.
Qed.

(** C19: The first loop of [case BTREE] reading [vals] and the second one
    zeroing the rest leave [blens[border[i]]] the [i]-th of [vals], 0
    past them, for each of the 19 code length code lengths: every
    entry the table builder reads was written in this block. *)
Theorem btree_placement (tr : trees_state) (vals : list Z) :
  index tr = 0%nat -> (length vals <= 19)%nat -> (19 <= length (blens tr))%nat ->
  let tr' := btree_zero (19 - index (btree_fill tr vals)) (btree_fill tr vals) in
  index tr' = 19%nat /\
  forall i, (i < 19)%nat -> blens tr' !! border_at i = Some (nth i vals 0).
Proof.
  intros H0 Hv Hl tr'. subst tr'.
  assert (Hv' : (index tr + length vals <= 19)%nat) by lia.
  assert (Hix : index (btree_fill tr vals) = length vals)
    by (rewrite (proj1 (btree_fill_lookup vals tr 0 Hv' Hl (Nat.lt_0_succ 18))); lia).
  rewrite Hix, btree_zero_fill. unfold btree_fill. rewrite <- fold_left_app.
  fold (btree_fill tr (vals ++ repeat 0%Z (19 - length vals))).
  assert (Hw : (index tr + length (vals ++ repeat 0%Z (19 - length vals)) <= 19)%nat)
    by (rewrite length_app, repeat_length; lia).
  assert (H19 : (0 < 19)%nat) by lia.
  split; [rewrite (proj1 (btree_fill_lookup _ tr 0 Hw Hl H19)), length_app, repeat_length; lia|].
  intros i Hi. destruct (btree_fill_lookup _ tr i Hw Hl Hi) as (_ & _ & ->).
  rewrite length_app, repeat_length, H0. case_decide; [|lia]. rewrite Nat.sub_0_r.
  destruct (Nat.lt_ge_cases i (length vals)).
  - rewrite app_nth1 by lia. reflexivity.
  - rewrite app_nth2, nth_repeat, nth_overflow by lia. reflexivity.
Qed.
End Btree.

(** ** Dynamic block header: the code lengths *)

Section Dtree.
Context `{TB : TreeBuilder} `{CD : @CodesDecoder TB}.
Variable ulong_bits : Z.

(** The meta table is well formed: within its root width ([bb], at
    most 7), each entry has a code length at most [bb] and a symbol of
    the code-length alphabet (0..18). *)
Definition meta_ok (tr : trees_state) : Prop :=
  0 <= bb tr <= 7 /\
  forall idx, 0 <= idx < 2 ^ bb tr ->
    0 <= fst (meta_entry tr idx) <= bb tr /\ 0 <= snd (meta_entry tr idx) <= 18.

(** [meta_ok] decided on the [2^bb] indexes of the table. *)
Definition meta_okb (tr : trees_state) : bool :=
  bool_decide (0 <= bb tr <= 7) &&
  forallb (fun i => let '(t, s) := meta_entry tr (Z.of_nat i) in
                    bool_decide (0 <= t <= bb tr /\ 0 <= s <= 18))
          (seq 0 (Z.to_nat (2 ^ bb tr))).

(** The reference decoder of the code lengths (RFC 1951, 3.2.7) on the
    bit stream, appending to the lengths decoded so far, given the
    number [total] of lengths, the root width [w] of the meta table and
    its entries [meta]: a symbol below 16 is a length, 16 repeats the
    previous length 3..6 times, 17 and 18 repeat 0 3..10 and 11..138
    times.  It stops when [total] lengths are known ([RDone]), on a
    repeat that overruns them or has no previous length ([RError]), or
    when the stream is too short for the next step ([RNeed]: [w] bits
    for the symbol, or the symbol and its extra bits for a repeat). *)
Inductive ref_result :=
  | RDone (acc : list Z) (rest : list bool)
  | RError
  | RNeed (acc : list Z) (rest : list bool).

Fixpoint dtree_ref (total : nat) (w : Z) (meta : Z -> Z * Z) (n : nat)
    (acc : list Z) (bs : list bool) : ref_result :=
  match n with
  | O => RDone acc bs
  | S n' =>
      if decide (length acc < total)%nat then
        if decide (Z.of_nat (length bs) < w) then RNeed acc bs
        else
          let '(t, c) := meta (le_value (take (Z.to_nat w) bs)) in
          if decide (c < 16) then dtree_ref total w meta n' (acc ++ [c]) (drop (Z.to_nat t) bs)
          else
            let i := if decide (c = 18) then 7 else c - 14 in
            let j0 := if decide (c = 18) then 11 else 3 in
            if decide (Z.of_nat (length bs) < t + i) then RNeed acc bs
            else
              let j := j0 + le_value (take (Z.to_nat i) (drop (Z.to_nat t) bs)) in
              if decide (Z.of_nat (length acc) + j > Z.of_nat total \/ (c = 16 /\ acc = [])) then RError
              else dtree_ref total w meta n'
                     (acc ++ repeat (if decide (c = 16) then List.last acc 0 else 0) (Z.to_nat j))
                     (drop (Z.to_nat (t + i)) bs)
      else RDone acc bs
  end.

(** [tr] holds the lengths [acc] in front of its array, [index] after
    them. *)
Definition lens_prefix (tr : trees_state) (acc : list Z) : Prop :=
  index tr = length acc /\ take (length acc) (blens tr) = acc.

(** The splice behind [fill_lens_app]. *)
Lemma fill_lens_splice (l : list Z) (i j : nat) (c : Z) :
  (i + j <= length l)%nat ->
  fill_lens l i j c = take i l ++ repeat c j ++ drop (i + j) l.
Proof.
  revert l i. induction j as [|j IH]; intros l i Hl; cbn [fill_lens repeat app].
  - rewrite Nat.add_0_r, take_drop. reflexivity.
  - rewrite IH by (rewrite length_insert; lia).
    rewrite insert_take_drop by lia.
    assert (Hi : length (take i l ++ [c]) = S i) by (rewrite length_app, length_take; simpl; lia).
    replace (take i l ++ c :: drop (S i) l) with ((take i l ++ [c]) ++ drop (S i) l)
      by (rewrite <- app_assoc; reflexivity).
    rewrite take_app_length' by (symmetry; exact Hi).
    rewrite drop_app_add' by (symmetry; exact Hi). rewrite drop_drop, <- app_assoc.
    replace (i + S j)%nat with (S i + j)%nat by lia. reflexivity.
Qed.

(** C20: The repeat loop [do { blens[i++] = c; } while (--j)] writes in
    place what the reference appends: within the array, it is the
    splice of [j] copies of [c] at [i]. *)
Lemma fill_lens_app (l : list Z) (i j : nat) (c : Z) :
  (i + j <= length l)%nat ->
  fill_lens l i j c = take i l ++ repeat c j ++ drop (i + j) l.
Proof. apply fill_lens_splice. Qed.
(** Storing one length after the prefix. *)
Lemma lens_prefix_put (tr : trees_state) (acc : list Z) (c : Z) :
  lens_prefix tr acc -> (length acc < length (blens tr))%nat ->
  lens_prefix (set_blens tr (<[index tr := c]> (blens tr)) (S (index tr))) (acc ++ [c]).
Proof.
  intros [Hi Ht] Hl. split; cbn [index blens set_blens]; [rewrite length_app; simpl; lia|].
  rewrite Hi, length_app, Nat.add_1_r, (take_S_r _ _ c) by (apply list_lookup_insert_eq; lia).
  rewrite take_insert_ge, Ht by lia. reflexivity.
Qed.

(** Storing [j] copies of a length after the prefix. *)
Lemma lens_prefix_fill (tr : trees_state) (acc : list Z) (j : nat) (c : Z) :
  lens_prefix tr acc -> (length acc + j <= length (blens tr))%nat ->
  lens_prefix (set_blens tr (fill_lens (blens tr) (index tr) j c) (index tr + j))
              (acc ++ repeat c j).
Proof.
  intros [Hi Ht] Hl. split; cbn [index blens set_blens]; [rewrite length_app, repeat_length; lia|].
  rewrite Hi, fill_lens_splice, Ht by lia. rewrite length_app, repeat_length, app_assoc.
  apply take_app_length'. rewrite length_app, repeat_length. lia.
Qed.

Lemma lens_prefix_last (tr : trees_state) (acc : list Z) :
  lens_prefix tr acc -> (1 <= index tr)%nat -> nth (index tr - 1) (blens tr) 0 = List.last acc 0.
Proof.
  intros [Hi Ht] H1.
  assert (Hne : acc <> []) by (intros ->; simpl in Hi; lia).
  rewrite <- (nth_last acc 0 Hne). rewrite <- Ht at 2. rewrite nth_firstn, Hi.
  destruct (Nat.ltb_spec (length acc - 1) (length acc)); [reflexivity|lia].
Qed.

Lemma meta_okb_sound (tr : trees_state) : meta_okb tr = true -> meta_ok tr.
Proof.
  unfold meta_okb. rewrite andb_true_iff, forallb_forall. intros [Hb Hall].
  apply bool_decide_eq_true in Hb. split; [exact Hb|]. intros idx Hidx.
  assert (Hin : In (Z.to_nat idx) (seq 0 (Z.to_nat (2 ^ bb tr)))) by (apply in_seq; lia).
  specialize (Hall _ Hin). rewrite Z2Nat.id in Hall by lia.
  destruct (meta_entry tr idx). apply bool_decide_eq_true in Hall. exact Hall.
Qed.

(** The reference never holds more than [total] lengths, and with
    fuel at least the number of lengths missing it stops with all of
    them: each step adds a length or a repeat of at least 3. *)
Lemma dtree_ref_length (total : nat) (w : Z) (meta : Z -> Z * Z) (n : nat) (acc : list Z) (bs : list bool) :
  (length acc <= total)%nat ->
  match dtree_ref total w meta n acc bs with
  | RDone acc' _ => (length acc' <= total)%nat /\ ((total <= n + length acc)%nat -> length acc' = total)
  | RNeed acc' _ => (length acc' <= total)%nat
  | RError => True
  end.
Proof.
  revert acc bs. induction n as [|n IH]; intros acc bs Hle; cbn [dtree_ref].
  { split; [exact Hle | lia]. }
  case_decide as Hlt; [|split; lia]. case_decide; [exact Hle|].
  destruct (meta _) as [t c]. repeat case_decide; try exact Hle; try exact I.
  all: match goal with |- context [dtree_ref ?a ?b ?m' ?n' ?acc' ?bs'] =>
    specialize (IH acc' bs'); destruct (dtree_ref a b m' n' acc' bs') end;
  rewrite ?length_app, ?repeat_length in *; cbn [length] in *; try exact I;
  try match goal with |- context [le_value ?x] => pose proof (le_value_bound x) end;
  try match goal with _ : context [le_value ?x] |- _ => pose proof (le_value_bound x) end; lia.
Qed.

(** The fields of [s->sub.trees] the loop leaves alone. *)
Definition same_meta (tr tr' : trees_state) : Prop :=
  table tr' = table tr /\ bb tr' = bb tr /\ tb tr' = tb tr /\ length (blens tr') = length (blens tr).

Lemma same_meta_refl (tr : trees_state) : same_meta tr tr.
Proof. repeat split. Qed.

Lemma same_meta_trans (t1 t2 t3 : trees_state) :
  same_meta t1 t2 -> same_meta t2 t3 -> same_meta t1 t3.
Proof. unfold same_meta. intuition congruence. Qed.

Lemma length_fill_lens (l : list Z) (i j : nat) (c : Z) : length (fill_lens l i j c) = length l.
Proof. revert l i. induction j as [|j IH]; intros l i; [reflexivity|]. simpl. rewrite IH. apply length_insert. Qed.

Lemma same_meta_set_blens (tr : trees_state) (l : list Z) (i : nat) :
  length l = length (blens tr) -> same_meta tr (set_blens tr l i).
Proof. intros H. repeat split. exact H. Qed.

#[local] Hint Resolve same_meta_refl same_meta_set_blens : inflate.

(** How the loop ends, given how the reference ends: with the lengths
    [acc] in front of the array, in mode [DTREE] and the rest of the
    stream in the bit buffer and the input; leaving for more input with
    the lengths decoded so far recorded in the mode and all the input in
    the buffer; or with the data error. *)
Definition dtree_post (tr0 : trees_state) (l : bool) (c0 : ctx) (r : ref_result)
    (o : res blocks_state trees_state) : Prop :=
  match r with
  | RDone acc rest => exists tr c, o = Cont tr (mk_blocks (DTREE tr) l c) /\
      same_meta tr0 tr /\ lens_prefix tr acc /\
      bitbuf_ok ulong_bits c /\ bits_frame c0 c /\ stream_bits c = rest
  | RNeed acc rest => exists tr c, o = Exit (mk_blocks (DTREE tr) l c) /\
      same_meta tr0 tr /\ lens_prefix tr acc /\
      bitbuf_ok ulong_bits c /\ bits_frame c0 c /\ stream_bits c = rest /\ avail_in (cz c) = 0%nat
  | RError => exists c, o = Exit (mk_blocks INF_ERROR l c) /\ cr c = Z_DATA_ERROR /\
      msg (cz c) = Some "invalid bit length repeat"%string
  end.

Lemma dtree_post_frame (tr0 tr1 : trees_state) (l : bool) (c0 c1 : ctx) r o :
  same_meta tr0 tr1 -> bits_frame c0 c1 -> dtree_post tr1 l c1 r o -> dtree_post tr0 l c0 r o.
Proof.
  intros Hm Hf. destruct r as [acc rest| |acc rest]; cbn [dtree_post].
  - intros (tr & c & E & Hm' & Hp & Hok & Hf' & Hs).
    exists tr, c. eauto 10 using same_meta_trans, bits_frame_trans.
  - tauto.
  - intros (tr & c & E & Hm' & Hp & Hok & Hf' & Hs & Ha).
    exists tr, c. eauto 10 using same_meta_trans, bits_frame_trans.
Qed.

Lemma dtree_need (tr : trees_state) (acc : list Z) (l : bool) (c c' : ctx) :
  lens_prefix tr acc -> bitbuf_ok ulong_bits c' -> bits_frame c c' ->
  stream_bits c' = stream_bits c -> avail_in (cz c') = 0%nat ->
  dtree_post tr l c (RNeed acc (stream_bits c)) (Exit (mk_blocks (DTREE tr) l c')).
Proof. intros. exists tr, c'. eauto 10 with inflate. Qed.

(** The refinement of the [n]-turn loop by the [n]-step reference. *)
Definition dtree_sim (n : nat) : Prop :=
  forall tr acc l c, meta_ok tr -> bitbuf_ok ulong_bits c -> lens_prefix tr acc ->
    length (blens tr) = dtree_total (table tr) ->
    dtree_post tr l c (dtree_ref (dtree_total (table tr)) (bb tr) (meta_entry tr) n acc (stream_bits c))
      (dtree_loop ulong_bits n tr (mk_blocks (DTREE tr) l c)).

Lemma meta_ok_same (tr tr' : trees_state) : same_meta tr tr' -> meta_ok tr -> meta_ok tr'.
Proof. intros (_ & Hb & Ht & _). unfold meta_ok, meta_entry. rewrite Hb, Ht. exact id. Qed.

(** The end of a turn: the lengths [acc'] stored in [tr'], its mode
    recorded, the loop goes on. *)
Lemma dtree_store (n : nat) (tr tr' : trees_state) (acc' : list Z) (l : bool) (c c' : ctx) :
  dtree_sim n -> meta_ok tr -> same_meta tr tr' -> lens_prefix tr' acc' ->
  length (blens tr) = dtree_total (table tr) -> bitbuf_ok ulong_bits c' -> bits_frame c c' ->
  dtree_post tr l c (dtree_ref (dtree_total (table tr)) (bb tr) (meta_entry tr) n acc' (stream_bits c'))
    (mbind (set_mode (DTREE tr')) (fun _ => dtree_loop ulong_bits n tr') (mk_blocks (DTREE tr) l c')).
Proof.
  intros IH Hmeta Hs Hp Hlen Hok Hfr. eapply dtree_post_frame; [exact Hs | exact Hfr |].
  pose proof Hs as (Ht & Hb & Htb & Hl).
  replace (meta_entry tr) with (meta_entry tr') by (unfold meta_entry; rewrite Htb; reflexivity).
  rewrite <- Ht, <- Hb. apply IH; [eapply meta_ok_same; eauto | exact Hok | exact Hp | congruence].
Qed.

(** The end of a repeat: the data error when it overruns the lengths
    or has no previous length, otherwise [j] copies stored. *)
Lemma dtree_repeat_store (n : nat) (tr : trees_state) (acc : list Z) (l : bool) (c c' : ctx)
    (sym j : Z) :
  dtree_sim n -> meta_ok tr -> lens_prefix tr acc -> length (blens tr) = dtree_total (table tr) ->
  bitbuf_ok ulong_bits c' -> bits_frame c c' -> 0 <= j ->
  dtree_post tr l c
    (if decide (Z.of_nat (length acc) + j > Z.of_nat (dtree_total (table tr)) \/ sym = 16 /\ acc = [])
     then RError
     else dtree_ref (dtree_total (table tr)) (bb tr) (meta_entry tr) n
            (acc ++ repeat (if decide (sym = 16) then List.last acc 0 else 0) (Z.to_nat j))
            (stream_bits c'))
    ((if decide (Z.of_nat (length acc) + j > Z.of_nat (dtree_total (table tr))
                 \/ sym = 16 /\ (length acc < 1)%nat)
      then data_error "invalid bit length repeat"
      else
        set_mode (DTREE (set_blens tr (fill_lens (blens tr) (length acc) (Z.to_nat j)
                    (if decide (sym = 16) then nth (length acc - 1) (blens tr) 0 else 0))
                    (length acc + Z.to_nat j))) ;;
        dtree_loop ulong_bits n (set_blens tr (fill_lens (blens tr) (length acc) (Z.to_nat j)
                    (if decide (sym = 16) then nth (length acc - 1) (blens tr) 0 else 0))
                    (length acc + Z.to_nat j)))
     (mk_blocks (DTREE tr) l c')).
Proof.
  intros IH Hmeta Hp Hlen Hok Hfr Hj.
  destruct (decide (_ \/ sym = 16 /\ acc = [])) as [Herr|Herr];
    destruct (decide (_ \/ sym = 16 /\ (length acc < 1)%nat)) as [Herr'|Herr'];
    rewrite <- ?length_zero_iff_nil in *; try lia.
  { eexists. split; [reflexivity | split; reflexivity]. }
  set (v := if decide (sym = 16) then List.last acc 0 else 0).
  assert (Hv : (if decide (sym = 16) then nth (length acc - 1) (blens tr) 0 else 0) = v).
  { subst v. case_decide; [|reflexivity]. rewrite <- (proj1 Hp). apply lens_prefix_last; [exact Hp|].
    rewrite (proj1 Hp). lia. }
  rewrite Hv, <- (proj1 Hp).
  apply (dtree_store n tr _ _ l c c' IH Hmeta); auto.
  - apply same_meta_set_blens, length_fill_lens.
  - apply lens_prefix_fill; [exact Hp | lia].
Qed.

(** The simulation behind [dtree_loop_spec], by induction on [n]. *)
Lemma dtree_loop_sim (n : nat) (tr : trees_state) (acc : list Z) (l : bool) (c : ctx) :
  21 <= ulong_bits -> meta_ok tr -> bitbuf_ok ulong_bits c -> lens_prefix tr acc ->
  length (blens tr) = dtree_total (table tr) ->
  dtree_post tr l c (dtree_ref (dtree_total (table tr)) (bb tr) (meta_entry tr) n acc (stream_bits c))
    (dtree_loop ulong_bits n tr (mk_blocks (DTREE tr) l c)).
Proof.
  intros Hw. revert tr acc l c. induction n as [|n IH]; intros tr acc l c Hmeta Hok Hp Hlen.
  { exists tr, c. eauto 10 with inflate. }
  cbn [dtree_loop dtree_ref]. rewrite (proj1 Hp). set (total := dtree_total (table tr)).
  destruct (decide (length acc < total)%nat) as [Hlt|Hge]; [|exists tr, c; eauto 10 with inflate].
  pose proof (proj1 Hok) as Hkw. pose proof (proj1 Hmeta) as Hbb.
  pose proof (needbits_final_bounds (bb tr) _ (proj1 Hkw)) as Hfb.
  assert (Hf0 : needbits_final (bb tr) (bitk (cs c)) <= ulong_bits) by lia.
  destruct (NEEDBITS_cases ulong_bits (bb tr) c Hok Hf0)
    as [[Hshort (c1 & E1 & Hok1 & Hfr1 & Hs1 & Ha1)] | [Hlong (c1 & E1 & Hok1 & Hfr1 & Hs1 & Hk1)]].
  { destruct (decide (Z.of_nat (length (stream_bits c)) < bb tr)) as [_|]; [|lia].
    rewrite (lift_bind_exit _ _ _ _ _ _ E1). apply dtree_need; auto. }
  destruct (decide (Z.of_nat (length (stream_bits c)) < bb tr)) as [|_]; [lia|].
  rewrite (lift_bind_cont _ _ _ _ _ _ _ E1). cbn [mbind mget io cs].
  assert (Hb1 : 0 <= bb tr <= bitk (cs c1)) by lia.
  rewrite (peek_value ulong_bits (bb tr) c1 Hok1 Hb1), Hs1.
  set (idx := le_value (take (Z.to_nat (bb tr)) (stream_bits c))).
  assert (Hidx : 0 <= idx < 2 ^ bb tr).
  { pose proof (le_value_bound (take (Z.to_nat (bb tr)) (stream_bits c))) as B.
    rewrite length_take, Nat.min_l, Z2Nat.id in B by lia. exact B. }
  pose proof (proj2 Hmeta idx Hidx) as Hent.
  destruct (meta_entry tr idx) as [t sym] eqn:Em. cbn [fst snd] in Hent.
  destruct (decide (sym < 16)) as [Hsym|Hsym].
  - assert (Ht : 0 <= t <= bitk (cs c1)) by lia.
    destruct (DUMPBITS_spec ulong_bits t c1 Hok1 Ht) as (c2 & E2 & Hok2 & Hfr2 & Hs2 & _).
    rewrite (lift_bind_cont _ _ _ _ _ _ _ E2), <- Hs1, <- Hs2, <- (proj1 Hp).
    apply (dtree_store n tr _ _ l c c2 IH Hmeta); eauto using bits_frame_trans with inflate.
    + apply same_meta_set_blens, length_insert.
    + apply lens_prefix_put; [exact Hp | lia].
  - set (i := if decide (sym = 18) then 7 else sym - 14) in *.
    set (j0 := if decide (sym = 18) then 11 else 3) in *.
    assert (Hi : 2 <= i <= 7) by (subst i; case_decide; lia).
    assert (Hj0 : 3 <= j0) by (subst j0; case_decide; lia).
    destruct (NEEDBITS_skip_field ulong_bits t i c1 Hok1 ltac:(lia) ltac:(lia) ltac:(lia))
      as [[Hshort2 (c2 & E2 & Hok2 & Hfr2 & Hs2 & Ha2)] | [Hlong2 (c2 & c3 & c4 & E2 & E3 & Hv & E4 & Hok4 & Hfr4 & Hs)]];
      rewrite Hs1 in *.
    { destruct (decide (Z.of_nat (length (stream_bits c)) < t + i)) as [_|]; [|lia].
      rewrite (lift_bind_exit _ _ _ _ _ _ E2).
      apply dtree_need; eauto using bits_frame_trans; congruence. }
    destruct (decide (Z.of_nat (length (stream_bits c)) < t + i)) as [|_]; [lia|].
    rewrite (lift_bind_cont _ _ _ _ _ _ _ E2), (lift_bind_cont _ _ _ _ _ _ _ E3).
    cbn [mbind mget io cs]. rewrite Hv, (lift_bind_cont _ _ _ _ _ _ _ E4).
    pose proof (le_value_bound (take (Z.to_nat i) (drop (Z.to_nat t) (stream_bits c)))).
    rewrite <- Hs. apply dtree_repeat_store; eauto using bits_frame_trans; lia.
Qed.

(** C1: The code-length loop of [case DTREE] refines the reference decoder
    [dtree_ref] of RFC 1951 (3.2.7) on the bit stream: with a
    well-formed meta table and [blens] of [dtree_total] entries, [n]
    turns of the loop end as [n] steps of the reference do (returning
    with the lengths in front of [blens], leaving for more input with
    the lengths so far recorded in the mode, or with the data error
    "invalid bit length repeat"). *)
Theorem dtree_loop_spec (n : nat) (tr : trees_state) (acc : list Z) (l : bool) (c : ctx) :
  21 <= ulong_bits -> meta_ok tr -> bitbuf_ok ulong_bits c -> lens_prefix tr acc ->
  length (blens tr) = dtree_total (table tr) ->
  dtree_post tr l c (dtree_ref (dtree_total (table tr)) (bb tr) (meta_entry tr) n acc (stream_bits c))
    (dtree_loop ulong_bits n tr (mk_blocks (DTREE tr) l c)).
Proof. apply dtree_loop_sim. Qed.

Lemma lens_prefix_le (tr : trees_state) (acc : list Z) :
  lens_prefix tr acc -> (length acc <= length (blens tr))%nat.
Proof. intros [_ Ht]. rewrite <- Ht, length_take. lia. Qed.

(** C13: The fuel [case DTREE] gives its loop is enough: the loop returns
    only with all [dtree_total] lengths decoded, and otherwise leaves
    for more input (in mode DTREE, all the input taken) or with
    [Z_DATA_ERROR] in INF_ERROR. *)
Theorem dtree_loop_total (tr : trees_state) (acc : list Z) (l : bool) (c : ctx) :
  21 <= ulong_bits -> meta_ok tr -> bitbuf_ok ulong_bits c -> lens_prefix tr acc ->
  length (blens tr) = dtree_total (table tr) ->
  match dtree_loop ulong_bits (dtree_total (table tr) - index tr) tr (mk_blocks (DTREE tr) l c) with
  | Cont tr' st' => index tr' = dtree_total (table tr) /\ mode st' = DTREE tr'
  | Exit st' => (exists tr', mode st' = DTREE tr' /\ avail_in (cz (io st')) = 0%nat) \/
                (mode st' = INF_ERROR /\ cr (io st') = Z_DATA_ERROR)
  end.
Proof.
  intros Hw Hmeta Hok Hp Hlen.
  pose proof (dtree_loop_sim (dtree_total (table tr) - index tr) tr acc l c Hw Hmeta Hok Hp Hlen) as H.
  pose proof (lens_prefix_le tr acc Hp) as Hle. pose proof (proj1 Hp) as Hi.
  pose proof (dtree_ref_length (dtree_total (table tr)) (bb tr) (meta_entry tr)
                (dtree_total (table tr) - index tr) acc (stream_bits c) ltac:(lia)) as L.
  destruct (dtree_ref _ _ _ _ _ _) as [acc' rest| |acc' rest]; cbn [dtree_post] in H.
  - destruct H as (tr' & c' & E & _ & Hp' & _). rewrite E. split; [|reflexivity].
    rewrite (proj1 Hp'). lia.
  - destruct H as (c' & E & Hr & _). rewrite E. right. split; [reflexivity|exact Hr].
  - destruct H as (tr' & c' & E & _ & _ & _ & _ & _ & Ha). rewrite E. left. exists tr'.
    split; [reflexivity|exact Ha].
Qed.
End Dtree.
