(* ===== verification/Session.v ===== *)
(** * The session: [inflate_blocks_new] and [inflate_blocks_free]
      (src/infblock.c)

    [inflate_blocks_new] allocates the state and the window, and sets
    the fields it sets; the fields it leaves as the allocator returned
    them are parameters: the bit buffer [b0] ([s->bitb] is never set),
    and the window contents.  [inflate_blocks_free] returns the check
    value and frees what the mode says the state owns.  Two defects
    follow: the first header is read OR-ed with the [b0] the allocator
    left ([uninitialized_bitb_read]), and a data error in the
    code-length loop leaves the lengths and the code-length table
    allocated ([dtree_error_leaks]). *)

From Stdlib Require Import ZArith Lia List String.
From stdpp Require Import base list.
From S2P Require Import Prelude Zlib BitBuf Window Interfaces Blocks.

Open Scope Z_scope.

Section Session.
Context `{TB : TreeBuilder} `{CD : @CodesDecoder TB}.

(** [inflate_blocks_new(z, c, w)]: [None] is [Z_NULL].  [b0] is the
    value of [s->bitb] in the memory [ZALLOC] returned, [win0] the
    window's. *)
Definition inflate_blocks_new (z : z_stream) (c : option check_func) (w : nat)
    (b0 : Z) (win0 : list Z) : option blocks_state :=
  match zalloc ObjBlocksState z with
  | None => None
  | Some z1 =>
      match zalloc ObjWindow z1 with
      | None => None
      | Some z2 =>
          let chk := match c with Some f => f 0 [] | None => 0 end in
          Some (mk_blocks TYPE false
                  (mk_ctx (mk_indep 0 b0 win0 w 0 0 c chk) z2 Z_OK))
      end
  end.

(** [inflate_blocks_free(s, z, c)]: [*c] becomes the check value when
    there is a check function ([cout] is its value before); the code
    lengths are freed in BTREE and DTREE, the codes decoder in CODES,
    then the window and the state. *)
Definition inflate_blocks_free (st : blocks_state) (cout : Z) : Z * z_stream :=
  let s := cs (io st) in
  let c := match checkfn s with Some _ => check s | None => cout end in
  let z := cz (io st) in
  let z := match mode st with
           | BTREE _ | DTREE _ => zfree ObjBlens z
           | CODES cd => inflate_codes_free cd z
           | _ => z
           end in
  (c, zfree ObjBlocksState (zfree ObjWindow z)).
End Session.

(** ** The bit buffer the session starts with *)

Lemma pending_head (z : z_stream) (x : Z) (rest : list Z) :
  pending_input z = x :: rest -> (0 < avail_in z)%nat /\ nth (next_in z) (zin z) 0 = x.
Proof.
  unfold pending_input. intros H. destruct (avail_in z) as [|n]; [discriminate|].
  split; [lia|]. rewrite <- (Nat.add_0_r (next_in z)), <- nth_skipn.
  destruct (drop (next_in z) (zin z)) as [|y d]; [discriminate|]. injection H as ->. reflexivity.
Qed.

(** NEEDBITS(j), [1 <= j <= 8], from an empty count: one byte is
    OR-ed into [b] at shift 0, whatever [b] holds. *)
Lemma NEEDBITS_first_byte (w j x : Z) (rest : list Z) (c : ctx) :
  1 <= j <= 8 -> bitk (cs c) = 0 -> pending_input (cz c) = x :: rest ->
  NEEDBITS w j c = Cont tt (mk_ctx (set_bits (cs c) (ulong w (Z.lor (bitb (cs c)) x)) 8)
                                   (z_take_byte (cz c)) Z_OK).
Proof.
  intros Hj Hk Hp. destruct (pending_head _ _ _ Hp) as [Ha Hx].
  unfold NEEDBITS. destruct (Z.to_nat j) as [|n] eqn:En; [lia|].
  cbn [needbits_loop]. unfold mbind at 1, mget at 1. rewrite Hk.
  destruct (Z.ltb_spec 0 j); [|lia].
  unfold mbind at 1, NEEDBYTE. destruct (avail_in (cz c)); [lia|].
  cbn [mbind NEXTBYTE upd_s mmodify cs cz cr]. rewrite Hx, Hk, Z.shiftl_0_r.
  destruct n; cbn [needbits_loop]; [reflexivity|].
  unfold mbind, mget. cbn [cs set_bits bitk]. destruct (Z.ltb_spec (0 + 8) j); [lia|reflexivity].
Qed.

Lemma last_bit (v : Z) : (Z.land (Z.land v 7) 1 =? 1) = Z.testbit v 0.
Proof.
  rewrite <- Z.land_assoc. change (Z.land 7 1) with (Z.ones 1). rewrite Z.land_ones by lia.
  pose proof (Z.testbit_spec' v 0 (Z.le_refl 0)) as H. rewrite Z.pow_0_r, Z.div_1_r in H.
  change (2 ^ 1) with 2. rewrite <- H. destruct (Z.testbit v 0); reflexivity.
Qed.

Lemma type_bits (v : Z) :
  Z.testbit v 1 = true -> Z.testbit v 2 = true -> Z.shiftr (Z.land v 7) 1 = 3.
Proof.
  intros H1 H2. apply Z.bits_inj'. intros i Hi.
  rewrite Z.shiftr_spec, Z.land_spec by lia. change (Z.testbit 3 i) with (Z.testbit (Z.ones 2) i). change 7 with (Z.ones 3).
  destruct (Z.ltb_spec i 2).
  - rewrite !Z.ones_spec_low by lia. destruct (Z.eqb_spec i 0); [subst; change (0 + 1) with 1; rewrite H1; reflexivity|].
    replace (i + 1) with 2 by lia. rewrite H2. reflexivity.
  - rewrite !Z.ones_spec_high by lia. apply andb_false_r.
Qed.

Lemma ulong32_lor_bit (b0 x i : Z) : 0 <= i < 32 ->
  Z.testbit (ulong 32 (Z.lor b0 x)) i = Z.testbit b0 i || Z.testbit x i.
Proof. intros Hi. unfold ulong. rewrite Z.mod_pow2_bits_low, Z.lor_spec by lia. reflexivity. Qed.

Section FirstHeader.
Context `{TB : TreeBuilder} `{CD : @CodesDecoder TB}.

(** C9: [inflate_blocks_new] never sets [s->bitb], and NEEDBITS ORs
    the input into [b]: the first block header of a session is read
    OR-ed with the value [b0] the allocator left there.  For any such
    value and any first input byte [x], the BFINAL bit read is bit 0 of
    [b0] or of [x]; and when bits 1 and 2 of [b0] are set, the block
    type read is 3 whatever the stream, so the first call fails with
    [Z_DATA_ERROR] and invalid block type. *)
Theorem uninitialized_bitb_read (z z' : z_stream) (chk : option check_func) (wn : nat) (b0 : Z)
    (win0 : list Z) (st : blocks_state) (r : status) (x : Z) (rest : list Z) :
  inflate_blocks_new z chk wn b0 win0 = Some st -> pending_input z' = x :: rest ->
  let st' := res_state (case_TYPE 32 (mk_blocks (mode st) (last st) (mk_ctx (cs (io st)) z' r))) in
  last st' = (Z.testbit b0 0 || Z.testbit x 0) /\
  (Z.testbit b0 1 = true -> Z.testbit b0 2 = true ->
     mode st' = INF_ERROR /\ cr (io st') = Z_DATA_ERROR /\ msg (cz (io st')) = Some "invalid block type"%string).
Proof.
  intros Hnew Hp. cbv zeta. unfold inflate_blocks_new in Hnew.
  destruct (zalloc ObjBlocksState z) as [z1|]; [|discriminate].
  destruct (zalloc ObjWindow z1) as [z2|]; [|discriminate]. injection Hnew as <-. cbn [mode last io cs].
  unfold case_TYPE. erewrite lift_bind_cont; [|apply (NEEDBITS_first_byte _ _ x rest); [lia|reflexivity|exact Hp]].
  cbn [mbind mget mmodify io cs bitb set_bits last mode]. set (v := ulong 32 (Z.lor b0 x)).
  assert (Hl : (Z.land (Z.land v 7) 1 =? 1) = (Z.testbit b0 0 || Z.testbit x 0))
    by (rewrite last_bit; apply ulong32_lor_bit; lia).
  assert (Ht : Z.testbit b0 1 = true -> Z.testbit b0 2 = true -> Z.shiftr (Z.land v 7) 1 = 3).
  { intros H1 H2. apply type_bits; unfold v; rewrite ulong32_lor_bit by lia; [rewrite H1|rewrite H2]; reflexivity. }
  destruct (Z.shiftr (Z.land v 7) 1) as [|[p|[p|p|]|]|p];
    [ .. | destruct inflate_trees_fixed as [[[bl bd] tl] td];
           destruct (inflate_codes_new bl bd tl td _) as [[cd zc]|] | ];
    cbn [res_state mbind lift DUMPBITS upd_s upd_z set_r mmodify mget set_mode data_error leave io cs cz cr mode last];
    (split; [exact Hl|intros H1 H2; specialize (Ht H1 H2)]); try discriminate Ht.
  destruct p; [discriminate Ht..|]. repeat split.
Qed.
End FirstHeader.

(** ** What a data error in the code-length loop leaves allocated *)

(** A computation that leaves the allocator's live objects as they
    are, on every path. *)
Definition keeps_heap {A} `{TB : TreeBuilder} `{CD : @CodesDecoder TB} (m : M blocks_state A) : Prop :=
  forall st, zlive (cz (io (res_state (m st)))) = zlive (cz (io st)).

Section Leak.
Context `{TB : TreeBuilder} `{CD : @CodesDecoder TB}.
Variable w : Z.

Lemma keeps_heap_bind {A B} (m : M blocks_state A) (k : A -> M blocks_state B) :
  keeps_heap m -> (forall a, keeps_heap (k a)) -> keeps_heap (mbind m k).
Proof.
  intros Hm Hk st. specialize (Hm st). unfold mbind.
  destruct (m st) as [a st'|st']; [rewrite Hk|]; exact Hm.
Qed.

Lemma keeps_heap_lift {A} (m : M ctx A) :
  (forall c, zlive (cz (res_state (m c))) = zlive (cz c)) -> keeps_heap (lift m).
Proof. intros H st. unfold lift. specialize (H (io st)). destruct (m (io st)); exact H. Qed.

Lemma needbits_loop_zlive (j : Z) (fuel : nat) (c : ctx) :
  zlive (cz (res_state (needbits_loop w fuel j c))) = zlive (cz c).
Proof.
  revert c. induction fuel as [|fuel IH]; intros c; [reflexivity|]. cbn [needbits_loop].
  unfold mbind at 1, mget at 1. destruct (bitk (cs c) <? j); [|reflexivity].
  unfold mbind at 1, NEEDBYTE. destruct (avail_in (cz c)); [reflexivity|].
  cbn [mbind NEXTBYTE upd_s mmodify]. rewrite IH. reflexivity.
Qed.

Ltac heap_step :=
  first [ apply keeps_heap_bind; [|intros ?]
        | apply keeps_heap_lift; intros ?; first [apply needbits_loop_zlive | reflexivity]
        | intros ?; reflexivity ].

(** The code-length loop allocates and frees nothing, whichever way it
    ends. *)
Lemma dtree_loop_heap (n : nat) (tr : trees_state) : keeps_heap (dtree_loop w n tr).
Proof.
  revert tr. induction n as [|n IH]; intros tr; cbn [dtree_loop]; [intros st; reflexivity|].
  case_decide; [|intros st; reflexivity].
  heap_step; [heap_step|]. heap_step; [heap_step|]. rename a0 into st.
  destruct (meta_entry _ _) as [t c]. case_decide.
  - repeat (heap_step; [heap_step|]). apply IH.
  - do 3 (heap_step; [heap_step|]). heap_step; [heap_step|].
    case_decide; [intros st'; reflexivity|]. heap_step; [heap_step|]. apply IH.
Qed.

(** C10: After a data error in the code-length loop of [case DTREE]
    ([invalid bit length repeat]), the mode is INF_ERROR and
    [inflate_blocks_free] frees only the window and the state: every
    other object live before the loop, the code lengths [blens] and the
    code-length table [tb] among them, stays allocated. *)
Theorem dtree_error_leaks (n : nat) (tr : trees_state) (st st' : blocks_state) (cout : Z) :
  dtree_loop w n tr st = Exit st' -> mode st' = INF_ERROR ->
  zlive (snd (inflate_blocks_free st' cout)) =
    list_remove_one ObjBlocksState (list_remove_one ObjWindow (zlive (cz (io st)))).
Proof.
  intros E Hm. pose proof (dtree_loop_heap n tr st) as H. rewrite E in H. cbn [res_state] in H.
  unfold inflate_blocks_free. rewrite Hm. cbn. rewrite H. reflexivity.
Qed.
End Leak.
