(* ===== verification/Stored.v ===== *)
(** * A final stored block, end to end

    The path of [inflate_blocks] through a final stored block on a
    32-bit [unsigned long]: [case TYPE] reads the header byte and drops
    the rest of it, [case LENS] checks LEN against NLEN, [case STORED]
    copies LEN bytes through the window, [case DRY] flushes them and
    [case DONE] returns [Z_STREAM_END].  The theorem composes the specs
    of the cases of [Blocks] with the FIFO view of the window
    ([Window]) and the conservation of the caller's output buffer
    ([room]); it holds for every payload, every table builder and every
    codes decoder, since a stored block uses neither. *)

From Stdlib Require Import ZArith Lia List String.
From stdpp Require Import base list.
From S2P Require Import Prelude Zlib BitBuf Window Interfaces Blocks.

Open Scope Z_scope.

(** The five header bytes of a stored block of [n] bytes: the header
    byte (BFINAL and BTYPE in its low three bits), LEN and NLEN = ~LEN,
    least significant byte first. *)
Definition stored_header (hdr n : Z) : list Z :=
  [hdr; n mod 256; n / 256; (65535 - n) mod 256; (65535 - n) / 256].

Section Stored.
Context `{TB : TreeBuilder} `{CD : @CodesDecoder TB} `{HL : !HeapLaws}.

(** [case TYPE] on a byte-aligned buffer and a header byte whose low
    bits are BFINAL = 1, BTYPE = 00: on to LENS with the block marked
    last and the bits of the header byte dropped. *)
Lemma stored_type (st : blocks_state) (hdr : Z) (tl : list Z) :
  bitbuf_ok 32 (io st) -> bitk (cs (io st)) = 0 ->
  pending_input (cz (io st)) = hdr :: tl -> Z.land hdr 7 = 1 -> (1 <= length tl)%nat ->
  exists st1, case_TYPE 32 st = Cont tt st1 /\ mode st1 = LENS /\ last st1 = true /\
    bitbuf_ok 32 (io st1) /\ bitk (cs (io st1)) mod 8 = 0 /\ bits_frame (io st) (io st1) /\
    stream_bits (io st1) = bytes_bits tl.
Proof.
  destruct st as [md l c]. cbn [io]. intros Hok Hk0 Hp H7 Htl.
  assert (Hhdr : 0 <= hdr < 256).
  { pose proof (pending_input_bytes _ (proj2 (proj2 Hok))) as Hb. rewrite Hp in Hb.
    inversion Hb. assumption. }
  assert (HS : stream_bits c = bits_of (3 + 5) hdr ++ bytes_bits tl)
    by (unfold stream_bits; rewrite Hk0, Hp; reflexivity).
  assert (Hlen : (3 <= length (stream_bits c))%nat)
    by (rewrite HS, length_app, length_bits_of; lia).
  assert (H3 : le_value (take 3 (stream_bits c)) = 1).
  { rewrite HS, le_value_take_low. rewrite <- H7. change 7 with (Z.ones 3).
    rewrite Z.land_ones by lia. reflexivity. }
  destruct (header_bits _ Hlen) as [Hlast Htype]. rewrite H3 in Hlast, Htype.
  assert (Hin : 3 <= bitk (cs c) + 8 * Z.of_nat (avail_in (cz c))).
  { rewrite <- (length_pending_input _ (proj2 (proj2 Hok))), Hp. cbn [length]. lia. }
  pose proof (case_TYPE_run 32 (mk_blocks md l c) ltac:(lia) Hok Hin) as H.
  cbv zeta in H. cbn [io] in H. rewrite <- Htype in H. cbn in H. rewrite <- Hlast in H.
  destruct H as (st1 & E & Hm & Hl & Hok1 & H8 & d & Hd & Hs & Hfr).
  exists st1. refine (conj E (conj Hm (conj Hl (conj Hok1 (conj H8 (conj Hfr _)))))).
  pose proof (length_stream_bits 32 _ Hok1) as L1. rewrite Hs, length_drop, HS, length_app,
    length_bits_of, length_bytes_bits in L1.
  assert (d = 8%nat).
  { pose proof (proj1 Hok1) as Hk1. rewrite <- (Z2Nat.id (bitk (cs (io st1)))) in H8 by lia.
    apply Z.mod_divide in H8 as [q Hq]; [|lia].
    apply (f_equal Z.of_nat) in L1. rewrite Nat2Z.inj_add, Hq in L1. lia. }
  subst d. rewrite Hs, HS. apply drop_app_length'. rewrite length_bits_of. reflexivity.
Qed.

(** The bit-buffer macros move the input cursor over the same input. *)
Lemma bits_frame_bytes (c c' : ctx) :
  bits_frame c c' -> Forall (fun x => 0 <= x < 256) (zin (cz c)) ->
  Forall (fun x => 0 <= x < 256) (pending_input (cz c')).
Proof. intros -> Hf. unfold pending_input. cbn. apply Forall_take, Forall_drop, Hf. Qed.

(** LEN with NLEN = ~LEN passes the test of [case LENS] on 32 bits. *)
Lemma stored_lengths_ok32 (n : Z) :
  0 <= n < 65536 -> stored_lengths_bad 32 (n + (65535 - n) * 2 ^ 16) = false.
Proof.
  intros Hn. unfold stored_lengths_bad, ulong_not, ulong.
  set (x := n + (65535 - n) * 2 ^ 16).
  assert (Hx : x = n + (65535 - n) * 65536) by reflexivity.
  assert (E1 : Z.lnot x mod 2 ^ 32 = 65535 - n + n * 65536).
  { rewrite Z.lnot_eq_pred_opp. symmetry. apply Z.mod_unique with (-1); lia. }
  assert (E2 : Z.shiftr (65535 - n + n * 65536) 16 = n).
  { rewrite Z.shiftr_div_pow2 by lia. symmetry. apply Z.div_unique with (65535 - n); lia. }
  assert (E3 : Z.land x 0xffff = n).
  { change 0xffff with (Z.ones 16). rewrite Z.land_ones by lia. symmetry.
    apply Z.mod_unique with (65535 - n); lia. }
  rewrite E1, E2, E3, Z.eqb_refl. reflexivity.
Qed.

(** [case LENS] on LEN and NLEN = ~LEN with [0 < LEN]: on to STORED
    LEN, the input resuming right after the two fields. *)
Lemma stored_lens (st : blocks_state) (n : Z) (tl : list Z) :
  bitbuf_ok 32 (io st) -> bitk (cs (io st)) mod 8 = 0 -> 0 < n < 65536 ->
  Forall (fun x => 0 <= x < 256) tl ->
  stream_bits (io st) = bytes_bits (tail (stored_header 0 n) ++ tl) ->
  exists st1, case_LENS 32 st = Cont tt st1 /\ mode st1 = STORED (Z.to_nat n) /\
    last st1 = last st /\ bits_frame (io st) (io st1) /\ pending_input (cz (io st1)) = tl /\
    input_ok (cz (io st1)).
Proof.
  intros Hok H8 Hn Htl HS.
  assert (Hin : 32 <= bitk (cs (io st)) + 8 * Z.of_nat (avail_in (cz (io st)))).
  { pose proof (length_stream_bits 32 _ Hok) as L. rewrite HS, length_bytes_bits in L.
    cbn [tail stored_header app length] in L. pose proof (proj1 Hok). lia. }
  pose proof (case_LENS_run 32 st ltac:(lia) Hok ltac:(apply Hok) H8 Hin) as H. cbv zeta in H.
  assert (Hb : forall x, 0 <= x < 65536 -> 0 <= x mod 256 < 256 /\ 0 <= x / 256 < 256)
    by (intros x Hx; split; [apply Z.mod_pos_bound; lia|split; [apply Z.div_pos; lia|apply Z.div_lt_upper_bound; lia]]).
  destruct (Hb n ltac:(lia)) as [Hn1 Hn2]. destruct (Hb (65535 - n) ltac:(lia)) as [Hm1 Hm2].
  assert (ELEN : le_value (take 16 (stream_bits (io st))) = n).
  { rewrite HS. cbn [tail stored_header app]. rewrite le_value_bytes2 by assumption.
    pose proof (Z.div_mod n 256 ltac:(lia)). lia. }
  assert (HD : drop 16 (stream_bits (io st)) = bytes_bits ([(65535 - n) mod 256; (65535 - n) / 256] ++ tl)).
  { rewrite HS. cbn [tail stored_header app bytes_bits flat_map]. rewrite app_assoc.
    apply drop_app_length'. rewrite length_app, !length_bits_of. reflexivity. }
  assert (ENLEN : le_value (take 16 (drop 16 (stream_bits (io st)))) = 65535 - n).
  { rewrite HD. cbn [app]. rewrite le_value_bytes2 by assumption.
    pose proof (Z.div_mod (65535 - n) 256 ltac:(lia)). lia. }
  rewrite ELEN, ENLEN, stored_lengths_ok32 in H by lia.
  destruct H as (st1 & E & Hm & Hl & _ & _ & Hp & Hfr & Hin1).
  exists st1. refine (conj E (conj _ (conj Hl (conj Hfr (conj _ Hin1))))).
  - rewrite Hm. unfold lens_next. destruct (Z.to_nat n) eqn:En; [lia|reflexivity].
  - apply bytes_bits_inj; [|exact Htl|].
    + apply (bits_frame_bytes _ _ Hfr), (proj2 (proj2 (proj2 Hok))).
    + rewrite Hp, HS. cbn [tail stored_header app bytes_bits flat_map]. rewrite !app_assoc.
      apply drop_app_length'. rewrite !length_app, !length_bits_of. reflexivity.
Qed.

(** The bit-buffer macros leave the window, the output and the check. *)
Lemma bits_frame_out (c c' : ctx) :
  bits_frame c c' -> window_ok (cs c) -> check_inv c ->
  window_ok (cs c') /\ pending (cs c') = pending (cs c) /\ check_inv c' /\
  next_out (cz c') = next_out (cz c) /\ avail_out (cz c') = avail_out (cz c).
Proof. intros -> Hw Hc. destruct c as [[] [] r]. exact (conj Hw (conj eq_refl (conj Hc (conj eq_refl eq_refl)))). Qed.

(** The copy of [case STORED] with all [n] bytes in the input, the
    window empty and room for them: it copies them all.  It cannot run
    out of input, and it cannot run out of room, since the room the
    caller gave is conserved and exceeds what was copied. *)
Lemma stored_copy_all (st : blocks_state) (n : nat) (data rest : list Z) :
  copy_inv (io st) -> mode st = STORED n -> length data = n ->
  pending_input (cz (io st)) = data ++ rest -> pending (cs (io st)) = [] ->
  (n <= avail_out (cz (io st)))%nat ->
  exists st', stored_copy n st = Cont tt st' /\ copied n st st'.
Proof.
  intros Hi Hm Hn Hp Hq Hroom.
  destruct (stored_copy_run n st Hi Hm) as (m & st' & [[E ->] | (E & Hlt & Ha)] & _ & Hc);
    [exists st'; exact (conj E Hc)|exfalso].
  destruct Hc as (_ & _ & Ho & Hp' & (_ & Hin & _) & _ & _ & Hr).
  rewrite Hp in Ho, Hp'. destruct Ha as [Ha|Ha].
  - pose proof (length_pending_input _ Hin) as L. rewrite Hp', Ha, length_drop, length_app in L. lia.
  - unfold out_stream, room in *. rewrite Hq, app_nil_r in Ho.
    apply (f_equal (@length Z)) in Ho. rewrite !length_app, length_take, length_app in Ho. lia.
Qed.

(** [case DRY] with room for all that is pending: everything is
    flushed, [read = write], and DONE returns [Z_STREAM_END]. *)
Lemma stored_dry (st : blocks_state) :
  window_ok (cs (io st)) -> (length (pending (cs (io st))) <= avail_out (cz (io st)))%nat ->
  exists st', case_DRY st = Exit st' /\ mode st' = DONE /\ cr (io st') = Z_STREAM_END /\
    next_out (cz (io st')) = out_stream (io st) /\ pending (cs (io st')) = [] /\
    window_ok (cs (io st')) /\ pending_input (cz (io st')) = pending_input (cz (io st)).
Proof.
  destruct st as [md l c]. cbn [io]. intros Hw Hle.
  destruct (inflate_flush_correct c Hw) as (Hw' & Hfr & Hn & Hp & _).
  rewrite take_ge in Hn, Hp by exact Hle.
  assert (Hp' : pending (cs (inflate_flush c)) = [])
    by (apply (app_inv_head (pending (cs c))); rewrite <- Hp, app_nil_r; reflexivity).
  pose proof (pending_nil_eq _ Hw' Hp') as Hrw.
  unfold case_DRY, FLUSH. cbn [mbind lift mmodify mget io mode last].
  case_decide; [contradiction|].
  eexists. refine (conj eq_refl (conj eq_refl (conj eq_refl (conj Hn (conj Hp' (conj Hw' _)))))).
  exact (proj1 (out_frame_input _ _ Hfr)).
Qed.

Lemma blocks_loop_cont (w : Z) (fuel : nat) (st st' : blocks_state) (u : unit) :
  blocks_step w st = Cont u st' -> blocks_loop w (S fuel) st = blocks_loop w fuel st'.
Proof. intros E. cbn [blocks_loop]. rewrite E. reflexivity. Qed.

(** C5: A final stored block of [n = length data] bytes, [0 < n < 2^16],
    given with its five header bytes in the input of a session in TYPE
    with an empty bit buffer and an empty window, and with room for the
    [n] bytes: one call of [inflate_blocks] with enough fuel for its four
    turns hands the caller exactly [data], returns [Z_STREAM_END] in
    DONE, and leaves the input after the block unread. *)
Theorem stored_block_decodes (st : blocks_state) (hdr : Z) (data rest : list Z) (r : status) (fuel : nat) :
  mode st = TYPE -> bitbuf_ok 32 (io st) -> bitk (cs (io st)) = 0 -> check_inv (io st) ->
  window_ok (cs (io st)) -> pending (cs (io st)) = [] -> Z.land hdr 7 = 1 ->
  0 < Z.of_nat (length data) < 65536 -> (length data <= avail_out (cz (io st)))%nat ->
  pending_input (cz (io st)) = stored_header hdr (Z.of_nat (length data)) ++ data ++ rest ->
  exists st', inflate_blocks 32 (4 + fuel) st r = Some st' /\ mode st' = DONE /\
    cr (io st') = Z_STREAM_END /\ next_out (cz (io st')) = next_out (cz (io st)) ++ data /\
    pending_input (cz (io st')) = rest.
Proof.
  destruct st as [md l c]. cbn [io mode]. intros -> Hok Hk0 Hchk Hw Hq H7 Hn Hroom Hp.
  set (n := Z.of_nat (length data)) in *.
  set (c0 := mk_ctx (cs c) (cz c) r).
  assert (Hok0 : bitbuf_ok 32 c0) by exact Hok.
  assert (Hbytes : Forall (fun x => 0 <= x < 256) (data ++ rest)).
  { pose proof (pending_input_bytes _ (proj2 (proj2 Hok))) as Hb. rewrite Hp in Hb.
    do 5 (inversion Hb as [|? ? _ Hb']; clear Hb; rename Hb' into Hb). exact Hb. }
  (* TYPE *)
  assert (Htl : (1 <= length (tail (stored_header 0 n) ++ data ++ rest))%nat) by (cbn; lia).
  destruct (stored_type (mk_blocks TYPE l c0) hdr (tail (stored_header 0 n) ++ data ++ rest)
              Hok0 Hk0 Hp H7 Htl)
    as (st1 & E1 & Hm1 & Hl1 & Hok1 & H81 & Hf1 & Hs1).
  destruct (bits_frame_out _ _ Hf1 Hw Hchk) as (Hw1 & Hq1 & Hc1 & Hn1 & Ha1).
  (* LENS *)
  assert (Hn0 : 0 < n < 65536) by (unfold n; lia).
  destruct (stored_lens st1 n (data ++ rest) Hok1 H81 Hn0 Hbytes Hs1)
    as (st2 & E2 & Hm2 & Hl2 & Hf2 & Hp2 & Hin2).
  destruct (bits_frame_out _ _ Hf2 Hw1 Hc1) as (Hw2 & Hq2 & Hc2 & Hn2 & Ha2).
  (* STORED *)
  assert (Hlen : length data = Z.to_nat n) by (subst n; lia).
  assert (Hq2' : pending (cs (io st2)) = []) by (rewrite Hq2, Hq1; exact Hq).
  assert (Hr2 : (Z.to_nat n <= avail_out (cz (io st2)))%nat) by (rewrite Ha2, Ha1; cbn; lia).
  destruct (stored_copy_all st2 (Z.to_nat n) data rest (conj Hw2 (conj Hin2 Hc2)) Hm2 Hlen Hp2 Hq2' Hr2)
    as (st3 & E3 & Hc3).
  destruct Hc3 as (_ & Hl3 & Ho3 & Hp3 & (Hw3 & _ & _) & _ & _ & Hr3).
  unfold out_stream, room in Ho3, Hr3. rewrite Hq2', app_nil_r, Hp2, take_app_length' in Ho3 by exact (eq_sym Hlen).
  rewrite Hp2, drop_app_length' in Hp3 by exact (eq_sym Hlen).
  (* DRY and DONE *)
  set (st4 := mk_blocks DRY (last st3) (io st3)).
  assert (Hle4 : (length (pending (cs (io st4))) <= avail_out (cz (io st4)))%nat).
  { cbn [io st4]. apply (f_equal (@length Z)) in Ho3. rewrite !length_app in Ho3. lia. }
  destruct (stored_dry st4 Hw3 Hle4) as (st5 & E5 & Hm5 & Hr5 & Hn5 & Hq5 & Hw5 & Hp5).
  (* the loop *)
  assert (S1 : blocks_step 32 (mk_blocks TYPE l c0) = Cont tt st1) by exact E1.
  assert (S2 : blocks_step 32 st1 = Cont tt st2)
    by (unfold blocks_step, mbind, mget; rewrite Hm1; exact E2).
  assert (S3 : blocks_step 32 st2 = Cont tt st4).
  { unfold blocks_step, mbind at 1, mget at 1. rewrite Hm2. unfold case_STORED.
    rewrite (mbind_cont _ _ _ _ _ E3). cbn [mbind mget set_mode mmodify].
    unfold set_mode, mmodify. subst st4. cbn [last io]. rewrite Hl3, Hl2, Hl1. reflexivity. }
  assert (S4 : blocks_step 32 st4 = Exit st5) by exact E5.
  unfold inflate_blocks. change (mk_blocks (mode (mk_blocks TYPE l c)) (last (mk_blocks TYPE l c))
    (mk_ctx (cs (io (mk_blocks TYPE l c))) (cz (io (mk_blocks TYPE l c))) r)) with (mk_blocks TYPE l c0).
  replace (4 + fuel)%nat with (S (S (S (S fuel)))) by lia.
  rewrite (blocks_loop_cont _ _ _ _ _ S1), (blocks_loop_cont _ _ _ _ _ S2), (blocks_loop_cont _ _ _ _ _ S3).
  cbn [blocks_loop]. rewrite S4.
  destruct (inflate_flush_correct (io st5) Hw5) as (_ & Hfr6 & Hn6 & _ & _ & Hr6 & _).
  rewrite Hq5, take_nil in Hn6, Hr6. cbn [length] in Hr6.
  eexists. refine (conj eq_refl (conj Hm5 (conj _ (conj _ _)))); cbn [io].
  - rewrite Hr6, Hr5. reflexivity.
  - rewrite Hn6, app_nil_r, Hn5. unfold out_stream, st4. cbn [io]. rewrite Ho3, Hn2, Hn1. reflexivity.
  - rewrite (proj1 (out_frame_input _ _ Hfr6)), Hp5. exact Hp3.
Qed.
End Stored.
