(* ===== verification/Invariant.v ===== *)
(** * The type invariant of the block decoder's state

    [blocks_typed w st] says that every field of [struct
    inflate_blocks_state] stays within what its C type and its use allow:
    the bit buffer [b] is an [unsigned long] of [w] bits and [k] counts
    at most [w] bits; the window pointers are inside the window; in LENS
    the bit count is a whole number of bytes (so that NEEDBITS(32) does
    not overfill the buffer); [sub.left] is a 16-bit count; in BTREE and
    DTREE the header word has 14 bits and at most 29 + 257 and 29 + 1
    codes, [blens] has the size [case TABLE] allocated, the index is
    within it and, in DTREE, the meta table is well formed.  It does not
    ask [b] to be clear above [k]: [case LENS] leaves it dirty
    ([Scenarios.stored_then_fixed_stale_bits]).

    Each case of [inflate_blocks] preserves it, whether it goes on or
    leaves, and so do [blocks_loop], [inflate_blocks] and a fresh
    session.  Two laws of the external components are needed, as type
    classes: the codes decoder keeps the bit buffer and the window typed
    ([CodesTyped]), and the table builder returns a well-formed meta
    table for the code-length code ([MetaTables]).  The builder of
    [Trees] does not meet the second law when the code-length code has
    a single code ([Scenarios.single_code_meta_gap]); [Trees.checked_trees]
    does ([Trees.checked_meta]).  Every state of a session, from
    [inflate_blocks_new] through calls with any streams in between, is
    typed ([reachable_typed]).  The last section proves [CodesTyped] of
    the decoder of [Codes] with the Hoare triples of [Prelude]. *)

From Stdlib Require Import ZArith Lia List String.
From stdpp Require Import base list.
From S2P Require Import Prelude Zlib BitBuf Window Interfaces Trees Codes Blocks Session.

Open Scope Z_scope.

(** ** The typed context *)

(** The bit buffer and the window of a context are typed: [0 <= k <= w],
    [b] a [w]-bit value, the window well formed. *)
Definition ctx_typed (w : Z) (c : ctx) : Prop :=
  0 <= bitk (cs c) <= w /\ 0 <= bitb (cs c) < 2 ^ w /\ window_ok (cs c).

#[export] Instance ctx_typed_dec (w : Z) (c : ctx) : Decision (ctx_typed w c).
Proof. unfold ctx_typed. solve_decision. Defined.

(** Only the session part matters. *)
Lemma ctx_typed_cs (w : Z) (c c' : ctx) : cs c' = cs c -> ctx_typed w c -> ctx_typed w c'.
Proof. unfold ctx_typed. intros ->. exact id. Qed.

Lemma ulong_bound (w x : Z) : 0 <= w -> 0 <= ulong w x < 2 ^ w.
Proof. intros Hw. unfold ulong. apply Z.mod_pos_bound, Z_pow2_pos, Hw. Qed.

Lemma shiftr_typed (w b j : Z) : 0 <= j -> 0 <= b < 2 ^ w -> 0 <= Z.shiftr b j < 2 ^ w.
Proof.
  intros Hj Hb. rewrite Z.shiftr_div_pow2 by exact Hj.
  pose proof (Z_pow2_pos j Hj). split; [apply Z.div_pos; lia|].
  apply (Z.le_lt_trans _ b); [apply Z.div_le_upper_bound; nia | lia].
Qed.

Lemma needbits_loop_typed (w j : Z) (fuel : nat) (c : ctx) :
  ctx_typed w c -> needbits_final j (bitk (cs c)) <= w ->
  (j - bitk (cs c) + 7) / 8 <= Z.of_nat fuel ->
  match needbits_loop w fuel j c with
  | Cont _ c' => ctx_typed w c' /\ j <= bitk (cs c') /\ (bitk (cs c') - bitk (cs c)) mod 8 = 0
  | Exit c' => ctx_typed w c' /\ (bitk (cs c') - bitk (cs c)) mod 8 = 0
  end.
Proof.
  revert c. induction fuel as [|fuel IH]; intros c Hok Hfin Hfuel.
  - cbn. rewrite Z.sub_diag. refine (conj Hok (conj _ eq_refl)).
    destruct (Z.le_gt_cases j (bitk (cs c))) as [|Hlt]; [lia|].
    assert (1 <= (j - bitk (cs c) + 7) / 8) by (apply Z.div_le_lower_bound; lia). lia.
  - cbn [needbits_loop]. unfold mbind at 1, mget.
    destruct (Z.ltb_spec (bitk (cs c)) j) as [Hlt|Hge].
    + unfold NEEDBYTE, mbind. destruct (avail_in (cz c)) as [|a].
      { rewrite Z.sub_diag. exact (conj Hok eq_refl). }
      cbn -[ulong needbits_loop]. unfold upd_s, mmodify.
      match goal with |- context [needbits_loop w fuel j ?c'] => set (c1 := c') end.
      pose proof (needbits_final_ge j _ Hlt) as Hge8.
      assert (Hk1 : bitk (cs c1) = bitk (cs c) + 8) by reflexivity.
      destruct Hok as (Hk & Hb & Hwin).
      assert (Hok1 : ctx_typed w c1).
      { split; [rewrite Hk1; lia|split; [apply ulong_bound; lia|exact Hwin]]. }
      assert (Hf1 : needbits_final j (bitk (cs c1)) <= w) by (rewrite Hk1, needbits_final_step by exact Hlt; exact Hfin).
      assert (Hq : (j - bitk (cs c1) + 7) / 8 <= Z.of_nat fuel).
      { rewrite Hk1. replace (j - (bitk (cs c) + 8) + 7) with ((j - bitk (cs c) + 7) + (-1) * 8) by lia.
        rewrite Z.div_add by lia. lia. }
      specialize (IH c1 Hok1 Hf1 Hq).
      destruct (needbits_loop w fuel j c1) as [u c2|c2];
        [destruct IH as (H1 & H2 & H3) | destruct IH as (H1 & H3)];
        [refine (conj H1 (conj H2 _)) | refine (conj H1 _)];
        rewrite Hk1 in H3; replace (bitk (cs c2) - bitk (cs c)) with (bitk (cs c2) - (bitk (cs c) + 8) + 1 * 8) by lia;
        rewrite Z.mod_add by lia; exact H3.
    + cbn. rewrite Z.sub_diag. exact (conj Hok (conj Hge eq_refl)).
Qed.

(** NEEDBITS(j) keeps the context typed when the bits it may load fit,
    adds whole bytes to [k], and when it goes on, [k >= j]. *)
Lemma NEEDBITS_typed (w j : Z) (c : ctx) :
  ctx_typed w c -> needbits_final j (bitk (cs c)) <= w ->
  match NEEDBITS w j c with
  | Cont _ c' => ctx_typed w c' /\ j <= bitk (cs c') /\ (bitk (cs c') - bitk (cs c)) mod 8 = 0
  | Exit c' => ctx_typed w c' /\ (bitk (cs c') - bitk (cs c)) mod 8 = 0
  end.
Proof.
  intros Hok Hfin. apply needbits_loop_typed; [exact Hok|exact Hfin|].
  destruct Hok as [Hk _]. destruct (Z.le_gt_cases j 0).
  - assert ((j - bitk (cs c) + 7) / 8 < 1) by (apply Z.div_lt_upper_bound; lia). lia.
  - rewrite Z2Nat.id by lia. apply Z.div_le_upper_bound; lia.
Qed.

(** DUMPBITS(j) with [0 <= j <= k]. *)
(** NEEDBITS(j) fits in [w] bits when [j + 7] does. *)
Lemma needbits_fits (w j : Z) (c : ctx) :
  j + 7 <= w -> ctx_typed w c -> needbits_final j (bitk (cs c)) <= w.
Proof. intros Hj [Hk _]. pose proof (needbits_final_bounds j _ (proj1 Hk)). lia. Qed.

Lemma DUMPBITS_typed (w j : Z) (c : ctx) :
  ctx_typed w c -> 0 <= j <= bitk (cs c) ->
  exists c', DUMPBITS j c = Cont tt c' /\ ctx_typed w c' /\ bitk (cs c') = bitk (cs c) - j.
Proof.
  intros (Hk & Hb & Hwin) Hj. eexists. split; [reflexivity|]. split; [|reflexivity].
  split; [cbn; lia|split; [apply shiftr_typed; [lia|exact Hb]|exact Hwin]].
Qed.

(** The window macros keep the buffer as it is and the window well
    formed; NEEDOUT goes on only with room. *)
(** DUMPBITS only touches the bit buffer. *)
Lemma DUMPBITS_frame (j : Z) (c c' : ctx) z r :
  DUMPBITS j c = Cont tt c' -> DUMPBITS j (mk_ctx (cs c) z r) = Cont tt (mk_ctx (cs c') z r).
Proof. unfold DUMPBITS, upd_s, mmodify. intros E. injection E as <-. reflexivity. Qed.

Lemma out_frame_typed (w : Z) (c c' : ctx) : out_frame c c' -> window_ok (cs c') -> ctx_typed w c -> ctx_typed w c'.
Proof.
  intros [E _] Hwin (Hk & Hb & _). unfold ctx_typed. rewrite E in *. exact (conj Hk (conj Hb Hwin)).
Qed.

Lemma NEEDOUT_typed (w : Z) (c : ctx) :
  ctx_typed w c ->
  match NEEDOUT c with
  | Cont _ c' => ctx_typed w c' /\ (0 < WAVAIL (cs c'))%nat
  | Exit c' => ctx_typed w c'
  end.
Proof.
  intros Hc. pose proof (NEEDOUT_spec c (proj2 (proj2 Hc))) as H.
  destruct (NEEDOUT c) as [u c'|c'].
  - destruct H as (Hwin & Hw & _ & _ & Hfr & _). exact (conj (out_frame_typed w c c' Hfr Hwin Hc) Hw).
  - destruct H as (Hwin & _ & _ & Hfr & _). exact (out_frame_typed w c c' Hfr Hwin Hc).
Qed.

Lemma OUTBYTE_typed (w a : Z) (c : ctx) :
  ctx_typed w c -> (0 < WAVAIL (cs c))%nat ->
  exists c', OUTBYTE a c = Cont tt c' /\ ctx_typed w c' /\ cz c' = cz c /\ cr c' = cr c.
Proof.
  intros (Hk & Hb & Hwin) Hw. destruct (OUTBYTE_spec a c Hwin Hw) as (E & Hwin' & _).
  eexists. split; [exact E|]. split; [|split; reflexivity].
  exact (conj Hk (conj Hb Hwin')).
Qed.

(** ** The laws of the external components *)

(** [inflate_codes] keeps the bit buffer and the window typed. *)
Class CodesTyped (w : Z) `{CodesDecoder} :=
  codes_typed : forall cd c, ctx_typed w c -> ctx_typed w (snd (inflate_codes cd c)).

(** ** The invariant *)

Section Typed.
Context `{TB : TreeBuilder} `{CD : @CodesDecoder TB}.
Variable w : Z.

(** The header word and the lengths array of [s->sub.trees]. *)
Definition header_ok (tr : trees_state) : Prop :=
  0 <= table tr < 2 ^ 14 /\ Z.land (table tr) 0x1f <= 29 /\ Z.land (Z.shiftr (table tr) 5) 0x1f <= 29 /\
  length (blens tr) = dtree_total (table tr).

(** What each mode asks of the member of [sub] it uses, and of [k]. *)
Definition mode_ok (m : block_mode) (c : ctx) : Prop :=
  match m with
  | LENS => bitk (cs c) mod 8 = 0
  | STORED n => (0 < n)%nat /\ Z.of_nat n < 2 ^ 16
  | BTREE tr => header_ok tr /\ (index tr <= 19)%nat /\ Forall (fun x => 0 <= x <= 7) (blens tr)
  | DTREE tr => header_ok tr /\ (index tr <= dtree_total (table tr))%nat /\ meta_ok tr
  | _ => True
  end.

Definition blocks_typed (st : blocks_state) : Prop :=
  ctx_typed w (io st) /\ mode_ok (mode st) (io st).

(** A computation of the block decoder keeps the invariant, whether it
    goes on or leaves. *)
Definition keeps {A} (m : M blocks_state A) : Prop :=
  forall st, blocks_typed st -> blocks_typed (res_state (m st)).

Lemma keeps_bind {A B} (m : M blocks_state A) (k : A -> M blocks_state B) :
  keeps m -> (forall a, keeps (k a)) -> keeps (mbind m k).
Proof.
  intros Hm Hk st H. specialize (Hm st H). unfold mbind.
  destruct (m st) as [a st'|st']; [apply Hk|]; exact Hm.
Qed.

(** The cases that end the call. *)
Lemma flush_typed (c : ctx) : ctx_typed w c -> ctx_typed w (inflate_flush c).
Proof.
  intros (Hk & Hb & Hwin). destruct (inflate_flush_input c) as (E1 & E2 & _).
  split; [rewrite E1; exact Hk|split; [rewrite E2; exact Hb|apply (inflate_flush_fifo c Hwin)]].
Qed.

Lemma case_DONE_keeps : keeps case_DONE.
Proof. intros [m l c] [Hc Hm]. exact (conj Hc Hm). Qed.

Lemma case_INF_ERROR_keeps : keeps case_INF_ERROR.
Proof. intros [m l c] [Hc Hm]. exact (conj Hc Hm). Qed.

Lemma case_DRY_keeps : keeps case_DRY.
Proof.
  intros [m l c] [Hc Hm]. cbn [io mode] in Hc, Hm. unfold case_DRY, FLUSH.
  cbn [mbind lift mmodify mget io mode last].
  pose proof (flush_typed c Hc) as Hf.
  case_decide; cbn [res_state leave mret mode io set_mode mmodify mbind case_DONE lift set_r];
    [split; [exact Hf|]|split; [exact Hf|exact I]].
  destruct m; cbn [mode io mode_ok] in *; try exact I; try exact Hm.
  (* in LENS the flush keeps [k] *)
  rewrite (proj1 (inflate_flush_input c)). exact Hm.
Qed.

Lemma data_error_keeps {A} (msg0 : string) : keeps (A := A) (data_error msg0).
Proof. intros [m l c] [Hc Hm]. split; [exact Hc|exact I]. Qed.

(** [keeps] read at a state given field by field. *)
Lemma data_error_exit {A} (msg0 : string) (st : blocks_state) :
  ctx_typed w (io st) ->
  exists st', data_error (A := A) msg0 st = Exit st' /\ blocks_typed st'.
Proof. intros Hc. eexists. split; [reflexivity|exact (conj Hc I)]. Qed.

Lemma keeps_at {A} (m : M blocks_state A) md l c :
  keeps m -> ctx_typed w c -> mode_ok md c -> blocks_typed (res_state (m (mk_blocks md l c))).
Proof. intros H Hc Hm. apply H. exact (conj Hc Hm). Qed.

(** [keeps] for a case run at its own mode. *)
Definition keeps_in {A} (md : block_mode) (m : M blocks_state A) : Prop :=
  forall l c, blocks_typed (mk_blocks md l c) -> blocks_typed (res_state (m (mk_blocks md l c))).

(** A mode stays typed when [k] moves by whole bytes. *)
Lemma mode_ok_bytes (md : block_mode) (c c' : ctx) :
  (bitk (cs c') - bitk (cs c)) mod 8 = 0 -> mode_ok md c -> mode_ok md c'.
Proof.
  intros H8. destruct md; cbn [mode_ok]; try exact id.
  intros Hm. replace (bitk (cs c')) with ((bitk (cs c') - bitk (cs c)) + bitk (cs c)) by lia.
  rewrite Z.add_mod, H8, Hm by lia. reflexivity.
Qed.

Lemma land7_bound (x : Z) : 0 <= x -> 0 <= Z.land x 7 <= 7.
Proof.
  intros Hx. change 7 with (Z.ones 3). rewrite Z.land_ones by lia.
  change (2 ^ 3) with 8. change (Z.ones 3) with 7. pose proof (Z.mod_pos_bound x 8 eq_refl). lia.
Qed.

Lemma land7_le (k : Z) : 0 <= k -> 0 <= Z.land k 7 <= k /\ (k - Z.land k 7) mod 8 = 0.
Proof.
  intros Hk. change 7 with (Z.ones 3). rewrite Z.land_ones by lia. change (2 ^ 3) with 8.
  pose proof (Z.mod_pos_bound k 8 ltac:(lia)). pose proof (Z.mod_le k 8 Hk ltac:(lia)).
  split; [lia|apply Z_sub_mod_self].
Qed.

(** Step over a lifted macro whose run is known. *)
Ltac lstep E :=
  first [ rewrite (lift_bind_cont _ _ _ _ _ _ _ E)
        | rewrite (lift_bind_exit _ _ _ _ _ _ E)
        | unfold mbind at 1, lift at 1; cbn [io mode last]; rewrite E; cbn beta iota ].

Section Header.
Hypothesis Hw : 21 <= w.

(** [case TYPE]: three header bits, then to LENS with [k] a whole number
    of bytes, to CODES, to TABLE, or the data error. *)
Lemma case_TYPE_keeps : keeps_in TYPE (case_TYPE w).
Proof.
  intros l c [Hc _]. cbn [io] in Hc. unfold case_TYPE.
  assert (Hf : needbits_final 3 (bitk (cs c)) <= w) by (apply needbits_fits; [lia|exact Hc]).
  pose proof (NEEDBITS_typed w 3 c Hc Hf) as H1.
  destruct (NEEDBITS w 3 c) as [[] c1|c1] eqn:E1;
    [|rewrite (lift_bind_exit _ _ _ _ _ _ E1); exact (conj (proj1 H1) I)].
  destruct H1 as (Hc1 & Hk1 & _). rewrite (lift_bind_cont _ _ _ _ _ _ _ E1).
  cbn [mbind mget mmodify io mode last].
  assert (H3 : 0 <= 3 <= bitk (cs c1)) by lia.
  destruct (DUMPBITS_typed w 3 c1 Hc1 H3) as (c2 & E2 & Hc2 & Hk2).
  destruct (Z.shiftr (Z.land (bitb (cs c1)) 7) 1) as [|[p|p|]|p].
  - rewrite (lift_bind_cont _ _ _ _ _ _ _ E2). cbn [mbind mget io].
    destruct (land7_le (bitk (cs c2)) ltac:(lia)) as [H7 H8].
    destruct (DUMPBITS_typed w _ c2 Hc2 H7) as (c3 & E3 & Hc3 & Hk3).
    rewrite (lift_bind_cont _ _ _ _ _ _ _ E3). split; [exact Hc3|cbn; rewrite Hk3; exact H8].
  - lstep E2. (apply data_error_keeps; exact (conj Hc2 I)).
  - destruct p; lstep E2; [(apply data_error_keeps; exact (conj Hc2 I))..|exact (conj Hc2 I)].
  - destruct inflate_trees_fixed as [[[bl bd] tl] td].
    destruct (inflate_codes_new bl bd tl td (cz c1)) as [[cd z']|]; [|exact (conj Hc1 I)].
    cbn [mbind lift upd_z mmodify io cs cz cr].
    lstep (DUMPBITS_frame 3 c1 c2 z' (cr c1) E2). exact (conj (ctx_typed_cs w c2 _ eq_refl Hc2) I).
  - lstep E2. (apply data_error_keeps; exact (conj Hc2 I)).
Qed.
End Header.

Lemma land_ffff_bound (b : Z) : 0 <= Z.land b 0xffff < 2 ^ 16.
Proof. change 0xffff with (Z.ones 16). rewrite Z.land_ones by lia. apply Z.mod_pos_bound. lia. Qed.

Section Lens.
Hypothesis Hw : 32 <= w.

(** [case LENS] from a whole number of bytes: NEEDBITS(32) fits, [k]
    becomes 0 and [sub.left] a 16-bit count. *)
Lemma case_LENS_keeps : keeps_in LENS (case_LENS w).
Proof.
  intros l c [Hc H8]. cbn [io mode mode_ok] in Hc, H8. unfold case_LENS.
  assert (Hf : needbits_final 32 (bitk (cs c)) <= w).
  { destruct (Z.le_gt_cases (bitk (cs c)) 32).
    - rewrite needbits_final_bytes by (try exact H8; try reflexivity; pose proof (proj1 Hc); lia). exact Hw.
    - unfold needbits_final. destruct (Z.ltb_spec (bitk (cs c)) 32); [lia|apply Hc]. }
  pose proof (NEEDBITS_typed w 32 c Hc Hf) as H1.
  destruct (NEEDBITS w 32 c) as [[] c1|c1] eqn:E1;
    [|lstep E1; exact (conj (proj1 H1) (mode_ok_bytes LENS _ _ (proj2 H1) H8))].
  destruct H1 as (Hc1 & _ & Hm8). lstep E1. cbn [mbind mget io].
  destruct (stored_lengths_bad w (bitb (cs c1)));
    [apply data_error_keeps; exact (conj Hc1 (mode_ok_bytes LENS _ _ Hm8 H8))|].
  cbn [mbind lift upd_s mmodify io cs set_mode mode last res_state].
  destruct Hc1 as (Hk & Hb & Hwin). split; [split; [cbn; lia|split; [exact Hb|exact Hwin]]|].
  pose proof (land_ffff_bound (bitb (cs c1))) as Hl.
  destruct (Z.to_nat (Z.land (bitb (cs c1)) 0xffff)) as [|n] eqn:En; cbn [mode_ok]; [exact I|].
  split; [lia|]. rewrite <- En, Z2Nat.id by lia. lia.
Qed.
End Lens.

(** The copy of [case STORED]: it leaves in STORED with a count of bytes
    still to go, or goes on having copied them all. *)
Lemma stored_copy_typed (n : nat) (l : bool) (c : ctx) :
  ctx_typed w c -> Z.of_nat n < 2 ^ 16 ->
  match stored_copy n (mk_blocks (STORED n) l c) with
  | Cont _ st' => ctx_typed w (io st') /\ last st' = l
  | Exit st' => blocks_typed st'
  end.
Proof.
  revert c. induction n as [|n IH]; intros c Hc Hn; [exact (conj Hc eq_refl)|].
  assert (Hm : mode_ok (STORED (S n)) c) by (cbn; lia).
  cbn [stored_copy].
  destruct (avail_in (cz c)) eqn:Ea.
  { assert (E0 : NEEDBYTE c = Exit c) by (unfold NEEDBYTE; rewrite Ea; reflexivity).
    lstep E0. exact (conj Hc Hm). }
  set (c0 := mk_ctx (cs c) (cz c) Z_OK).
  assert (E0 : NEEDBYTE c = Cont tt c0) by (unfold NEEDBYTE; rewrite Ea; reflexivity).
  lstep E0. assert (Hc0 : ctx_typed w c0) by exact Hc.
  pose proof (NEEDOUT_typed w c0 Hc0) as H1.
  destruct (NEEDOUT c0) as [[] c1|c1] eqn:E1; [|lstep E1; exact (conj H1 Hm)].
  destruct H1 as (Hc1 & Hw1). lstep E1. cbn [mbind lift NEXTBYTE io].
  set (c2 := mk_ctx (cs c1) (z_take_byte (cz c1)) (cr c1)).
  destruct (OUTBYTE_typed w (nth (next_in (cz c1)) (zin (cz c1)) 0) c2 Hc1 Hw1) as (c3 & E3 & Hc3 & _).
  lstep E3. cbn [mbind set_mode mmodify mode last io].
  destruct n as [|n']; [exact (conj Hc3 eq_refl)|].
  apply IH; [exact Hc3|lia].
Qed.

(** [case STORED]: the copy, then TYPE or DRY. *)
Lemma case_STORED_keeps (n : nat) : keeps_in (STORED n) (case_STORED n).
Proof.
  intros l c [Hc Hm]. cbn [io mode mode_ok] in Hc, Hm. unfold case_STORED.
  pose proof (stored_copy_typed n l c Hc (proj2 Hm)) as H.
  unfold mbind at 1. destruct (stored_copy n (mk_blocks (STORED n) l c)) as [u st'|st']; [|exact H].
  destruct H as [Hc' _]. destruct st' as [m' l' c']. cbn in *. split; [exact Hc'|]. destruct l'; exact I.
Qed.

Section Codes.
Context `{CT : !CodesTyped w}.

(** [case CODES]: the codes decoder keeps the context typed; the byte
    given back after the last block leaves [k - 8 >= 0] bits. *)
Lemma case_CODES_keeps (cd : codes_state) : keeps (case_CODES cd).
Proof.
  intros [m l c] [Hc _]. cbn [io] in Hc. unfold case_CODES. cbn [mbind mget io].
  pose proof (codes_typed cd c Hc) as Hc'.
  destruct (inflate_codes cd c) as [cd' c'] eqn:E. cbn [snd] in Hc'. cbn [mbind mmodify last].
  case_decide; [exact (conj Hc' I)|].
  destruct l; cbn [negb mbind lift set_r upd_z set_mode mmodify io mode last cs cz cr]; [|exact (conj Hc' I)].
  case_decide as Hk; cbn [mbind lift upd_s upd_z mmodify mret io cs cz cr mode last set_mode];
    apply (keeps_at _ _ _ _ case_DRY_keeps); try exact I.
  - destruct Hc' as (Hk' & Hb & Hwin). split; [cbn; lia|split; [exact Hb|exact Hwin]].
  - exact Hc'.
Qed.

Hypothesis Hw : 21 <= w.

Lemma meta_entry_bounds (tr : trees_state) (c : ctx) :
  meta_ok tr -> ctx_typed w c ->
  let '(t, s) := meta_entry tr (Z.land (bitb (cs c)) (inflate_mask (bb tr))) in
  0 <= t <= bb tr /\ 0 <= s <= 18.
Proof.
  intros [Hbb Hent] (_ & Hb & _). unfold inflate_mask. rewrite Z.land_ones by lia.
  pose proof (Hent (bitb (cs c) mod 2 ^ bb tr) (Z.mod_pos_bound _ _ (Z_pow2_pos _ (proj1 Hbb)))).
  destruct (meta_entry _ _). exact H.
Qed.

(** The loop of [case DTREE] keeps the invariant: each length is stored
    below [dtree_total], each repeat within it. *)
Lemma dtree_loop_typed (n : nat) (tr : trees_state) (l : bool) (c : ctx) :
  blocks_typed (mk_blocks (DTREE tr) l c) ->
  match dtree_loop w n tr (mk_blocks (DTREE tr) l c) with
  | Cont tr' st' => exists c', st' = mk_blocks (DTREE tr') l c' /\ blocks_typed st'
  | Exit st' => blocks_typed st'
  end.
Proof.
  revert tr c. induction n as [|n IH]; intros tr c [Hc Hm]; cbn [io mode mode_ok] in Hc, Hm.
  { exists c. split; [reflexivity|exact (conj Hc Hm)]. }
  destruct Hm as (Hh & Hi & Hmeta). cbn [dtree_loop].
  case_decide as Hlt; [|exists c; split; [reflexivity|exact (conj Hc (conj Hh (conj Hi Hmeta)))]].
  pose proof (proj1 Hmeta) as Hbb.
  assert (Hf : needbits_final (bb tr) (bitk (cs c)) <= w) by (apply needbits_fits; [lia|exact Hc]).
  pose proof (NEEDBITS_typed w _ c Hc Hf) as H1.
  destruct (NEEDBITS w (bb tr) c) as [[] c1|c1] eqn:E1;
    [|lstep E1; exact (conj (proj1 H1) (conj Hh (conj Hi Hmeta)))].
  destruct H1 as (Hc1 & Hk1 & _). lstep E1. cbn [mbind mget io].
  pose proof (meta_entry_bounds tr c1 Hmeta Hc1) as Hent.
  destruct (meta_entry _ _) as [t sym]. destruct Hent as [Ht Hs].
  case_decide as Hsym.
  - destruct (DUMPBITS_typed w t c1 Hc1 ltac:(lia)) as (c2 & E2 & Hc2 & _).
    lstep E2. cbn [mbind set_mode mmodify mode last io].
    apply IH. split; [exact Hc2|]. cbn [mode_ok io mode].
    refine (conj _ (conj _ (meta_ok_same _ _ (same_meta_set_blens _ _ _ (length_insert _ _ _)) Hmeta))).
    + destruct Hh as (H1 & H2 & H3 & H4). refine (conj H1 (conj H2 (conj H3 _))). cbn. rewrite length_insert. exact H4.
    + cbn. lia.
  - set (i := if decide (sym = 18) then 7 else sym - 14).
    assert (Hi7 : 2 <= i <= 7) by (subst i; case_decide; lia).
    assert (Hf2 : needbits_final (t + i) (bitk (cs c1)) <= w) by (apply needbits_fits; [lia|exact Hc1]).
    pose proof (NEEDBITS_typed w _ c1 Hc1 Hf2) as H2.
    destruct (NEEDBITS w (t + i) c1) as [[] c2|c2] eqn:E2;
      [|lstep E2; exact (conj (proj1 H2) (conj Hh (conj Hi Hmeta)))].
    destruct H2 as (Hc2 & Hk2 & _). lstep E2.
    destruct (DUMPBITS_typed w t c2 Hc2 ltac:(lia)) as (c3 & E3 & Hc3 & Hk3).
    lstep E3. cbn [mbind mget io].
    destruct (DUMPBITS_typed w i c3 Hc3 ltac:(lia)) as (c4 & E4 & Hc4 & _).
    lstep E4.
    set (j := (if decide (sym = 18) then 11 else 3) + Z.land (bitb (cs c3)) (inflate_mask i)).
    case_decide as Herr; [destruct (data_error_exit (A := trees_state) "invalid bit length repeat" (mk_blocks (DTREE tr) l c4) Hc4) as (? & -> & ?); assumption|].
    cbn [mbind set_mode mmodify mode last io].
    apply IH. split; [exact Hc4|]. cbn [mode_ok io mode].
    refine (conj _ (conj _ (meta_ok_same _ _ (same_meta_set_blens _ _ _ (length_fill_lens _ _ _ _)) Hmeta))).
    + destruct Hh as (H1 & H2 & H3 & H4). refine (conj H1 (conj H2 (conj H3 _))). cbn. rewrite length_fill_lens. exact H4.
    + cbn. lia.
Qed.

(** After the loop: the meta table is freed ([meta_ok] holds of the empty
    table at the same width), the two tables are built and the codes
    decoder runs; every exit keeps the context. *)
Lemma dtree_build_keeps (tr : trees_state) : keeps_in (DTREE tr) (dtree_build tr).
Proof.
  intros l c [Hc Hm]. cbn [io mode mode_ok] in Hc, Hm. destruct Hm as (Hh & Hi & [Hbb _]).
  assert (Hm' : forall c', mode_ok (DTREE (set_tb tr (bb tr) None)) c')
    by (intros c'; cbn; split; [exact Hh|split; [exact Hi|split; [exact Hbb|intros; cbn; lia]]]).
  unfold dtree_build. destruct (tb tr) as [h|]; cbn -[case_CODES];
    destruct (inflate_trees_dynamic _ _ _ _ _ _) as [[[[[bl bd] tl] td]|e] z'];
    try destruct (inflate_codes_new _ _ _ _ _) as [[cd z'']|]; cbn -[case_CODES]; try case_decide; cbn -[case_CODES];
    first [ apply (keeps_at _ _ _ _ (case_CODES_keeps _)); [eapply ctx_typed_cs; [reflexivity|exact Hc]|exact I]
          | split; [eapply ctx_typed_cs; [reflexivity|exact Hc]|first [exact I|apply Hm']]].
Qed.

(** [case DTREE]: the loop, then the build. *)
Lemma case_DTREE_keeps (tr : trees_state) : keeps_in (DTREE tr) (case_DTREE w tr).
Proof.
  intros l c H. unfold case_DTREE. pose proof (dtree_loop_typed (dtree_total (table tr) - index tr) tr l c H) as H1.
  unfold mbind at 1. destruct (dtree_loop _ _ _ _) as [tr' st'|st']; [|exact H1].
  destruct H1 as (c' & -> & H'). apply dtree_build_keeps, H'.
Qed.

(** [header_ok] only sees [table] and the length of [blens]. *)
Lemma header_ok_blens (tr : trees_state) (l : list Z) (i : nat) :
  length l = length (blens tr) -> header_ok tr -> header_ok (set_blens tr l i).
Proof. intros E (H1 & H2 & H3 & H4). refine (conj H1 (conj H2 (conj H3 _))). cbn. rewrite E. exact H4. Qed.

Lemma btree_zero_shape (n : nat) (tr : trees_state) :
  index (btree_zero n tr) = (index tr + n)%nat /\ table (btree_zero n tr) = table tr /\
  length (blens (btree_zero n tr)) = length (blens tr).
Proof.
  revert tr. induction n as [|n IH]; intros tr; cbn [btree_zero]; [split; [lia|split; reflexivity]|].
  destruct (IH (btree_put tr 0)) as (H1 & H2 & H3). cbn in H1, H2, H3. rewrite length_insert in H3. lia.
Qed.

Lemma btree_zero_lens (n : nat) (tr : trees_state) :
  Forall (fun x => 0 <= x <= 7) (blens tr) -> Forall (fun x => 0 <= x <= 7) (blens (btree_zero n tr)).
Proof.
  revert tr. induction n as [|n IH]; intros tr H; [exact H|].
  apply IH. apply Forall_insert; [exact H|lia].
Qed.

(** The reading loop of [case BTREE]: [n] lengths of three bits each,
    at indexes up to 19. *)
Lemma btree_read_typed (n : nat) (tr : trees_state) (l : bool) (c : ctx) :
  (index tr + n <= 19)%nat -> blocks_typed (mk_blocks (BTREE tr) l c) ->
  match btree_read w n tr (mk_blocks (BTREE tr) l c) with
  | Cont tr' st' => exists c', st' = mk_blocks (BTREE tr') l c' /\ blocks_typed st'
  | Exit st' => blocks_typed st'
  end.
Proof.
  revert tr c. induction n as [|n IH]; intros tr c Hn [Hc Hm]; cbn [io mode mode_ok] in Hc, Hm.
  { exists c. split; [reflexivity|exact (conj Hc Hm)]. }
  cbn [btree_read]. pose proof (NEEDBITS_typed w 3 c Hc ltac:(apply needbits_fits; [lia|exact Hc])) as H1.
  destruct (NEEDBITS w 3 c) as [[] c1|c1] eqn:E1; [|lstep E1; exact (conj (proj1 H1) Hm)].
  destruct H1 as (Hc1 & Hk1 & _). lstep E1. cbn [mbind mget set_mode mmodify io mode last].
  destruct (DUMPBITS_typed w 3 c1 Hc1 ltac:(lia)) as (c2 & E2 & Hc2 & _).
  lstep E2. apply IH; [cbn; lia|]. split; [exact Hc2|]. cbn [mode_ok mode io]. destruct Hm as (Hh & Hi & Hf).
  split; [apply header_ok_blens; [apply length_insert|exact Hh]|]. split; [cbn; lia|].
  apply Forall_insert; [exact Hf|]. apply land7_bound, (proj1 (proj2 Hc1)).
Qed.

Section Btree.
Context `{MT : !MetaTables}.

(** The build at the end of [case BTREE], from width 7: the table
    builder's law gives [meta_ok] of the table DTREE starts from. *)
Lemma btree_build_keeps (tr : trees_state) :
  bb tr = 7 -> keeps_in (BTREE tr) (btree_build w tr).
Proof.
  intros H7 l c [Hc Hm]. cbn [io mode mode_ok] in Hc, Hm. unfold btree_build. cbn [mbind mget io].
  rewrite H7. destruct (inflate_trees_bits (blens tr) 7 (cz c)) as [[[w' h]|e] z'] eqn:E;
    cbn [mbind lift upd_z mmodify io mode last cs cz cr].
  - destruct (meta_tables _ _ _ _ _ (proj2 (proj2 Hm)) E) as [Hw' Hent].
    apply case_DTREE_keeps. split; [eapply ctx_typed_cs; [reflexivity|exact Hc]|].
    cbn [mode_ok mode]. split; [exact (proj1 Hm)|split; [cbn; lia|split; [exact Hw'|]]].
    intros idx Hidx. unfold meta_entry. exact (Hent idx Hidx).
  - cbn [set_r mmodify]. case_decide; cbn; (split; [eapply ctx_typed_cs; [reflexivity|exact Hc]|]); [exact I|exact Hm].
Qed.

(** [case BTREE]: at most [4 + 15] lengths are read, the rest zeroed. *)
Lemma case_BTREE_keeps (tr : trees_state) : keeps_in (BTREE tr) (case_BTREE w tr).
Proof.
  intros l c H. unfold case_BTREE.
  assert (Hn : (index tr + (4 + Z.to_nat (Z.shiftr (table tr) 10) - index tr) <= 19)%nat).
  { destruct H as [_ [(Ht & _) [Hi _]]]. cbn in Ht, Hi.
    assert (Z.shiftr (table tr) 10 < 16)
      by (rewrite Z.shiftr_div_pow2 by lia; apply Z.div_lt_upper_bound; lia).
    pose proof (Z.shiftr_nonneg (table tr) 10). lia. }
  pose proof (btree_read_typed _ tr l c Hn H) as H1.
  unfold mbind at 1. destruct (btree_read _ _ _ _) as [tr' st'|st']; [|exact H1].
  destruct H1 as (c' & -> & Hc' & Hm'). cbn [mode_ok io mode] in Hc', Hm'.
  destruct (btree_zero_shape (19 - index tr') tr') as (Hz1 & Hz2 & Hz3).
  cbn [mbind set_mode mmodify mode last io]. apply btree_build_keeps; [reflexivity|].
  split; [exact Hc'|]. cbn [mode_ok]. destruct Hm' as [(H1 & H2 & H3 & H4) [Hi Hf]].
  split; [unfold header_ok; cbn [set_tb table blens]; rewrite Hz2, Hz3; exact (conj H1 (conj H2 (conj H3 H4)))|].
  split; [cbn [set_tb index]; lia|]. cbn [set_tb blens]. apply btree_zero_lens, Hf.
Qed.

(** [case TABLE]: the 14 header bits give a header word that passes the
    guard, and the lengths array is allocated at [dtree_total]. *)
Lemma case_TABLE_keeps : keeps_in TABLE (case_TABLE w).
Proof.
  intros l c [Hc _]. cbn [io] in Hc. unfold case_TABLE.
  pose proof (NEEDBITS_typed w 14 c Hc ltac:(apply needbits_fits; [lia|exact Hc])) as H1.
  destruct (NEEDBITS w 14 c) as [[] c1|c1] eqn:E1; [|lstep E1; exact (conj (proj1 H1) I)].
  destruct H1 as (Hc1 & Hk1 & _). lstep E1. cbn [mbind mget io].
  set (t := Z.land (bitb (cs c1)) 0x3fff).
  case_decide as Hg; [destruct (data_error_exit (A := unit) "too many length or distance symbols"
                                 (mk_blocks TABLE l c1) Hc1) as (? & -> & ?); assumption|].
  destruct (zalloc ObjBlens (cz c1)) as [z'|]; [|exact (conj Hc1 I)].
  cbn [mbind lift upd_z mmodify io mode last cs cz cr].
  destruct (DUMPBITS_typed w 14 c1 Hc1 ltac:(lia)) as (c2 & E2 & Hc2 & _).
  lstep (DUMPBITS_frame 14 c1 c2 z' (cr c1) E2). cbn [mbind set_mode mmodify io mode last].
  apply case_BTREE_keeps. split; [exact (ctx_typed_cs w c2 _ eq_refl Hc2)|]. cbn [mode_ok mode index].
  split; [|split; [lia|cbn [blens]; apply List.Forall_forall; intros x Hx; apply repeat_spec in Hx; lia]].
  apply Decidable.not_or in Hg as [Hg1 Hg2].
  assert (0 <= t < 2 ^ 14) by (subst t; change 0x3fff with (Z.ones 14); rewrite Z.land_ones by lia;
                                apply Z.mod_pos_bound; lia).
  unfold header_ok. cbn [table blens]. refine (conj H (conj _ (conj _ _))); [lia|lia|]. rewrite repeat_length.
  unfold dtree_total. assert (0 <= Z.land t 0x1f) by (apply Z.land_nonneg; lia).
  assert (0 <= Z.land (Z.shiftr t 5) 0x1f) by (apply Z.land_nonneg; lia).
  case_decide; [lia|reflexivity].
Qed.

Section Loop.
Hypothesis Hw32 : 32 <= w.

(** One turn of the loop keeps the invariant, whatever the mode. *)
Lemma blocks_step_keeps : keeps (blocks_step w).
Proof.
  intros [m l c] H. unfold blocks_step. cbn [mbind mget mode].
  destruct m.
  - exact (case_TYPE_keeps ltac:(lia) l c H).
  - exact (case_LENS_keeps Hw32 l c H).
  - exact (case_STORED_keeps _ l c H).
  - exact (case_TABLE_keeps l c H).
  - exact (case_BTREE_keeps _ l c H).
  - exact (case_DTREE_keeps _ l c H).
  - exact (case_CODES_keeps _ _ H).
  - exact (case_DRY_keeps _ H).
  - exact (case_DONE_keeps _ H).
  - exact (case_INF_ERROR_keeps _ H).
Qed.

Lemma blocks_loop_typed (fuel : nat) (st st' : blocks_state) :
  blocks_typed st -> blocks_loop w fuel st = Some st' -> blocks_typed st'.
Proof.
  revert st. induction fuel as [|fuel IH]; intros st H E; [discriminate|]. cbn [blocks_loop] in E.
  pose proof (blocks_step_keeps st H) as H'.
  destruct (blocks_step w st) as [u st1|st1]; [exact (IH st1 H' E)|injection E as <-; exact H'].
Qed.

(** From a typed state, whatever status [r] the caller passes, the
    state [inflate_blocks] returns is typed. *)
Lemma inflate_blocks_typed (fuel : nat) (st st' : blocks_state) (r : status) :
  blocks_typed st -> inflate_blocks w fuel st r = Some st' -> blocks_typed st'.
Proof.
  intros [Hc Hm] E. unfold inflate_blocks in E.
  destruct (blocks_loop w fuel _) as [st1|] eqn:E1; [|discriminate]. injection E as <-.
  destruct (blocks_loop_typed fuel (mk_blocks (mode st) (last st) (mk_ctx (cs (io st)) (cz (io st)) r)) st1 (conj (ctx_typed_cs w (io st) _ eq_refl Hc) Hm) E1) as [Hc1 Hm1].
  split; [exact (flush_typed _ Hc1)|]. cbn [mode io]. revert Hm1. apply mode_ok_bytes.
  rewrite (proj1 (inflate_flush_input (io st1))), Z.sub_diag. reflexivity.
Qed.
End Loop.
End Btree.
End Codes.
(** [inflate_blocks_new] starts typed: [k = 0], the window as long as
    [w] bytes with [read = write] at its start, and [b] whatever [uLong]
    the allocator left. *)
Lemma inflate_blocks_new_typed (z : z_stream) (chk : option check_func) (wn : nat) (b0 : Z)
    (win0 : list Z) (st : blocks_state) :
  0 <= b0 < 2 ^ w -> (0 < wn)%nat -> length win0 = wn ->
  inflate_blocks_new z chk wn b0 win0 = Some st -> blocks_typed st.
Proof.
  intros Hb Hwn Hlen. unfold inflate_blocks_new.
  destruct (zalloc ObjBlocksState z) as [z1|]; [|discriminate].
  destruct (zalloc ObjWindow z1) as [z2|]; [|discriminate]. intros E. injection E as <-.
  split; [|exact I]. split; [cbn; destruct (Z.lt_ge_cases w 0); [rewrite Z.pow_neg_r in Hb by lia|]; lia|].
  split; [exact Hb|]. unfold window_ok. cbn. lia.
Qed.

End Typed.

(** ** The states of a session

    A session starts at [inflate_blocks_new]; between two calls of
    [inflate_blocks] the caller ([inflate.c]) may give new input, new
    output room or a new allocator, that is any [z_stream], and passes
    any status. *)

Section Session.
Context `{TB : TreeBuilder} `{CD : @CodesDecoder TB} `{MT : !MetaTables}.
Variable w : Z.
Context `{CT : !CodesTyped w}.

Definition with_stream (st : blocks_state) (z : z_stream) : blocks_state :=
  mk_blocks (mode st) (last st) (mk_ctx (cs (io st)) z (cr (io st))).

Inductive reachable : blocks_state -> Prop :=
  | reach_new z chk wn b0 win0 st :
      0 <= b0 < 2 ^ w -> (0 < wn)%nat -> length win0 = wn ->
      inflate_blocks_new z chk wn b0 win0 = Some st -> reachable st
  | reach_call st z fuel r st' :
      reachable st -> inflate_blocks w fuel (with_stream st z) r = Some st' -> reachable st'.

(** C4: On a [w]-bit [unsigned long] with [w >= 32], every call of
    [inflate_blocks] from a typed state returns a typed state: [k] and
    [b] within the width, the window pointers within the window, and the
    member of [sub] the mode uses within its C ranges. *)
Theorem inflate_blocks_preserves_typed (fuel : nat) (st st' : blocks_state) (r : status) :
  32 <= w -> blocks_typed w st -> inflate_blocks w fuel st r = Some st' -> blocks_typed w st'.
Proof. intros Hw. apply inflate_blocks_typed; [exact CT|lia|exact MT|exact Hw]. Qed.

(** By induction on the session: [inflate_blocks_new], then the calls. *)
Lemma reachable_blocks_typed (st : blocks_state) :
  32 <= w -> reachable st -> blocks_typed w st.
Proof.
  intros Hw. induction 1 as [z chk wn b0 win0 st Hb Hwn Hlen E|st z fuel r st' _ IH E].
  - exact (inflate_blocks_new_typed w z chk wn b0 win0 st Hb Hwn Hlen E).
  - apply (inflate_blocks_typed w ltac:(lia) Hw fuel (with_stream st z) st' r); [exact IH|exact E].
Qed.

(** C3: Every state of a session, after any number of calls with any
    streams and statuses in between, is typed, when the bit buffer has
    at least 32 bits and the builder and the codes decoder meet their
    laws. *)
Theorem reachable_typed (st : blocks_state) :
  32 <= w -> reachable st -> blocks_typed w st.
Proof. apply reachable_blocks_typed. Qed.
End Session.

(** ** The codes decoder of [infcodes.c] keeps the context typed

    Proved with the Hoare triples of the prelude, one macro at a time:
    every NEEDBITS asks at most 15 bits, so 22-bit buffers suffice. *)

Section CodesLaw.
Variable w : Z.
Hypothesis Hw : 22 <= w.
#[local] Abbreviation T := (ctx_typed w).
#[local] Abbreviation ctyped := (fun st : cstate => ctx_typed w (cio st)).

Lemma NEEDBITS_triple (j : Z) :
  0 <= j -> j + 7 <= w -> triple T (NEEDBITS w j) (fun _ c => T c /\ j <= bitk (cs c)) T.
Proof.
  intros Hj Hjw c Hc. pose proof (NEEDBITS_typed w j c Hc (needbits_fits w j c Hjw Hc)) as H.
  destruct (NEEDBITS w j c); [destruct H as (? & ? & _); split|apply H]; assumption.
Qed.

Lemma DUMPBITS_triple (j : Z) :
  0 <= j -> triple (fun c => T c /\ j <= bitk (cs c)) (DUMPBITS j) (fun _ => T) T.
Proof. intros Hj c [Hc Hk]. destruct (DUMPBITS_typed w j c Hc ltac:(lia)) as (c' & -> & Hc' & _). exact Hc'. Qed.

Lemma NEEDOUT_triple : triple T NEEDOUT (fun _ c => T c /\ (0 < WAVAIL (cs c))%nat) T.
Proof. intros c Hc. pose proof (NEEDOUT_typed w c Hc) as H. destruct (NEEDOUT c); exact H. Qed.

Lemma OUTBYTE_triple (a : Z) :
  triple (fun c => T c /\ (0 < WAVAIL (cs c))%nat) (OUTBYTE a) (fun _ => T) T.
Proof. intros c [Hc Hw']. destruct (OUTBYTE_typed w a c Hc Hw') as (c' & -> & Hc' & _). exact Hc'. Qed.

Lemma clift_triple {A} (P : ctx -> Prop) (m : M ctx A) Q E :
  triple P m Q E ->
  triple (fun st => P (cio st)) (clift m) (fun a st => Q a (cio st)) (fun st => E (cio st)).
Proof. intros H st Hs. unfold clift. specialize (H _ Hs). destruct (m (cio st)); exact H. Qed.

Lemma GETBITS_triple (j : Z) : 0 <= j -> j + 7 <= w -> triple T (GETBITS w j) (fun _ => T) T.
Proof.
  intros Hj Hjw. unfold GETBITS.
  eapply triple_bind; [apply NEEDBITS_triple; lia|intros ?].
  eapply triple_bind; [apply triple_get|intros c0].
  eapply triple_bind; [apply DUMPBITS_triple; lia|intros ?].
  intros c Hc. exact Hc.
Qed.

(** Code lengths [L] to [L + n - 1], all at most 15. *)
Lemma decode_sym_triple (t : htable) (n L : nat) :
  (L + n <= 16)%nat -> triple T (decode_sym w t L n) (fun _ => T) T.
Proof.
  revert L. induction n as [|n IH]; intros L Hn; cbn [decode_sym]; [intros c Hc; exact Hc|].
  eapply triple_bind; [apply NEEDBITS_triple; lia|intros ?].
  eapply triple_bind; [apply triple_get|intros c0].
  destruct (hfind _ _ _) as [[? s]|].
  - eapply triple_bind; [apply DUMPBITS_triple; lia|intros ?]. intros c Hc. exact Hc.
  - eapply triple_conseq; [apply IH; lia|intros c [Hc _]; exact Hc|auto|auto].
Qed.

Lemma extra_bits_bound (i : nat) :
  0 <= nth i len_extra 0 <= 13 /\ 0 <= nth i dist_extra 0 <= 13.
Proof.
  assert (H : forall l, Forall (fun x => 0 <= x <= 13) l -> 0 <= nth i l 0 <= 13)
    by (intros l Hl; revert i; induction Hl; intros [|i]; cbn; auto; lia).
  split; apply H; repeat (constructor; [lia|]); constructor.
Qed.

Lemma set_cmode_triple (m : codes_mode) : triple ctyped (set_cmode m) (fun _ => ctyped) ctyped.
Proof. intros st Hs. exact Hs. Qed.

Lemma codes_error_triple (msg0 : string) : triple ctyped (codes_error msg0) (fun _ => ctyped) ctyped.
Proof. intros st Hs. exact Hs. Qed.

(** A step ending in a change of mode or an error. *)
Ltac cdone := repeat case_decide; first [apply set_cmode_triple | apply codes_error_triple].

(** One turn of [inflate_codes] keeps the context typed, in every mode. *)
Lemma codes_step_triple : triple ctyped (codes_step w) (fun _ => ctyped) ctyped.
Proof.
  unfold codes_step. eapply triple_bind; [apply triple_get|intros st].
  pose proof extra_bits_bound as Hx.
  destruct (cmode (cdec st)) as [|i|len|len i|len dist|c| |].
  - eapply triple_bind; [apply (clift_triple T), decode_sym_triple; lia|intros [s|]]; cdone.
  - eapply triple_bind; [apply (clift_triple T), GETBITS_triple; specialize (Hx i); lia|intros ?]; cdone.
  - eapply triple_bind; [apply (clift_triple T), decode_sym_triple; lia|intros [d|]]; cdone.
  - eapply triple_bind; [apply (clift_triple T), GETBITS_triple; specialize (Hx i); lia|intros ?].
    eapply triple_bind; [apply triple_get|intros ?]. cdone.
  - eapply triple_bind; [apply (clift_triple T), NEEDOUT_triple|intros ?].
    eapply triple_bind; [apply triple_get|intros st'].
    eapply triple_bind; [apply (clift_triple (fun c => T c /\ (0 < WAVAIL (cs c))%nat)), OUTBYTE_triple|intros ?].
    cdone.
  - eapply triple_bind; [apply (clift_triple T), NEEDOUT_triple|intros ?].
    eapply triple_bind; [apply (clift_triple (fun c => T c /\ (0 < WAVAIL (cs c))%nat)), OUTBYTE_triple|intros ?].
    cdone.
  - intros st' Hs. exact Hs.
  - intros st' Hs. exact Hs.
Qed.

Lemma codes_loop_triple (fuel : nat) : triple ctyped (codes_loop w fuel) (fun _ => ctyped) ctyped.
Proof.
  induction fuel as [|fuel IH]; cbn [codes_loop]; [intros st Hs; exact Hs|].
  eapply triple_bind; [apply codes_step_triple|intros ?]. exact IH.
Qed.

Lemma run_codes_typed (cd : codes) (c : ctx) : ctx_typed w c -> ctx_typed w (snd (run_codes w cd c)).
Proof.
  intros Hc. unfold run_codes. cbn [snd].
  pose proof (codes_loop_triple (codes_fuel c) (mk_cstate cd c) Hc) as H.
  destruct (codes_loop w _ _); exact H.
Qed.

(** The law [CodesTyped] of the decoder of [infcodes.c], over either
    table builder. *)
#[export] Instance bitwise_codes_typed : @CodesTyped w _ (bitwise_codes w).
Proof. intros cd c. apply run_codes_typed. Qed.

#[export] Instance checked_codes_typed : @CodesTyped w _ (checked_codes w).
Proof. intros cd c. apply run_codes_typed. Qed.
End CodesLaw.

