(* ===== verification/Progress.v ===== *)
(** * The outer loop of [inflate_blocks] terminates

    [while (1) switch (s->mode)] has no bound in the C; this file gives
    one.  The potential of a state is twice the number of bits still to
    read ([ibits]: the [k] bits of the buffer and the [8 n] bits of the
    input) plus a rank of its mode.  Every turn that does not leave
    lowers it: [case TYPE] drops at least its three header bits, the
    other cases never add bits (NEEDBITS moves bytes into [b], DUMPBITS
    drops bits, the codes decoder consumes input) and go to a mode of
    lower rank, the chain TABLE, BTREE, DTREE, CODES ending in TYPE or
    DRY.  DRY, DONE and INF_ERROR always leave.  So on a typed state
    ([Invariant]) [inflate_blocks] returns within [potential + 1]
    turns.  The codes decoder must not add input bits
    ([CodesProgress]); the one of [Codes] does not. *)

From Stdlib Require Import ZArith Lia List String.
From stdpp Require Import base list.
From S2P Require Import Prelude Zlib BitBuf Window Interfaces Trees Codes Blocks Session Invariant.

Open Scope Z_scope.

(** The bits still to read: [k] in the buffer, [8 n] in the input. *)
Definition ibits (c : ctx) : Z := bitk (cs c) + 8 * Z.of_nat (avail_in (cz c)).

(** A context with [k >= 0] and at most [N] bits still to read. *)
Definition KI (N : Z) (c : ctx) : Prop := 0 <= bitk (cs c) /\ ibits c <= N.

(** ** The macros and the bits still to read *)

(** A macro that touches neither [k] nor the input count. *)
Definition same_bits {A} (m : M ctx A) : Prop :=
  forall c, bitk (cs (res_state (m c))) = bitk (cs c) /\ avail_in (cz (res_state (m c))) = avail_in (cz c).

Lemma same_bits_triple {A} (m : M ctx A) (N : Z) : same_bits m -> triple (KI N) m (fun _ => KI N) (KI N).
Proof.
  intros H c [Hk Hn]. destruct (H c) as [E1 E2]. unfold KI, ibits in *.
  destruct (m c); cbn [res_state] in E1, E2; rewrite E1, E2; lia.
Qed.

Lemma same_bits_avail {A} (m : M ctx A) (N : Z) (E : ctx -> Prop) : same_bits m ->
  triple (fun c => KI N c /\ (0 < avail_in (cz c))%nat) m (fun _ c => KI N c /\ (0 < avail_in (cz c))%nat) (fun _ => True).
Proof.
  intros H c [[Hk Hn] Ha]. destruct (H c) as [E1 E2]. unfold KI, ibits in *.
  destruct (m c); cbn [res_state] in E1, E2; [rewrite E1, E2; lia|exact I].
Qed.

Lemma set_r_bits (r : status) : same_bits (set_r r).
Proof. intros c. split; reflexivity. Qed.

Lemma upd_z_bits (f : z_stream -> z_stream) :
  (forall z, avail_in (f z) = avail_in z) -> same_bits (upd_z f).
Proof. intros H c. split; [reflexivity|apply H]. Qed.

Lemma OUTBYTE_bits (a : Z) : same_bits (OUTBYTE a).
Proof. intros c. split; reflexivity. Qed.

Lemma FLUSH_bits : same_bits FLUSH.
Proof. intros c. destruct (inflate_flush_input c) as (E1 & _ & _ & E2 & _). exact (conj E1 E2). Qed.

Lemma wrap_bits (s : indep) : bitk (wrap_s s) = bitk s.
Proof. unfold wrap_s. case_decide; reflexivity. Qed.

Lemma NEEDOUT_bits : same_bits NEEDOUT.
Proof.
  intros c. unfold NEEDOUT, mbind, mget, set_r, mmodify, mret.
  destruct (decide (WAVAIL (cs c) = 0%nat)); [|split; reflexivity].
  rewrite WRAP_eq. cbn [res_state].
  destruct (decide (WAVAIL (cs (mk_ctx (wrap_s (cs c)) (cz c) (cr c))) = 0%nat));
    [|cbn; rewrite wrap_bits; split; reflexivity].
  unfold FLUSH, mmodify. rewrite WRAP_eq.
  destruct (FLUSH_bits (mk_ctx (wrap_s (cs c)) (cz c) (cr c))) as [E1 E2].
  cbn [res_state FLUSH mmodify cs cz] in E1, E2. rewrite wrap_bits in E1. unfold leave.
  destruct (decide _); cbn [res_state cs cz]; rewrite wrap_bits; exact (conj E1 E2).
Qed.

Lemma needbits_loop_KI (w j N : Z) (fuel : nat) :
  triple (fun c => KI N c /\ j <= bitk (cs c) + 8 * Z.of_nat fuel) (needbits_loop w fuel j)
    (fun _ c => KI N c /\ j <= bitk (cs c)) (KI N).
Proof.
  induction fuel as [|fuel IH]; intros c [[Hk Hn] Hj]; cbn [needbits_loop].
  { cbn. unfold KI. lia. }
  unfold mbind at 1, mget at 1. destruct (Z.ltb_spec (bitk (cs c)) j); [|cbn; unfold KI; lia].
  unfold mbind at 1, NEEDBYTE. destruct (avail_in (cz c)) as [|a] eqn:Ea; [exact (conj Hk Hn)|].
  cbn [mbind NEXTBYTE upd_s mmodify]. apply IH. unfold KI, ibits in *. cbn. rewrite Ea in Hn. lia.
Qed.

(** NEEDBITS(j) from [k >= 0] keeps the bits still to read, and goes
    on only with [j <= k]. *)
Lemma NEEDBITS_KI (w j N : Z) : triple (KI N) (NEEDBITS w j) (fun _ c => KI N c /\ j <= bitk (cs c)) (KI N).
Proof.
  intros c Hc. apply needbits_loop_KI. split; [exact Hc|]. destruct Hc as [Hk _].
  destruct (Z.le_gt_cases j 0); [lia|rewrite Z2Nat.id; lia].
Qed.

(** DUMPBITS(j) with [0 <= j <= k] drops [j] bits. *)
Lemma DUMPBITS_KI (j N : Z) (P : ctx -> Prop) :
  triple (fun c => KI N c /\ 0 <= j <= bitk (cs c)) (DUMPBITS j) (fun _ => KI (N - j)) P.
Proof. intros c [[Hk Hn] Hjk]. unfold KI, ibits in *. cbn. lia. Qed.

Lemma DUMPBITS_KI_any (j N : Z) (E : ctx -> Prop) :
  triple (fun c => KI N c /\ 0 <= j <= bitk (cs c)) (DUMPBITS j) (fun _ => KI N) E.
Proof. intros c [[Hk Hn] Hjk]. unfold KI, ibits in *. cbn. lia. Qed.

(** [k = 0] with the buffer left as it is. *)
Lemma upd_s_KI (E : ctx -> Prop) (N : Z) :
  triple (KI N) (upd_s (fun s => set_bits s (bitb s) 0)) (fun _ => KI N) E.
Proof. intros c [Hk Hn]. unfold KI, ibits in *. cbn. lia. Qed.

(** DUMPBITS(j) with [j + m <= k] leaves at least [m] bits. *)
Lemma DUMPBITS_KI_keep (j m N : Z) (E : ctx -> Prop) :
  triple (fun c => KI N c /\ 0 <= j /\ 0 <= m /\ j + m <= bitk (cs c)) (DUMPBITS j)
    (fun _ c => KI N c /\ m <= bitk (cs c)) E.
Proof. intros c [[Hk Hn] Hjk]. unfold KI, ibits in *. cbn. lia. Qed.

Lemma NEEDBYTE_KI (N : Z) :
  triple (KI N) NEEDBYTE (fun _ c => KI N c /\ (0 < avail_in (cz c))%nat) (KI N).
Proof. intros c Hc. unfold NEEDBYTE. destruct (avail_in (cz c)) eqn:E; [exact Hc|]. cbn. rewrite E. split; [exact Hc|lia]. Qed.

(** NEXTBYTE takes a byte of the input: eight bits fewer to read. *)
Lemma NEXTBYTE_KI (N : Z) (P : ctx -> Prop) :
  triple (fun c => KI N c /\ (0 < avail_in (cz c))%nat) NEXTBYTE (fun _ => KI (N - 8)) P.
Proof.
  intros c [[Hk Hn] Ha]. unfold KI, ibits in *. cbn.
  destruct (avail_in (cz c)); [lia|]. cbn [pred]. lia.
Qed.

Lemma KI_weaken (N N' : Z) (c : ctx) : N <= N' -> KI N c -> KI N' c.
Proof. unfold KI. lia. Qed.

Lemma DUMPBITS_KI_le (j N : Z) : 0 <= j ->
  triple (fun c => KI N c /\ j <= bitk (cs c)) (DUMPBITS j) (fun _ => KI N) (KI N).
Proof.
  intros Hj. eapply triple_conseq; [apply (DUMPBITS_KI j N (KI N))|intros c [? ?]; split; [auto|lia]|..|auto].
  intros ? c. apply KI_weaken. lia.
Qed.

(** ** The codes decoder reads no bit twice

    Every DUMPBITS of [infcodes.c] drops a code length or a number of
    extra bits, never a negative count: a call of the decoder never
    adds bits to read.  A law of the interface [CodesDecoder] the
    loop of [inflate_blocks] needs, proved of the decoder of [Codes]. *)

Class CodesProgress `{CodesDecoder} :=
  codes_progress : forall N cd c, KI N c -> KI N (snd (inflate_codes cd c)).

Section CodesProgress.
Variable w : Z.
Variable N : Z.
#[local] Abbreviation CK := (fun st : cstate => KI N (cio st)).

Lemma decode_sym_KI (t : htable) (L n : nat) : triple (KI N) (decode_sym w t L n) (fun _ => KI N) (KI N).
Proof.
  revert L. induction n as [|n IH]; intros L; cbn [decode_sym]; [intros c Hc; exact Hc|].
  eapply triple_bind; [apply NEEDBITS_KI|intros ?].
  eapply triple_bind; [apply triple_get|intros c0].
  destruct (hfind _ _ _) as [[? s]|].
  - eapply triple_bind; [apply DUMPBITS_KI_le; lia|intros ?]. intros c Hc. exact Hc.
  - eapply triple_conseq; [apply IH|intros c [Hc _]; exact Hc|auto|auto].
Qed.

Lemma GETBITS_KI (j : Z) : 0 <= j -> triple (KI N) (GETBITS w j) (fun _ => KI N) (KI N).
Proof.
  intros Hj. unfold GETBITS.
  eapply triple_bind; [apply NEEDBITS_KI|intros ?].
  eapply triple_bind; [apply triple_get|intros c0].
  eapply triple_bind; [apply DUMPBITS_KI_le, Hj|intros ?].
  intros c Hc. exact Hc.
Qed.

Lemma clift_KI {A} (m : M ctx A) :
  triple (KI N) m (fun _ => KI N) (KI N) -> triple CK (clift m) (fun _ => CK) CK.
Proof. intros H. apply (clift_triple (KI N) m (fun _ => KI N) (KI N) H). Qed.

Lemma set_cmode_KI (m : codes_mode) : triple CK (set_cmode m) (fun _ => CK) CK.
Proof. intros st Hs. exact Hs. Qed.

Lemma codes_error_KI (msg0 : string) : triple CK (codes_error msg0) (fun _ => CK) CK.
Proof. intros st Hs. exact Hs. Qed.

Ltac kdone := repeat case_decide; first [apply set_cmode_KI | apply codes_error_KI].

Lemma codes_step_KI : triple CK (codes_step w) (fun _ => CK) CK.
Proof.
  unfold codes_step. eapply triple_bind; [apply triple_get|intros st].
  pose proof extra_bits_bound as Hx.
  destruct (cmode (cdec st)) as [|i|len|len i|len dist|c| |].
  - eapply triple_bind; [apply clift_KI, decode_sym_KI|intros [s|]]; kdone.
  - eapply triple_bind; [apply clift_KI, GETBITS_KI; apply (Hx i)|intros ?]; kdone.
  - eapply triple_bind; [apply clift_KI, decode_sym_KI|intros [d|]]; kdone.
  - eapply triple_bind; [apply clift_KI, GETBITS_KI; apply (Hx i)|intros ?].
    eapply triple_bind; [apply triple_get|intros ?]. kdone.
  - eapply triple_bind; [apply clift_KI, same_bits_triple, NEEDOUT_bits|intros ?].
    eapply triple_bind; [apply triple_get|intros st'].
    eapply triple_bind; [apply clift_KI, same_bits_triple, OUTBYTE_bits|intros ?]. kdone.
  - eapply triple_bind; [apply clift_KI, same_bits_triple, NEEDOUT_bits|intros ?].
    eapply triple_bind; [apply clift_KI, same_bits_triple, OUTBYTE_bits|intros ?]. kdone.
  - intros st' Hs. exact Hs.
  - intros st' Hs. exact Hs.
Qed.

Lemma codes_loop_KI (fuel : nat) : triple CK (codes_loop w fuel) (fun _ => CK) CK.
Proof.
  induction fuel as [|fuel IH]; cbn [codes_loop]; [intros st Hs; exact Hs|].
  eapply triple_bind; [apply codes_step_KI|intros ?]. exact IH.
Qed.

Lemma run_codes_KI (cd : codes) (c : ctx) : KI N c -> KI N (snd (run_codes w cd c)).
Proof.
  intros Hc. unfold run_codes. cbn [snd].
  pose proof (codes_loop_KI (codes_fuel c) (mk_cstate cd c) Hc) as H.
  destruct (codes_loop w _ _); exact H.
Qed.
End CodesProgress.

#[export] Instance bitwise_codes_progress (w : Z) : @CodesProgress _ (bitwise_codes w).
Proof. intros N cd c. apply run_codes_KI. Qed.

#[export] Instance checked_codes_progress (w : Z) : @CodesProgress _ (checked_codes w).
Proof. intros N cd c. apply run_codes_KI. Qed.

(** ** The block decoder, case by case *)

Section Cases.
Context `{TB : TreeBuilder} `{CD : @CodesDecoder TB}.

(** The rank of a mode: each case that goes on moves to a mode of lower
    rank, or drops bits ([case TYPE]: three header bits for at most
    two steps of rank). *)
Definition rank (m : block_mode) : Z :=
  match m with
  | TYPE => 1
  | LENS => 3
  | STORED _ | TABLE | CODES _ => 2
  | BTREE _ | DTREE _ => 4
  | DRY | DONE | INF_ERROR => 0
  end.

Definition potential (st : blocks_state) : Z := ibits (io st) + rank (mode st).

(** The lengths of BTREE and the meta table of DTREE, as the invariant
    of [Invariant] has them: what a call resumed in these modes needs. *)
Definition resumable (m : block_mode) : Prop :=
  match m with
  | BTREE tr => Forall (fun x => 0 <= x <= 7) (blens tr)
  | DTREE tr => meta_ok tr
  | _ => True
  end.


Context `{HL : !HeapLaws} `{CP : !CodesProgress} `{MT : !MetaTables}.
Variable w : Z.

Definition BI (N : Z) (st : blocks_state) : Prop := KI N (io st).

(** A computation of the block decoder that, if it goes on, ends in [Q];
    where it leaves does not matter here. *)
Definition goes_on {A} (P : blocks_state -> Prop) (m : M blocks_state A) (Q : A -> blocks_state -> Prop) :=
  triple P m Q (fun _ => True).

Lemma lift_goes_on {A} (P : ctx -> Prop) (m : M ctx A) Q E :
  triple P m Q E -> goes_on (fun st => P (io st)) (lift m) (fun a st => Q a (io st)).
Proof. intros H st Hs. unfold lift. specialize (H _ Hs). destruct (m (io st)); [exact H|exact I]. Qed.

Lemma lift_BI {A} (N : Z) (m : M ctx A) E :
  triple (KI N) m (fun _ => KI N) E -> goes_on (BI N) (lift m) (fun _ => BI N).
Proof. apply lift_goes_on. Qed.

Lemma get_goes_on (P : blocks_state -> Prop) : goes_on P mget (fun a st => P st /\ st = a).
Proof. intros st Hs. exact (conj Hs eq_refl). Qed.

Lemma set_mode_goes_on (P : ctx -> Prop) (m : block_mode) :
  goes_on (fun st => P (io st)) (set_mode m) (fun _ st => P (io st) /\ mode st = m).
Proof. intros st Hs. exact (conj Hs eq_refl). Qed.

Lemma modify_goes_on (P : ctx -> Prop) (f : blocks_state -> blocks_state) :
  (forall st, io (f st) = io st) -> goes_on (fun st => P (io st)) (mmodify f) (fun _ st => P (io st)).
Proof. intros H st Hs. cbn. rewrite H. exact Hs. Qed.

Lemma leave_goes_on {A} (P : blocks_state -> Prop) Q : goes_on P (leave (A := A)) Q.
Proof. intros st _. exact I. Qed.

Lemma data_error_goes_on {A} (P : blocks_state -> Prop) Q (m : string) : goes_on P (data_error (A := A) m) Q.
Proof. intros st _. exact I. Qed.

Lemma goes_on_pure {A} (P : blocks_state -> Prop) (R : Prop) (m : M blocks_state A) Q :
  (R -> goes_on P m Q) -> goes_on (fun s => P s /\ R) m Q.
Proof. intros H s [Hs HR]. exact (H HR s Hs). Qed.

Lemma goes_on_bind {A B} P (m : M blocks_state A) Q (k : A -> M blocks_state B) R :
  goes_on P m Q -> (forall a, goes_on (Q a) (k a) R) -> goes_on P (mbind m k) R.
Proof. apply triple_bind. Qed.

Lemma goes_on_conseq {A} (P P' : blocks_state -> Prop) (m : M blocks_state A) (Q Q' : A -> blocks_state -> Prop) :
  goes_on P' m Q' -> (forall s, P s -> P' s) -> (forall a s, Q' a s -> Q a s) -> goes_on P m Q.
Proof. intros H HP HQ. eapply triple_conseq; [exact H|exact HP|exact HQ|auto]. Qed.

(** A stream the allocator or a message changed has the same input. *)
Lemma upd_z_KI (N j : Z) (z0 z' : z_stream) (E : ctx -> Prop) :
  heap_frame z0 z' ->
  triple (fun c => (KI N c /\ j <= bitk (cs c)) /\ cz c = z0) (upd_z (fun _ => z')) (fun _ c => KI N c /\ j <= bitk (cs c)) E.
Proof. intros -> c [Hc <-]. exact Hc. Qed.

Lemma upd_z_chain (N : Z) (z0 z' : z_stream) (E : ctx -> Prop) :
  heap_frame z0 z' ->
  triple (fun c => KI N c /\ cz c = z0) (upd_z (fun _ => z')) (fun _ c => KI N c /\ cz c = z') E.
Proof. intros -> c [Hc <-]. exact (conj Hc eq_refl). Qed.

Lemma DUMPBITS_goes_on (N j : Z) : 0 <= j ->
  goes_on (fun st => KI N (io st) /\ j <= bitk (cs (io st))) (lift (DUMPBITS j)) (fun _ => BI (N - j)).
Proof.
  intros Hj. eapply goes_on_conseq; [eapply lift_goes_on; eapply (DUMPBITS_KI _ _ (fun _ => True))|..].
  - intros s [Hs Hk]. split; [exact Hs|split; [lia|exact Hk]].
  - intros ? ? H. exact H.
Qed.

Lemma land7_KI (N : Z) (c : ctx) : KI N c -> 0 <= Z.land (bitk (cs c)) 7 <= bitk (cs c).
Proof. intros [Hk _]. exact (proj1 (land7_le _ Hk)). Qed.

Ltac gstep := first
  [ eapply goes_on_bind; [eapply lift_goes_on; apply NEEDBITS_KI|intros ?]
  | eapply goes_on_bind; [apply get_goes_on|intros ?]
  | eapply goes_on_bind; [eapply lift_goes_on; apply same_bits_triple; first [apply set_r_bits | apply FLUSH_bits]|intros ?] ].

(** [case TYPE] drops its three header bits before it goes on, to
    LENS, CODES or TABLE. *)
Lemma case_TYPE_progress (N : Z) :
  goes_on (BI N) (case_TYPE w) (fun _ st => BI (N - 3) st /\ rank (mode st) <= 3).
Proof.
  unfold case_TYPE. gstep. gstep. rename a0 into st.
  eapply goes_on_bind;
    [eapply goes_on_conseq; [apply (modify_goes_on (fun c => (KI N c /\ 3 <= bitk (cs c)) /\ cz c = cz (io st))); reflexivity|
                             intros s [Hs ->]; exact (conj Hs eq_refl)|intros ? ? H; exact H]|intros ?].
  assert (Hd : forall Q (k : M blocks_state unit), (forall a : unit, goes_on (fun st => BI (N - 3) st) k Q) ->
            goes_on (fun s => (KI N (io s) /\ 3 <= bitk (cs (io s))) /\ cz (io s) = cz (io st)) (lift (DUMPBITS 3) ;; k) Q).
  { intros Q k Hk. eapply goes_on_bind; [|exact Hk].
    eapply goes_on_conseq; [apply DUMPBITS_goes_on; lia|intros s [Hs _]; exact Hs|auto]. }
  destruct (Z.shiftr _ 1) as [|[p|p|]|p].
  - apply Hd. intros _.
    eapply goes_on_bind; [apply get_goes_on|intros st1].
    eapply goes_on_bind; [eapply goes_on_conseq; [eapply lift_goes_on; eapply (DUMPBITS_KI_any _ _ (fun _ => True))|
      intros s [Hs ->]; exact (conj Hs (land7_KI _ _ Hs))|intros ? ? H; exact H]|intros ?].
    eapply goes_on_conseq; [apply set_mode_goes_on|exact (fun s H => H)|].
    intros ? s [Hs ->]. split; [exact Hs|cbn; lia].
  - apply Hd. intros _. apply data_error_goes_on.
  - destruct p; apply Hd; intros _; try apply data_error_goes_on.
    eapply goes_on_conseq; [apply set_mode_goes_on|exact (fun s H => H)|].
    intros ? s [Hs ->]. split; [exact Hs|cbn; lia].
  - destruct inflate_trees_fixed as [[[bl bd] tl] td] eqn:Ef.
    destruct (inflate_codes_new bl bd tl td (cz (io st))) as [[cd z']|] eqn:Ec; [|intros s _; exact I].
    eapply goes_on_bind; [eapply (lift_goes_on (fun c => (KI N c /\ 3 <= bitk (cs c)) /\ cz c = cz (io st))); eapply (upd_z_KI _ _ _ _ (fun _ => True)); exact (codes_new_heap _ _ _ _ _ _ _ Ec)|intros ?].
    eapply goes_on_bind; [apply DUMPBITS_goes_on; lia|intros ?].
    eapply goes_on_conseq; [apply set_mode_goes_on|exact (fun s H => H)|].
    intros ? s [Hs ->]. split; [exact Hs|cbn; lia].
  - apply Hd. intros _. apply data_error_goes_on.
Qed.

(** [case LENS] sets [k = 0]: no bit is added. *)
Lemma case_LENS_progress (N : Z) :
  goes_on (BI N) (case_LENS w) (fun _ st => BI N st /\ rank (mode st) <= 2).
Proof.
  unfold case_LENS. gstep. gstep.
  destruct (stored_lengths_bad _); [apply data_error_goes_on|].
  eapply goes_on_bind.
  - eapply goes_on_conseq; [eapply lift_goes_on; eapply (upd_s_KI (fun _ => True))|intros s [[Hs _] _]; exact Hs|].
    intros ? ? H. exact H.
  - intros ?. eapply goes_on_conseq; [apply set_mode_goes_on|exact (fun s H => H)|].
    intros ? s [Hs ->]. split; [exact Hs|]. destruct (Z.to_nat _); cbn; lia.
Qed.

(** [case DRY] always leaves: into [LEAVE] or through [case DONE]. *)
Lemma case_DRY_leaves (P : blocks_state -> Prop) (Q : unit -> blocks_state -> Prop) : goes_on P case_DRY Q.
Proof. intros st _. unfold case_DRY. cbn. case_decide; exact I. Qed.

(** The copy of a stored block takes a byte of input for each byte out. *)
Lemma stored_copy_progress (N : Z) (n : nat) : goes_on (BI N) (stored_copy n) (fun _ => BI N).
Proof.
  revert N. induction n as [|n IH]; intros N; cbn [stored_copy]; [intros s Hs; exact Hs|].
  eapply goes_on_bind; [eapply lift_goes_on; apply NEEDBYTE_KI|intros ?].
  eapply goes_on_bind; [eapply (lift_goes_on (fun c => KI N c /\ (0 < avail_in (cz c))%nat)); apply (same_bits_avail _ N (fun _ => True) NEEDOUT_bits)|intros ?].
  eapply goes_on_bind; [eapply (lift_goes_on (fun c => KI N c /\ (0 < avail_in (cz c))%nat)); apply (NEXTBYTE_KI N (fun _ => True))|intros ?].
  eapply goes_on_bind; [eapply lift_goes_on; apply (same_bits_triple _ (N - 8) (OUTBYTE_bits _))|intros ?].
  eapply goes_on_bind; [apply (set_mode_goes_on (KI (N - 8)))|intros ?].
  destruct n as [|n]; [intros s [Hs _]; revert Hs; apply KI_weaken; lia|].
  eapply goes_on_conseq; [apply (IH (N - 8))|intros s [Hs _]; exact Hs|].
  intros ? s. apply KI_weaken. lia.
Qed.

(** [case STORED]: the copy, then TYPE or DRY. *)
Lemma case_STORED_progress (N : Z) (n : nat) :
  goes_on (BI N) (case_STORED n) (fun _ st => BI N st /\ rank (mode st) <= 1).
Proof.
  unfold case_STORED. eapply goes_on_bind; [apply stored_copy_progress|intros ?]. gstep.
  eapply goes_on_conseq; [apply set_mode_goes_on|intros s [Hs _]; exact Hs|].
  intros ? s [Hs ->]. split; [exact Hs|]. destruct (last _); cbn; lia.
Qed.

Lemma goes_on_True {A} (P : blocks_state -> Prop) (m : M blocks_state A) : goes_on P m (fun _ _ => True).
Proof. intros st _. destruct (m st); exact I. Qed.

(** What the cases of a dynamic or fixed block promise: if they go on,
    it is to TYPE, the block done, with no bit added. *)
Definition to_TYPE (N : Z) (_ : unit) (st : blocks_state) : Prop := BI N st /\ mode st = TYPE.

Lemma to_TYPE_le (N N' : Z) (a : unit) (st : blocks_state) : N <= N' -> to_TYPE N a st -> to_TYPE N' a st.
Proof. intros HN [Hs Hm]. split; [revert Hs; apply KI_weaken, HN|exact Hm]. Qed.

(** [case CODES] goes on only at the end of a block that is not the
    last, to TYPE; after the last block it goes on into DRY, which
    leaves. *)
Lemma case_CODES_progress (N : Z) (cd : codes_state) : goes_on (BI N) (case_CODES cd) (to_TYPE N).
Proof.
  unfold case_CODES. eapply goes_on_bind; [apply get_goes_on|intros st].
  destruct (inflate_codes cd (io st)) as [cd' c'] eqn:E.
  eapply goes_on_bind with (Q := fun _ => BI N);
    [intros s [Hs ->]; cbn; pose proof (codes_progress N cd (io st) Hs) as H; rewrite E in H; exact H|intros ?].
  case_decide; [apply leave_goes_on|].
  eapply goes_on_bind; [eapply lift_goes_on; apply same_bits_triple, set_r_bits|intros ?].
  eapply goes_on_bind; [eapply lift_goes_on; apply same_bits_triple, upd_z_bits;
                        intros z; rewrite (codes_free_heap cd' z); reflexivity|intros ?].
  destruct (last st); cbn [negb].
  - eapply goes_on_bind; [apply goes_on_True|intros ?].
    eapply goes_on_bind; [apply goes_on_True|intros ?]. apply case_DRY_leaves.
  - eapply goes_on_conseq; [apply set_mode_goes_on|exact (fun s H => H)|].
    intros ? s [Hs Hm]. exact (conj Hs Hm).
Qed.

(** A run of steps ending in [LEAVE]. *)
Ltac leaves := repeat (eapply goes_on_bind; [apply goes_on_True|intros ?]); apply leave_goes_on.

Lemma set_mode_BI (N : Z) (m : block_mode) : goes_on (BI N) (set_mode m) (fun _ => BI N).
Proof. intros st Hs. exact Hs. Qed.

(** After the loop of [case DTREE]: the frees and the builder keep the
    input, and the codes decoder ends the block. *)
Lemma dtree_build_progress (N : Z) (tr : trees_state) : goes_on (BI N) (dtree_build tr) (to_TYPE N).
Proof.
  unfold dtree_build.
  eapply goes_on_bind with (Q := fun _ => BI N);
    [destruct (tb tr) as [h|]; [eapply lift_BI; apply same_bits_triple, upd_z_bits;
       intros z; rewrite (trees_free_heap h z); reflexivity|intros s Hs; exact Hs]|intros ?].
  eapply goes_on_bind; [apply set_mode_BI|intros ?].
  eapply goes_on_bind; [apply get_goes_on|intros st].
  destruct (inflate_trees_dynamic _ _ _ _ _ _) as [res z'] eqn:E.
  eapply goes_on_bind;
    [eapply goes_on_conseq; [eapply (lift_goes_on (fun c => KI N c /\ cz c = cz (io st)));
       apply (upd_z_chain N _ z' (fun _ => True)); pose proof (trees_dynamic_heap (257 + Z.land (table (set_tb tr (bb tr) None)) 31)
    (1 + Z.land (Z.shiftr (table (set_tb tr (bb tr) None)) 5) 31) (blens (set_tb tr (bb tr) None)) 9 6 (cz (io st))) as H;
       rewrite E in H; exact H|intros s [Hs ->]; exact (conj Hs eq_refl)|exact (fun _ _ H => H)]|intros ?].
  destruct res as [[[[bl bd] tl] td]|e]; [|leaves].
  destruct (inflate_codes_new bl bd tl td z') as [[cd z'']|] eqn:Ec; [|leaves].
  eapply goes_on_bind;
    [eapply goes_on_conseq; [eapply (lift_goes_on (fun c => KI N c /\ cz c = z'));
       apply (upd_z_chain N _ _ (fun _ => True)); eapply heap_frame_trans;
       [exact (codes_new_heap _ _ _ _ _ _ _ Ec)|apply heap_frame_zfree]|exact (fun _ H => H)|
       intros ? s [Hs _]; exact Hs]|intros ?].
  eapply goes_on_bind; [apply set_mode_BI|intros ?]. apply case_CODES_progress.
Qed.

(** The code length read from a well-formed meta table is at most its
    root width. *)
Lemma meta_entry_bits (tr : trees_state) (b : Z) :
  meta_ok tr -> 0 <= fst (meta_entry tr (Z.land b (inflate_mask (bb tr)))) <= bb tr.
Proof.
  intros [Hbb Hent]. unfold inflate_mask. rewrite Z.land_ones by lia.
  apply Hent, Z.mod_pos_bound, Z.pow_pos_nonneg; lia.
Qed.

(** The loop of [case DTREE] drops the bits of each length it reads,
    never more than it has asked for. *)
Lemma dtree_loop_progress (N : Z) (n : nat) (tr : trees_state) :
  meta_ok tr -> goes_on (BI N) (dtree_loop w n tr) (fun _ => BI N).
Proof.
  revert tr. induction n as [|n IH]; intros tr Hm; cbn [dtree_loop]; [intros s Hs; exact Hs|].
  case_decide; [|intros s Hs; exact Hs].
  gstep. eapply goes_on_bind; [apply get_goes_on|intros st].
  pose proof (meta_entry_bits tr (bitb (cs (io st))) Hm) as Ht.
  destruct (meta_entry _ _) as [t sym]. cbn [fst] in Ht.
  case_decide.
  - eapply goes_on_bind; [eapply goes_on_conseq; [eapply (lift_goes_on (fun c => KI N c /\ 0 <= t <= bitk (cs c)));
      apply (DUMPBITS_KI_any _ _ (fun _ => True))|intros s [[Hs Hk] ->]; split; [exact Hs|lia]|exact (fun _ _ H => H)]|intros ?].
    eapply goes_on_bind; [apply set_mode_BI|intros ?]. apply IH.
    eapply meta_ok_same; [apply same_meta_set_blens, length_insert|exact Hm].
  - set (i := if decide (sym = 18) then 7 else sym - 14).
    assert (Hi : 0 <= i) by (subst i; case_decide; lia).
    eapply goes_on_bind; [eapply goes_on_conseq; [eapply lift_goes_on; apply NEEDBITS_KI|
      intros s [[Hs _] _]; exact Hs|exact (fun _ _ H => H)]|intros ?].
    eapply goes_on_bind; [eapply goes_on_conseq; [eapply (lift_goes_on (fun c => KI N c /\ 0 <= t /\ 0 <= i /\ t + i <= bitk (cs c)));
      apply (DUMPBITS_KI_keep _ _ _ (fun _ => True))|intros s [Hs Hk]; split; [exact Hs|lia]|exact (fun _ _ H => H)]|intros ?].
    eapply goes_on_bind; [apply get_goes_on|intros st2].
    eapply goes_on_bind; [eapply goes_on_conseq; [eapply (lift_goes_on (fun c => KI N c /\ 0 <= i <= bitk (cs c)));
      apply (DUMPBITS_KI_any _ _ (fun _ => True))|intros s [[Hs Hk] ->]; split; [exact Hs|lia]|exact (fun _ _ H => H)]|intros ?].
    case_decide; [apply data_error_goes_on|].
    eapply goes_on_bind; [apply set_mode_BI|intros ?]. apply IH.
    eapply meta_ok_same; [apply same_meta_set_blens, length_fill_lens|exact Hm].
Qed.

Lemma case_DTREE_progress (N : Z) (tr : trees_state) :
  meta_ok tr -> goes_on (BI N) (case_DTREE w tr) (to_TYPE N).
Proof.
  intros Hm. unfold case_DTREE. eapply goes_on_bind; [apply dtree_loop_progress, Hm|intros ?].
  apply dtree_build_progress.
Qed.

Lemma land7_any (x : Z) : 0 <= Z.land x 7 <= 7.
Proof.
  change 7 with (Z.ones 3). rewrite Z.land_ones by lia.
  pose proof (Z.mod_pos_bound x (2 ^ 3) ltac:(lia)). change (2 ^ 3) with 8 in *. change (Z.ones 3) with 7. lia.
Qed.

Definition lens3 (tr : trees_state) : Prop := Forall (fun x => 0 <= x <= 7) (blens tr).

(** The reads of [case BTREE]: three bits per length, each stored as a
    length of 0..7. *)
Lemma btree_read_progress (N : Z) (n : nat) (tr : trees_state) :
  lens3 tr -> goes_on (BI N) (btree_read w n tr) (fun tr' st => BI N st /\ lens3 tr').
Proof.
  revert N tr. induction n as [|n IH]; intros N tr Hl; cbn [btree_read]; [intros s Hs; exact (conj Hs Hl)|].
  gstep. eapply goes_on_bind; [apply get_goes_on|intros st].
  eapply goes_on_bind; [eapply goes_on_conseq; [apply (set_mode_goes_on (fun c => KI N c /\ 3 <= bitk (cs c)))|
    intros s [Hs _]; exact Hs|intros ? ? [H _]; exact H]|intros ?].
  eapply goes_on_bind; [apply DUMPBITS_goes_on; lia|intros ?].
  eapply goes_on_conseq; [apply (IH (N - 3))|exact (fun _ H => H)|].
  - apply Forall_insert; [exact Hl|apply land7_any].
  - intros ? s [Hs H]. split; [revert Hs; apply KI_weaken; lia|exact H].
Qed.

(** The build at the end of [case BTREE], from width 7, gives DTREE a
    meta table the loop can read ([MetaTables]). *)
Lemma btree_build_progress (N : Z) (tr : trees_state) :
  bb tr = 7 -> lens3 tr -> goes_on (BI N) (btree_build w tr) (to_TYPE N).
Proof.
  intros H7 Hl. unfold btree_build. eapply goes_on_bind; [apply get_goes_on|intros st].
  destruct (inflate_trees_bits (blens tr) (bb tr) (cz (io st))) as [res z'] eqn:E.
  eapply goes_on_bind;
    [eapply goes_on_conseq; [eapply (lift_goes_on (fun c => KI N c /\ cz c = cz (io st)));
       apply (upd_z_chain N _ z' (fun _ => True)); pose proof (trees_bits_heap (blens tr) (bb tr) (cz (io st))) as H;
       rewrite E in H; exact H|intros s [Hs ->]; exact (conj Hs eq_refl)|intros ? s [Hs _]; exact Hs]|intros ?].
  destruct res as [[w' h]|e]; [|leaves].
  eapply goes_on_bind; [apply set_mode_BI|intros ?]. apply case_DTREE_progress.
  rewrite H7 in E. destruct (meta_tables _ _ _ _ _ Hl E) as [Hw' Hent].
  split; [exact Hw'|]. intros idx Hidx. exact (Hent idx Hidx).
Qed.

Lemma case_BTREE_progress (N : Z) (tr : trees_state) :
  lens3 tr -> goes_on (BI N) (case_BTREE w tr) (to_TYPE N).
Proof.
  intros Hl. unfold case_BTREE. eapply goes_on_bind; [apply btree_read_progress, Hl|intros tr'].
  apply goes_on_pure. intros Hl'.
  eapply goes_on_bind; [apply set_mode_BI|intros ?]. apply btree_build_progress; [reflexivity|].
  apply btree_zero_lens, Hl'.
Qed.

(** [case TABLE]: fourteen header bits, the lengths array, then BTREE
    on lengths all 0. *)
Lemma case_TABLE_progress (N : Z) : goes_on (BI N) (case_TABLE w) (to_TYPE N).
Proof.
  unfold case_TABLE. gstep. eapply goes_on_bind; [apply get_goes_on|intros st].
  case_decide; [apply data_error_goes_on|].
  destruct (zalloc ObjBlens (cz (io st))) as [z'|] eqn:Ez; [|leaves].
  eapply goes_on_bind;
    [eapply goes_on_conseq; [eapply (lift_goes_on (fun c => (KI N c /\ 14 <= bitk (cs c)) /\ cz c = cz (io st)));
       apply (upd_z_KI _ _ _ _ (fun _ => True)); exact (heap_frame_zalloc _ _ _ Ez)|
       intros s [Hs ->]; exact (conj Hs eq_refl)|exact (fun _ _ H => H)]|intros ?].
  eapply goes_on_bind; [apply DUMPBITS_goes_on; lia|intros ?].
  eapply goes_on_bind; [apply set_mode_BI|intros ?].
  eapply goes_on_conseq; [apply (case_BTREE_progress (N - 14))|exact (fun _ H => H)|intros ? ?; apply to_TYPE_le; lia].
  apply List.Forall_forall. intros x Hx. apply repeat_spec in Hx. lia.
Qed.

(** ** The loop *)

Lemma rank_resumable (m : block_mode) : rank m <= 3 -> resumable m.
Proof. destruct m; cbn; first [exact (fun _ => I) | lia]. Qed.

Lemma potential_nonneg (st : blocks_state) : 0 <= bitk (cs (io st)) -> 0 <= potential st.
Proof. intros Hk. unfold potential, ibits. destruct (mode st); cbn; lia. Qed.

(** What a turn promises: if it goes on, [k >= 0], a mode a call may
    resume in, and a lower potential. *)
Definition decreases (st : blocks_state) (o : res blocks_state unit) : Prop :=
  match o with
  | Cont _ st' => 0 <= bitk (cs (io st')) /\ resumable (mode st') /\ potential st' < potential st
  | Exit _ => True
  end.

Lemma decreases_of (m : M blocks_state unit) (st : blocks_state) (d r : Z) :
  goes_on (BI (ibits (io st))) m (fun _ st' => BI (ibits (io st) - d) st' /\ rank (mode st') <= r) ->
  r <= 3 -> r - d < rank (mode st) -> 0 <= bitk (cs (io st)) -> decreases st (m st).
Proof.
  intros H Hr Hd Hk. specialize (H st (conj Hk (Z.le_refl _))). unfold decreases.
  destruct (m st) as [u st'|]; [|exact I]. destruct H as [[Hk' Hn'] Hr'].
  split; [exact Hk'|split; [apply rank_resumable; lia|unfold potential; lia]].
Qed.

Lemma rank_le (N : Z) (r : Z) (m : M blocks_state unit) :
  goes_on (BI N) m (fun _ st' => BI N st' /\ rank (mode st') <= r) ->
  goes_on (BI N) m (fun _ st' => BI (N - 0) st' /\ rank (mode st') <= r).
Proof. rewrite Z.sub_0_r. exact id. Qed.

Lemma to_TYPE_rank (N : Z) (m : M blocks_state unit) :
  goes_on (BI N) m (to_TYPE N) -> goes_on (BI N) m (fun _ st' => BI (N - 0) st' /\ rank (mode st') <= 1).
Proof.
  intros H. eapply goes_on_conseq; [exact H|exact (fun _ H => H)|].
  intros ? s [Hs Hm]. rewrite Hm, Z.sub_0_r. exact (conj Hs (Z.le_refl _)).
Qed.

Lemma leaves_decreases (m : M blocks_state unit) (st : blocks_state) :
  goes_on (fun _ => True) m (fun _ _ => False) -> decreases st (m st).
Proof. intros H. specialize (H st I). unfold decreases. destruct (m st); [contradiction|exact I]. Qed.

Ltac dcase d r lem :=
  apply (decreases_of _ _ d r);
    [ eapply goes_on_conseq; [lem|exact (fun _ H => H)|intros ? ? H; exact H]
    | lia | match goal with E : mode _ = _ |- _ => rewrite E end; cbn [rank]; lia | assumption ].

(** One turn of the loop lowers the potential, whatever the mode. *)
Lemma blocks_step_decreases (st : blocks_state) :
  0 <= bitk (cs (io st)) -> resumable (mode st) -> decreases st (blocks_step w st).
Proof.
  intros Hk Hr. unfold blocks_step. cbn [mbind mget].
  destruct (mode st) eqn:Em; cbn [resumable] in Hr;
    [ dcase 3 3 ltac:(apply case_TYPE_progress) | dcase 0 2 ltac:(apply rank_le, case_LENS_progress)
    | dcase 0 1 ltac:(apply rank_le, case_STORED_progress) | dcase 0 1 ltac:(apply to_TYPE_rank, case_TABLE_progress)
    | dcase 0 1 ltac:(apply to_TYPE_rank, case_BTREE_progress, Hr)
    | dcase 0 1 ltac:(apply to_TYPE_rank, case_DTREE_progress, Hr)
    | dcase 0 1 ltac:(apply to_TYPE_rank, case_CODES_progress)
    | apply leaves_decreases, case_DRY_leaves
    | apply leaves_decreases; intros s _; exact I.. ].
Qed.

(** [potential st + 1] turns are enough. *)
Lemma blocks_loop_total (fuel : nat) (st : blocks_state) :
  0 <= bitk (cs (io st)) -> resumable (mode st) -> (Z.to_nat (potential st) < fuel)%nat ->
  exists st', blocks_loop w fuel st = Some st'.
Proof.
  revert st. induction fuel as [|fuel IH]; intros st Hk Hr Hf; [lia|]. cbn [blocks_loop].
  pose proof (blocks_step_decreases st Hk Hr) as H. unfold decreases in H.
  destruct (blocks_step w st) as [u st'|st']; [|eauto].
  destruct H as (Hk' & Hr' & Hp). apply IH; [exact Hk'|exact Hr'|].
  pose proof (potential_nonneg st' Hk'). lia.
Qed.

(** A typed state has [k >= 0] and the member of [sub] its mode uses. *)
Lemma typed_resumable (st : blocks_state) :
  blocks_typed w st -> 0 <= bitk (cs (io st)) /\ resumable (mode st).
Proof.
  intros [(Hk & _) Hm]. split; [lia|].
  destruct (mode st); cbn in Hm |- *; first [exact I | apply Hm].
Qed.

(** The call from a typed state, with the status the caller passes. *)
Lemma inflate_blocks_total (fuel : nat) (st : blocks_state) (r : status) :
  blocks_typed w st -> (Z.to_nat (potential st) < fuel)%nat ->
  exists st', inflate_blocks w fuel st r = Some st'.
Proof.
  intros H Hf. destruct (typed_resumable st H) as [Hk Hr]. unfold inflate_blocks.
  destruct (blocks_loop_total fuel (mk_blocks (mode st) (last st) (mk_ctx (cs (io st)) (cz (io st)) r)) Hk Hr Hf)
    as [st1 ->].
  eexists. reflexivity.
Qed.

(** C7: From a typed state, whatever status the caller passes, the
    call of [inflate_blocks] returns within [potential st + 1] turns of
    its loop: the bits still to read plus the rank of the mode bound
    the number of turns, for a codes decoder that adds no bit and a
    builder whose meta tables stay within their width. *)
Theorem inflate_blocks_terminates (fuel : nat) (st : blocks_state) (r : status) :
  blocks_typed w st -> (Z.to_nat (potential st) < fuel)%nat ->
  exists st', inflate_blocks w fuel st r = Some st'.
Proof. apply inflate_blocks_total. Qed.
End Cases.

(** ** Every call of a session returns *)

Section Session.
Context `{TB : TreeBuilder} `{CD : @CodesDecoder TB} `{HL : !HeapLaws} `{CP : !CodesProgress} `{MT : !MetaTables}.
Variable w : Z.
Context `{CT : !CodesTyped w}.

(** C6: In a session on an [unsigned long] of at least 32 bits, every
    call of [inflate_blocks], from any state the session reaches, with
    any stream and status the caller gives, returns within
    [potential + 1] turns: the loop [while (1)] never runs forever. *)
Theorem reachable_call_terminates (st : blocks_state) (z : z_stream) (r : status) (fuel : nat) :
  32 <= w -> reachable w st -> (Z.to_nat (potential (with_stream st z)) < fuel)%nat ->
  exists st', inflate_blocks w fuel (with_stream st z) r = Some st'.
Proof.
  intros Hw Hr Hf. destruct (reachable_blocks_typed w st Hw Hr) as [Hc Hm].
  apply inflate_blocks_total; [exact (conj (ctx_typed_cs w (io st) _ eq_refl Hc) Hm)|exact Hf].
Qed.
End Session.

(** C8: With the codes decoder of [infcodes.c] ([Codes.bitwise_codes]),
    [case CODES] never adds a bit to read: from [k >= 0] and at most
    [N] bits in the buffer and the input, if it goes on, it is to TYPE
    with at most [N] bits still to read; every DUMPBITS of the decoder
    drops a code length or a count of extra bits that NEEDBITS made
    available, on every path, errors included. *)
Theorem codes_phase_progress (w N : Z) (cd : codes) :
  @goes_on canonical_trees (bitwise_codes w) unit (BI N) (@case_CODES canonical_trees (bitwise_codes w) cd) (to_TYPE N).
Proof. apply case_CODES_progress. Qed.
