(* ===== verification/Scenarios.v ===== *)
(** * Runs of the block decoder on concrete streams

    The block decoder of [Blocks] with the table builder of [Trees] and
    the codes decoder of [Codes] on a 32-bit [unsigned long]: the
    instances of the general theorems at concrete states, each
    hypothesis discharged by computation. *)

From Stdlib Require Import ZArith Lia List String.
From stdpp Require Import base list.
From S2P Require Import Prelude Zlib BitBuf Window Interfaces Trees Codes Blocks Session Stored Progress.

Open Scope Z_scope.

(** The codes decoder on a 32-bit [unsigned long]. *)
#[local] Instance codes32 : CodesDecoder := bitwise_codes 32.

(** A stream with the whole input [inp], 256 bytes of output room and an
    allocator that grants [room] more objects. *)
Definition stream_of (inp : list Z) (room : nat) : z_stream :=
  mk_z_stream inp 0 (List.length inp) 0 [] 256 0 None [] room.

(** ** The general theorems at concrete states *)

(** A window of 8 bytes whose pending bytes wrap: [70; 80] at its end,
    then [10; 20] at its start; the caller has room for 3 bytes. *)
Definition ctx_wrapped : ctx :=
  mk_ctx (mk_indep 0 0 [10; 20; 30; 40; 50; 60; 70; 80] 8 6 2 None 0)
         (mk_z_stream [] 0 0 0 [] 3 0 None [] 0) Z_BUF_ERROR.

Lemma inflate_flush_correct_witness :
  window_ok (cs ctx_wrapped) /\
  next_out (cz (inflate_flush ctx_wrapped)) = [70; 80; 10] /\
  pending (cs (inflate_flush ctx_wrapped)) = [20] /\
  cr (inflate_flush ctx_wrapped) = Z_OK.
Proof.
  assert (Hok : window_ok (cs ctx_wrapped)) by (refine (bool_decide_unpack _ _); vm_compute; exact I).
  destruct (inflate_flush_correct ctx_wrapped Hok) as (_ & _ & Hout & Hp & _ & Hr & _).
  refine (conj Hok (conj _ (conj _ _))).
  - rewrite Hout. vm_compute. reflexivity.
  - vm_compute in Hp. vm_compute. reflexivity.
  - rewrite Hr. vm_compute. reflexivity.
Defined.

(** A full window ([write] at its end, [read] at 0) and room for 8
    bytes: NEEDOUT flushes and wraps, and goes on. *)
Definition ctx_full : ctx :=
  mk_ctx (mk_indep 0 0 [1; 2; 3; 4] 4 0 4 None 0)
         (mk_z_stream [] 0 0 0 [] 8 0 None [] 0) Z_BUF_ERROR.

Lemma NEEDOUT_spec_witness :
  window_ok (cs ctx_full) /\
  exists c', NEEDOUT ctx_full = Cont tt c' /\ (0 < WAVAIL (cs c'))%nat /\
             out_stream c' = [1; 2; 3; 4].
Proof.
  assert (Hok : window_ok (cs ctx_full)) by (refine (bool_decide_unpack _ _); vm_compute; exact I).
  split; [exact Hok|].
  pose proof (NEEDOUT_spec ctx_full Hok) as H.
  destruct (NEEDOUT ctx_full) as [[] c'|c'] eqn:E; [|discriminate].
  destruct H as (_ & Hw & _ & Hs & _).
  exists c'. split; [reflexivity|]. split; [exact Hw|]. rewrite Hs. reflexivity.
Defined.

(** A buffer holding 3 bits, two input bytes. *)
Definition ctx_bits : ctx :=
  mk_ctx (mk_indep 3 5 [0] 1 0 0 None 0)
         (mk_z_stream [0xA5; 0x3C] 0 2 0 [] 0 0 None [] 0) Z_OK.

Lemma NEEDBITS_spec_witness :
  bitbuf_ok 32 ctx_bits /\
  exists c', NEEDBITS 32 12 ctx_bits = Cont tt c' /\ bitk (cs c') = 19 /\
             stream_bits c' = stream_bits ctx_bits.
Proof.
  assert (Hok : bitbuf_ok 32 ctx_bits) by (refine (bool_decide_unpack _ _); vm_compute; exact I).
  split; [exact Hok|].
  pose proof (NEEDBITS_spec 32 12 ctx_bits Hok ltac:(vm_compute; discriminate)) as H.
  destruct (NEEDBITS 32 12 ctx_bits) as [[] c'|c'] eqn:E; [|discriminate].
  destruct H as (_ & _ & Hs & Hk).
  exists c'. split; [reflexivity|]. split; [rewrite Hk; reflexivity|exact Hs].
Defined.

Lemma DUMPBITS_spec_witness :
  bitbuf_ok 32 ctx_bits /\
  exists c', DUMPBITS 2 ctx_bits = Cont tt c' /\ bitk (cs c') = 1 /\
             stream_bits c' = drop 2 (stream_bits ctx_bits).
Proof.
  assert (Hok : bitbuf_ok 32 ctx_bits) by (refine (bool_decide_unpack _ _); vm_compute; exact I).
  split; [exact Hok|].
  destruct (DUMPBITS_spec 32 2 ctx_bits Hok ltac:(vm_compute; split; discriminate))
    as (c' & E & _ & _ & Hs & Hk).
  exists c'. split; [exact E|]. split; [rewrite Hk; reflexivity|exact Hs].
Defined.

Lemma peek_bits_witness :
  bitbuf_ok 32 ctx_bits /\
  bits_of 3 (Z.land (bitb (cs ctx_bits)) (inflate_mask 3)) = take 3 (stream_bits ctx_bits).
Proof.
  assert (Hok : bitbuf_ok 32 ctx_bits) by (refine (bool_decide_unpack _ _); vm_compute; exact I).
  split; [exact Hok|].
  exact (peek_bits 32 3 ctx_bits Hok ltac:(vm_compute; split; discriminate)).
Defined.

(** A session in [mode]: 32-bit buffer empty, an 8-byte window, [inp]
    as the input. *)
Definition state_in (m : block_mode) (inp : list Z) : blocks_state :=
  mk_blocks m false (mk_ctx (mk_indep 0 0 (repeat 0 8) 8 0 0 None 0)
                            (stream_of inp 0) Z_OK).

Lemma inflate_blocks_inf_error_witness :
  exists st', inflate_blocks 32 1 (state_in INF_ERROR []) Z_OK = Some st' /\
    mode st' = INF_ERROR /\ cr (io st') = Z_DATA_ERROR.
Proof. apply (inflate_blocks_inf_error 32 0 (state_in INF_ERROR []) Z_OK). reflexivity. Defined.

Lemma inflate_blocks_done_witness :
  exists st', inflate_blocks 32 1 (state_in DONE [0x55]) Z_BUF_ERROR = Some st' /\
    mode st' = DONE /\ cr (io st') = Z_STREAM_END.
Proof. apply (inflate_blocks_done 32 0 (state_in DONE [0x55]) Z_BUF_ERROR). reflexivity. Defined.

(** LEN = 5, NLEN = 0xFFFA: accepted with a 32-bit [unsigned long]. *)
Lemma stored_lengths_bad_32_witness :
  stored_lengths_bad 32 (5 + 0xFFFA * 2 ^ 16) = false.
Proof. rewrite stored_lengths_bad_32 by lia. vm_compute. reflexivity. Defined.

(** ... and rejected with a 64-bit one. *)
Lemma stored_lengths_bad_64_witness :
  stored_lengths_bad 64 (5 + 0xFFFA * 2 ^ 16) = true.
Proof. apply stored_lengths_bad_64. lia. Defined.

(** [case LENS] on LEN = 5, NLEN = 0xFFFA, followed by two bytes. *)
Lemma case_LENS_spec_witness :
  exists st', case_LENS 32 (state_in LENS [5; 0; 0xFA; 0xFF; 0x61; 0x62]) = Cont tt st' /\
    mode st' = STORED 5 /\ bitk (cs (io st')) = 0 /\ bitb (cs (io st')) = 5 + 0xFFFA * 2 ^ 16.
Proof.
  pose proof (case_LENS_spec (state_in LENS [5; 0; 0xFA; 0xFF; 0x61; 0x62])
                ltac:(refine (bool_decide_unpack _ _); vm_compute; exact I)
                ltac:(vm_compute; discriminate) ltac:(reflexivity) ltac:(vm_compute; discriminate)) as H.
  cbv zeta in H.
  set (st0 := state_in LENS [5; 0; 0xFA; 0xFF; 0x61; 0x62]) in H.
  assert (E1 : le_value (take 16 (stream_bits (io st0))) = 5) by (vm_compute; reflexivity).
  assert (E2 : le_value (take 16 (drop 16 (stream_bits (io st0)))) = 0xFFFA)
    by (vm_compute; reflexivity).
  rewrite E1, E2 in H.
  destruct H as (st' & E & Hm & _ & Hk & Hb & _).
  exists st'. split; [exact E|]. split; [exact Hm|]. split; [exact Hk|]. exact Hb.
Defined.

Lemma state_in_copy_inv (m : block_mode) (inp : list Z) :
  Forall (fun x => 0 <= x < 256) inp -> copy_inv (io (state_in m inp)).
Proof.
  intros Hf. split; [|split; [split; [simpl; lia|exact Hf]|]].
  - refine (bool_decide_unpack _ _). vm_compute. exact I.
  - intros f Hf'. discriminate.
Qed.

(** [case STORED] copying "abc" with room for it. *)
Lemma stored_copy_spec_witness :
  exists st', stored_copy 3 (state_in (STORED 3) [0x61; 0x62; 0x63]) = Cont tt st' /\
    out_stream (io st') = [0x61; 0x62; 0x63].
Proof.
  destruct (stored_copy_spec 3 (state_in (STORED 3) [0x61; 0x62; 0x63])
              (state_in_copy_inv (STORED 3) [0x61; 0x62; 0x63] ltac:(repeat constructor; lia)) eq_refl)
    as (m & st' & [[E ->] | (E & _)] & _ & Hc).
  - exists st'. split; [exact E|]. destruct Hc as (_ & _ & Ho & _). rewrite Ho. reflexivity.
  - assert (Hb : match stored_copy 3 (state_in (STORED 3) [0x61; 0x62; 0x63]) with
                  | Cont _ _ => true | Exit _ => false end = true) by (vm_compute; reflexivity).
    rewrite E in Hb. discriminate.
Defined.

(** [case TYPE] on the header of a final stored block. *)
Lemma case_TYPE_spec_witness :
  exists st', case_TYPE 32 (state_in TYPE [0x01; 0x00; 0x00; 0xFF; 0xFF]) = Cont tt st' /\
    mode st' = LENS /\ last st' = true /\ bitk (cs (io st')) = 0.
Proof.
  pose proof (case_TYPE_spec 32 (state_in TYPE [0x01; 0x00; 0x00; 0xFF; 0xFF]) ltac:(lia)
                ltac:(refine (bool_decide_unpack _ _); vm_compute; exact I)
                ltac:(vm_compute; discriminate)) as H.
  cbv zeta in H.
  set (st0 := state_in TYPE [0x01; 0x00; 0x00; 0xFF; 0xFF]) in H.
  assert (E0 : le_value (take 2 (drop 1 (stream_bits (io st0)))) = 0) by (vm_compute; reflexivity).
  rewrite E0 in H. destruct H as (st' & E & Hm & Hl & _ & _ & d & Hd & Hs).
  exists st'. split; [exact E|]. split; [exact Hm|]. split; [rewrite Hl; reflexivity|].
  assert (Hk : match case_TYPE 32 st0 with
                | Cont _ s => bitk (cs (io s)) =? 0 | Exit _ => false end = true)
    by (vm_compute; reflexivity).
  rewrite E in Hk. apply Z.eqb_eq, Hk.
Defined.

(** A dynamic block header after BTREE: the code-length code has the
    symbols 0, 8, 16 and 18 at length 2 (codes 00, 01, 10, 11), HLIT =
    HDIST = 0, no length decoded yet. *)
Definition meta_lens : list Z :=
  [2; 0; 0; 0; 0; 0; 0; 0; 2; 0; 0; 0; 0; 0; 0; 0; 2; 0; 2].

Definition trees_dyn : trees_state :=
  mk_trees 0 0 (repeat 0 258) 2 (Some (mk_htable meta_lens 2 true)).

(** Bits 01 (symbol 8), then 11 (symbol 18) with 7 extra bits. *)
Definition ctx_dyn : ctx := io (state_in (DTREE trees_dyn) [0x0E; 0x10; 0x00]).

Lemma dtree_loop_spec_witness :
  dtree_post 32 trees_dyn false ctx_dyn
    (dtree_ref (dtree_total (table trees_dyn)) (bb trees_dyn) (meta_entry trees_dyn) 3 []
       (stream_bits ctx_dyn))
    (dtree_loop 32 3 trees_dyn (mk_blocks (DTREE trees_dyn) false ctx_dyn)).
Proof.
  apply (dtree_loop_spec 32 3 trees_dyn [] false ctx_dyn).
  - lia.
  - apply meta_okb_sound. vm_compute. reflexivity.
  - refine (bool_decide_unpack _ _). vm_compute. exact I.
  - split; reflexivity.
  - reflexivity.
Defined.

Lemma dtree_loop_total_witness :
  match dtree_loop 32 (dtree_total (table trees_dyn) - index trees_dyn) trees_dyn
          (mk_blocks (DTREE trees_dyn) false ctx_dyn) with
  | Cont tr' st' => index tr' = dtree_total (table trees_dyn) /\ mode st' = DTREE tr'
  | Exit st' => (exists tr', mode st' = DTREE tr' /\ avail_in (cz (io st')) = 0%nat) \/
                (mode st' = INF_ERROR /\ cr (io st') = Z_DATA_ERROR)
  end.
Proof.
  apply (dtree_loop_total 32 trees_dyn [] false ctx_dyn).
  - lia.
  - apply meta_okb_sound. vm_compute. reflexivity.
  - refine (bool_decide_unpack _ _). vm_compute. exact I.
  - split; reflexivity.
  - reflexivity.
Defined.

(** [case TABLE] on HLIT = 31: too many literal/length symbols. *)
Lemma case_TABLE_spec_witness :
  exists st', case_TABLE 32 (state_in TABLE [0x1F; 0x00]) = Exit st' /\ mode st' = INF_ERROR /\
    cr (io st') = Z_DATA_ERROR /\ msg (cz (io st')) = Some "too many length or distance symbols"%string.
Proof.
  pose proof (case_TABLE_spec 32 (state_in TABLE [0x1F; 0x00]) ltac:(lia)
                ltac:(refine (bool_decide_unpack _ _); vm_compute; exact I)
                ltac:(vm_compute; discriminate)) as H.
  cbv zeta in H.
  set (st0 := state_in TABLE [0x1F; 0x00]) in H.
  assert (E : le_value (take 5 (stream_bits (io st0))) = 31) by (vm_compute; reflexivity).
  rewrite E in H. revert H. case_decide; [exact id | lia].
Defined.

(** The code-length code lengths read by [case BTREE]: 5, then 3. *)
Definition trees_b : trees_state := mk_trees 0 0 (repeat 0 258) 0 None.

Lemma btree_read_spec_witness :
  exists st', btree_read 32 2 trees_b (state_in (BTREE trees_b) [0x1D; 0x00]) =
    Cont (btree_fill trees_b [5; 3]) st'.
Proof.
  set (st0 := state_in (BTREE trees_b) [0x1D; 0x00]).
  destruct (btree_read_spec 32 2 trees_b st0 ltac:(lia)
              ltac:(refine (bool_decide_unpack _ _); vm_compute; exact I) eq_refl)
    as (m & st' & _ & [[E ->] | (E & _)] & _).
  - exists st'. rewrite E. reflexivity.
  - assert (Hb : match btree_read 32 2 trees_b st0 with
                  | Cont _ _ => true | Exit _ => false end = true) by (vm_compute; reflexivity).
    rewrite E in Hb. discriminate.
Defined.

(** BTREE with HCLEN + 4 = 2 lengths read, 5 and 3: [blens[16] = 5],
    [blens[17] = 3], the other 17 of the 19 zero. *)
Lemma btree_placement_witness :
  let tr' := btree_zero (19 - index (btree_fill trees_b [5; 3])) (btree_fill trees_b [5; 3]) in
  index tr' = 19%nat /\
  forall i, (i < 19)%nat -> blens tr' !! border_at i = Some (nth i [5; 3] 0).
Proof.
  assert (Hl : (19 <= length (blens trees_b))%nat) by (cbn [blens trees_b]; rewrite repeat_length; lia).
  exact (btree_placement trees_b [5; 3] eq_refl (le_n_S _ _ (le_n_S _ _ (Nat.le_0_l 17))) Hl).
Defined.

(** The repeat loop of [case DTREE] on a list of 6 entries, from 1,
    twice. *)
Lemma fill_lens_app_witness :
  (1 + 2 <= length [1; 2; 3; 4; 5; 6])%nat /\
  fill_lens [1; 2; 3; 4; 5; 6] 1 2 9 = take 1 [1; 2; 3; 4; 5; 6] ++ repeat 9 2 ++ drop (1 + 2) [1; 2; 3; 4; 5; 6].
Proof. split; [simpl; lia | apply fill_lens_app; simpl; lia]. Defined.

(** The codes decoder on the fixed tables in the last block, the input
    holding the code of "a" (8 bits) and the end-of-block code (7 bits). *)
Definition cd_fixed : codes :=
  mk_codes START 9 5 (mk_htable fixed_lit_lens 9 false) (mk_htable fixed_dist_lens 5 false).

Definition st_end : blocks_state :=
  mk_blocks (CODES cd_fixed) true (io (state_in DRY [0x89; 0x00])).

Lemma case_CODES_end_witness :
  exists st', case_CODES cd_fixed st_end = Exit st' /\ (mode st' = DRY \/ mode st' = DONE) /\
    0 <= bitk (cs (io st')) <= 7.
Proof.
  set (p := inflate_codes (CodesDecoder := codes32) cd_fixed (io st_end)).
  assert (Hr : cr (snd p) = Z_STREAM_END) by (vm_compute; reflexivity).
  assert (Hk : bitk (cs (snd p)) = 1) by (vm_compute; reflexivity).
  pose proof (case_CODES_end cd_fixed (fst p) st_end (snd p) eq_refl (surjective_pairing p) Hr
                ltac:(rewrite Hk; lia)) as H.
  cbv zeta in H. change (last st_end) with true in H.
  destruct H as (st' & E & Hm & _ & Hb & _). exists st'. exact (conj E (conj Hm Hb)).
Defined.

(** The same decoder in a block that is not the last, from 16 bits to read. *)
Lemma codes_phase_progress_witness :
  match case_CODES cd_fixed (mk_blocks (CODES cd_fixed) false (io (state_in TYPE [0x89; 0x00]))) with
  | Cont _ st' => to_TYPE 16 tt st'
  | Exit _ => True
  end.
Proof. apply (codes_phase_progress 32 16 cd_fixed). split; apply Z.leb_le; vm_compute; reflexivity. Defined.

(** A run that leaves is [Exit] of its state. *)
Lemma exit_of {S A} (r : res S A) :
  match r with Exit _ => true | Cont _ _ => false end = true -> r = Exit (res_state r).
Proof. destruct r; [discriminate|reflexivity]. Qed.

Lemma mode_inf_error (st : blocks_state) :
  match mode st with INF_ERROR => true | _ => false end = true -> mode st = INF_ERROR.
Proof. destruct (mode st); first [discriminate|reflexivity]. Qed.

(** A session whose allocator holds the code-length table, the lengths,
    the window and the state, in DTREE at the repeat code 16 as the
    first length. *)
Definition st_repeat : blocks_state :=
  mk_blocks (DTREE trees_dyn) false
    (mk_ctx (cs (io (state_in (DTREE trees_dyn) [0x01; 0x00])))
            (z_set_heap (stream_of [0x01; 0x00] 0) [ObjHuft; ObjBlens; ObjWindow; ObjBlocksState] 0) Z_OK).

(** After the data error, [inflate_blocks_free] leaves the table and
    the lengths allocated. *)
Lemma dtree_error_leaks_witness :
  zlive (snd (inflate_blocks_free (res_state (dtree_loop 32 3 trees_dyn st_repeat)) 0)) = [ObjHuft; ObjBlens].
Proof.
  rewrite (dtree_error_leaks 32 3 trees_dyn st_repeat _ 0);
    [reflexivity|apply exit_of; vm_compute; reflexivity|apply mode_inf_error; vm_compute; reflexivity].
Defined.

(** A session made by [inflate_blocks_new] whose [s->bitb] holds 6 (bits
    1 and 2 set), given the valid stream 4B 04 00 ("a" in a final fixed
    block): the header is read as block type 3. *)
Definition st_bitb6 : blocks_state :=
  mk_blocks TYPE false
    (mk_ctx (mk_indep 0 6 (repeat 0 8) 8 0 0 None 0)
            (z_set_heap (stream_of [] 8) [ObjWindow; ObjBlocksState] 6) Z_OK).

Lemma uninitialized_bitb_read_witness :
  let st' := res_state (case_TYPE 32 (mk_blocks TYPE false
               (mk_ctx (cs (io st_bitb6)) (stream_of [0x4B; 0x04; 0x00] 8) Z_OK))) in
  last st' = true /\ mode st' = INF_ERROR /\ cr (io st') = Z_DATA_ERROR /\
  msg (cz (io st')) = Some "invalid block type"%string.
Proof.
  destruct (uninitialized_bitb_read (stream_of [] 8) (stream_of [0x4B; 0x04; 0x00] 8) None 8 6 (repeat 0 8)
              st_bitb6 Z_OK 0x4B [0x04; 0x00] eq_refl eq_refl) as [H1 H2].
  split; [exact H1|exact (H2 eq_refl eq_refl)].
Defined.

(** A final stored block of "abc" after its header byte 0x01, at a
    session in TYPE with an empty buffer and window. *)
Lemma stored_block_decodes_witness :
  exists st', inflate_blocks 32 (4 + 0) (state_in TYPE (stored_header 1 3 ++ [97; 98; 99] ++ [])) Z_OK = Some st' /\
    mode st' = DONE /\ cr (io st') = Z_STREAM_END /\ next_out (cz (io st')) = [] ++ [97; 98; 99] /\
    pending_input (cz (io st')) = [].
Proof.
  set (inp := stored_header 1 3 ++ [97; 98; 99] ++ []).
  assert (Hb : Forall (fun x => 0 <= x < 256) inp)
    by (subst inp; apply (bool_decide_unpack _); vm_compute; reflexivity).
  destruct (state_in_copy_inv TYPE inp Hb) as (Hw & _ & Hchk).
  apply (stored_block_decodes (state_in TYPE inp) 1 [97; 98; 99] [] Z_OK 0).
  - reflexivity.
  - refine (bool_decide_unpack _ _). vm_compute. exact I.
  - reflexivity.
  - exact Hchk.
  - exact Hw.
  - vm_compute. reflexivity.
  - reflexivity.
  - cbn. lia.
  - cbn. lia.
  - vm_compute. reflexivity.
Defined.
