(* ===== verification/Checked.v ===== *)
(** * Runs over the checked builder: the type invariant at concrete states

    The block decoder with [Trees.checked_trees] (the table builder that
    rejects incomplete code-length codes, for which [MetaTables] holds)
    and [Codes.checked_codes] on a 32-bit [unsigned long] (for which
    [CodesTyped 32] holds), a 64-byte window: a session made by
    [inflate_blocks_new] on an empty stream, then one call with the whole
    input.  The theorems of [Invariant] and [Progress] at these
    states. *)

From Stdlib Require Import ZArith Lia List String.
From stdpp Require Import base list.
From S2P Require Import Prelude Zlib BitBuf Window Interfaces Trees Codes Blocks Session Invariant Progress.

Open Scope Z_scope.

#[local] Existing Instance checked_trees | 0.
#[local] Instance checked32 : @CodesDecoder checked_trees | 0 := checked_codes 32.

(** The caller's stream: the input, 256 bytes of room, 8 objects. *)
(** The codes decoder's law on 32 bits, given explicitly: its
    hypothesis [22 <= 32] is not found by resolution. *)
Lemma ulong32 : 22 <= 32.
Proof. lia. Qed.

#[local] Instance checked32_typed : @CodesTyped 32 checked_trees checked32 := checked_codes_typed 32 ulong32.
#[local] Instance checked32_heap : @HeapLaws checked_trees checked32 := checked_heap 32.
#[local] Instance checked32_progress : @CodesProgress checked_trees checked32 := checked_codes_progress 32.

Definition z_in (inp : list Z) : z_stream :=
  mk_z_stream inp 0 (List.length inp) 0 [] 256 0 None [] 8.

Definition the_state (o : option blocks_state) (d : blocks_state) : blocks_state :=
  match o with Some st => st | None => d end.

Definition st_dummy : blocks_state :=
  mk_blocks INF_ERROR false (mk_ctx (mk_indep 0 0 [0] 1 0 0 None 0) (z_in []) Z_OK).

(** [inflate_blocks_new] with a 64-byte window on an empty stream. *)
Definition st_new : blocks_state :=
  the_state (inflate_blocks_new (z_in []) None 64 0 (repeat 0 64)) st_dummy.

Definition dyn_input : list Z :=
  [5; 193; 1; 1; 0; 0; 8; 195; 160; 172; 236; 246; 207; 32; 0; 80; 213; 118; 15].

(** The session given [dyn_input], and the state the call returns. *)
Definition st_fed : blocks_state := with_stream st_new (z_in dyn_input).

Definition st_after : blocks_state :=
  the_state (inflate_blocks 32 1000 st_fed Z_BUF_ERROR) st_dummy.

(** The call decodes the block and ends the stream. *)
Example checked_dynamic_block :
  (next_out (cz (io st_after)), cr (io st_after)) =
    (repeat 97 10 ++ repeat 98 5 ++ [99; 99; 100], Z_STREAM_END).
Proof. vm_compute. reflexivity. Qed.

(** A run that returns returns [the_state] of itself.  The equations
    below are proved through booleans: a goal whose type mentions
    [blocks_state] would have [vm_compute] normalize the builder's
    functions inside its parameters. *)
Lemma the_state_some (o : option blocks_state) (d : blocks_state) :
  match o with Some _ => true | None => false end = true -> o = Some (the_state o d).
Proof. destruct o; [reflexivity|discriminate]. Qed.

Lemma st_new_eq : inflate_blocks_new (z_in []) None 64 0 (repeat 0 64) = Some st_new.
Proof. apply the_state_some. vm_compute. reflexivity. Qed.

Lemma st_after_eq : inflate_blocks 32 1000 st_fed Z_BUF_ERROR = Some st_after.
Proof. apply the_state_some. vm_compute. reflexivity. Qed.

Lemma inflate_blocks_preserves_typed_witness : blocks_typed 32 st_after.
Proof.
  apply (inflate_blocks_preserves_typed 32 1000 st_fed st_after Z_BUF_ERROR); [lia| |exact st_after_eq].
  split; [apply (@bool_decide_unpack _ (ctx_typed_dec 32 (io st_fed))); vm_compute; reflexivity|exact I].
Defined.

Lemma reachable_typed_witness : blocks_typed 32 st_after.
Proof.
  apply (reachable_typed 32 st_after); [lia|].
  apply (reach_call 32 st_new (z_in dyn_input) 1000 Z_BUF_ERROR st_after); [|exact st_after_eq].
  apply (reach_new 32 (z_in []) None 64 0 (repeat 0 64) st_new); [lia|lia|reflexivity|exact st_new_eq].
Defined.

(** The call on [st_fed] returns within 200 turns: its potential is
    [8 * 19 + 1]. *)
Lemma st_fed_potential : (Z.to_nat (potential st_fed) < 200)%nat.
Proof. apply Nat.ltb_lt. vm_compute. reflexivity. Qed.

Lemma st_fed_typed : blocks_typed 32 st_fed.
Proof. split; [apply (@bool_decide_unpack _ (ctx_typed_dec 32 (io st_fed))); vm_compute; reflexivity|exact I]. Qed.

Lemma inflate_blocks_terminates_witness : exists st', inflate_blocks 32 200 st_fed Z_BUF_ERROR = Some st'.
Proof. apply (inflate_blocks_terminates 32 200 st_fed Z_BUF_ERROR st_fed_typed st_fed_potential). Defined.

Lemma reachable_call_terminates_witness : exists st', inflate_blocks 32 200 st_fed Z_BUF_ERROR = Some st'.
Proof.
  apply (reachable_call_terminates 32 st_new (z_in dyn_input) Z_BUF_ERROR 200); [lia| |exact st_fed_potential].
  apply (reach_new 32 (z_in []) None 64 0 (repeat 0 64) st_new); [lia|lia|reflexivity|exact st_new_eq].
Defined.


